(** * DocQueryAI: retrieval and extraction pipeline

    A shallow embedding of the TypeScript sources

      - server/storage.ts            (MemStorage)
      - server/routes.ts             (extractInformationFromContext and the
                                      routes; shipped in the same file)
      - server/services/pdfService.ts
      - server/services/embeddingService.ts
      - server/services/vectorService.ts

    JavaScript strings are modelled as lists of Latin-1 code units
    ([list ascii]); on those [toLowerCase], [trim] and the regular
    expression classes used by the sources are exactly the functions below
    (beyond Latin-1 [toLowerCase] depends on context and may change the
    length; such texts are outside the model).  The regular expression
    parser covers the syntax the sources' patterns use and answers
    [Unsupported] for the rest, which matters only where a pattern is built
    from the query.
    JavaScript numbers that hold counts and indices are [nat] or [Z]; numbers
    that hold similarities and vector components are real numbers ([R]), so
    the arithmetic on them is exact; [cosineSimilarity] is modelled a second
    time over IEEE doubles (module [Doubles]), where its rounding shows. *)

From Stdlib Require Import Ascii String.
From Stdlib Require Import List ZArith Bool Arith Lia.
From Stdlib Require Import Reals Lra.
From Stdlib Require Floats.
From Stdlib Require Import DecimalString DecimalN.
From Stdlib Require Import Sorting.Permutation Sorting.Sorted.
Import ListNotations.

Open Scope string_scope.
Open Scope list_scope.
Open Scope nat_scope.

(** ** JavaScript strings *)

Abbreviation jstr := (list ascii).

Definition lit (s : string) : jstr := list_ascii_of_string s.
Coercion lit : string >-> list.

Module JS.

Definition code (c : ascii) : nat := nat_of_ascii c.

Definition between (lo hi : nat) (c : ascii) : bool :=
  (lo <=? code c) && (code c <=? hi).

(** WhiteSpace and LineTerminator code units below 256: TAB, LF, VT, FF, CR,
    SP and NBSP.  These are what [trim] strips and what [\s] matches. *)
Definition isSpace (c : ascii) : bool :=
  between 9 13 c || (code c =? 32) || (code c =? 160).

Definition isDigit (c : ascii) : bool := between 48 57 c.

Definition isWordChar (c : ascii) : bool :=
  between 97 122 c || between 65 90 c || isDigit c || (code c =? 95).

Definition isLineTerminator (c : ascii) : bool :=
  (code c =? 10) || (code c =? 13).

(** Case mapping of single code units.  Upper-case letters are A-Z and
    U+00C0..U+00DE without the multiplication sign U+00D7. *)
Definition isUpper (c : ascii) : bool :=
  between 65 90 c || (between 192 222 c && negb (code c =? 215)).

Definition isLower (c : ascii) : bool :=
  between 97 122 c || (between 224 254 c && negb (code c =? 247)).

Definition lowerChar (c : ascii) : ascii :=
  if isUpper c then ascii_of_nat (code c + 32) else c.

Definition upperChar (c : ascii) : ascii :=
  if isLower c then ascii_of_nat (code c - 32) else c.

Definition toLowerCase (s : jstr) : jstr := map lowerChar s.

Definition eqc (a b : ascii) : bool := Ascii.eqb a b.

Fixpoint startsWith (s p : jstr) : bool :=
  match p, s with
  | [], _ => true
  | _ :: _, [] => false
  | a :: p', b :: s' => eqc a b && startsWith s' p'
  end.

(** [indexOfFrom s sub i]: the first position [>= i] of [s0] at which [sub]
    starts, where [s] is [s0] without its first [i] code units. *)
Fixpoint indexOfFrom (s sub : jstr) (i : nat) : option nat :=
  if startsWith s sub then Some i
  else match s with
       | [] => None
       | _ :: s' => indexOfFrom s' sub (S i)
       end.

Definition includes (s sub : jstr) : bool :=
  match indexOfFrom s sub 0 with Some _ => true | None => false end.

(** [s.indexOf(sub, from)], [-1] when there is no occurrence. *)
Definition indexOf (s sub : jstr) (from : nat) : Z :=
  match indexOfFrom (skipn from s) sub (Nat.min from (length s)) with
  | Some i => Z.of_nat i
  | None => (-1)%Z
  end.

(** [s.lastIndexOf(c)] for a one-character needle. *)
Fixpoint lastIndexOfFrom (s : jstr) (c : ascii) (i : nat) (acc : Z) : Z :=
  match s with
  | [] => acc
  | a :: s' => lastIndexOfFrom s' c (S i) (if eqc a c then Z.of_nat i else acc)
  end.

Definition lastIndexOf (s : jstr) (c : ascii) : Z := lastIndexOfFrom s c 0 (-1)%Z.

Fixpoint trimStart (s : jstr) : jstr :=
  match s with
  | c :: s' => if isSpace c then trimStart s' else s
  | [] => []
  end.

Definition trimEnd (s : jstr) : jstr := rev (trimStart (rev s)).

Definition trim (s : jstr) : jstr := trimEnd (trimStart s).

(** [s.substring(a, b)] for [0 <= a <= b]. *)
Definition substring (s : jstr) (a b : nat) : jstr := firstn (b - a) (skipn a s).

(** [s.slice(a, b)]: a negative index counts from the end. *)
Definition sliceIndex (len : nat) (i : Z) : nat :=
  if (i <? 0)%Z then Z.to_nat (Z.max 0 (Z.of_nat len + i))
  else Nat.min (Z.to_nat i) len.

Definition slice (s : jstr) (a b : Z) : jstr :=
  substring s (sliceIndex (length s) a) (sliceIndex (length s) b).

Definition sliceFrom (s : jstr) (a : Z) : jstr :=
  skipn (sliceIndex (length s) a) s.

Fixpoint join (sep : jstr) (l : list jstr) : jstr :=
  match l with
  | [] => []
  | [x] => x
  | x :: l' => x ++ sep ++ join sep l'
  end.

Definition streq (a b : jstr) : bool :=
  (length a =? length b) && startsWith a b.

Definition isEmpty (s : jstr) : bool :=
  match s with [] => true | _ => false end.

(** Number to string, for non-negative integers. *)
Definition ofNat (n : nat) : jstr := lit (NilEmpty.string_of_uint (Nat.to_uint n)).

(** The code units of a text that are not blank. *)
Definition visible (s : jstr) : jstr := filter (fun c => negb (isSpace c)) s.

Definition dquote : jstr := [ascii_of_nat 34].
Definition newline : jstr := [ascii_of_nat 10].

End JS.

(** ** Regular expressions

    The sources use regular expression literals and, in the definition branch
    of the extractor, expressions built at run time from the query's subject.
    Both are kept here as their source text and parsed by [parsePattern],
    then run by a backtracking matcher written, like the matcher of the
    language definition, in continuation-passing style. *)

Module RegExp.
Import JS.

Inductive citem : Type :=
| CChar (c : ascii)
| CRange (lo hi : ascii)
| CDigit (neg : bool)
| CSpace (neg : bool)
| CWord (neg : bool).

Inductive regex : Type :=
| REmpty
| RChar (c : ascii)
| RAny
| RClass (neg : bool) (items : list citem)
| RSeq (r1 r2 : regex)
| RAlt (r1 r2 : regex)
| RQuant (r : regex) (min : nat) (max : option nat) (greedy : bool)
| RGroup (n : nat) (r : regex)
| RStart
| REnd
| RWordB (neg : bool).

(** *** Character matching *)

Definition inItem (it : citem) (c : ascii) : bool :=
  match it with
  | CChar a => eqc a c
  | CRange lo hi => (code lo <=? code c) && (code c <=? code hi)
  | CDigit neg => xorb neg (isDigit c)
  | CSpace neg => xorb neg (isSpace c)
  | CWord neg => xorb neg (isWordChar c)
  end.

(** With the [i] flag two code units match when they canonicalize to the same
    one; below 256 the code units that canonicalize like [c] are [c] itself
    and its upper- and lower-case forms. *)
Definition variants (ic : bool) (c : ascii) : list ascii :=
  if ic then [c; upperChar c; lowerChar c] else [c].

Definition inSet (ic : bool) (items : list citem) (c : ascii) : bool :=
  existsb (fun v => existsb (fun it => inItem it v) items) (variants ic c).

Definition classMatch (ic neg : bool) (items : list citem) (c : ascii) : bool :=
  xorb neg (inSet ic items c).

Definition charMatch (ic : bool) (a c : ascii) : bool := inSet ic [CChar a] c.

Definition anyMatch (c : ascii) : bool := negb (isLineTerminator c).

(** *** Matcher state *)

Record mstate : Type := mkState {
  rest : jstr;                        (* input from the current position on *)
  pos : nat;                          (* the current position *)
  prev : option ascii;                (* the code unit before it *)
  caps : nat -> option (nat * nat)    (* captures, as [start, end) *)
}.

Definition noCaps : nat -> option (nat * nat) := fun _ => None.

Definition setCap (n a b : nat) (x : mstate) : mstate :=
  mkState (rest x) (pos x) (prev x)
          (fun i => if i =? n then Some (a, b) else caps x i).

Definition clearCaps (gs : list nat) (x : mstate) : mstate :=
  mkState (rest x) (pos x) (prev x)
          (fun i => if existsb (Nat.eqb i) gs then None else caps x i).

Definition step (p : ascii -> bool) (x : mstate)
  (k : mstate -> option mstate) : option mstate :=
  match rest x with
  | a :: t => if p a then k (mkState t (S (pos x)) (Some a) (caps x)) else None
  | [] => None
  end.

Definition isWordOpt (o : option ascii) : bool :=
  match o with Some c => isWordChar c | None => false end.

Definition atBoundary (x : mstate) : bool :=
  xorb (isWordOpt (prev x)) (isWordOpt (hd_error (rest x))).

Fixpoint groups (r : regex) : list nat :=
  match r with
  | RSeq r1 r2 | RAlt r1 r2 => groups r1 ++ groups r2
  | RQuant r1 _ _ _ => groups r1
  | RGroup n r1 => n :: groups r1
  | _ => []
  end.

Definition orElse (a : option mstate) (b : unit -> option mstate) : option mstate :=
  match a with Some z => Some z | None => b tt end.

(** *** The matcher

    [matcher ic r x k] runs [r] from state [x] and hands every way of matching
    it, in priority order, to the continuation [k]; the first one [k] accepts
    is the result.

    [repeatMatcher] is the language definition's RepeatMatcher for an atom
    matched by [m]: captures of the atom are cleared on every iteration, and
    an iteration that matches the empty string once the minimum is reached
    is refused.  Each iteration lowers [min] or consumes input, so
    [min + length (rest x) + 1] iterations are never exhausted. *)
Fixpoint repeatMatcher (m : mstate -> (mstate -> option mstate) -> option mstate)
  (gs : list nat) (greedy : bool) (k : mstate -> option mstate)
  (fuel min : nat) (max : option nat) (x : mstate) {struct fuel} : option mstate :=
  match max with
  | Some 0 => k x
  | _ =>
      match fuel with
      | 0 => None
      | S fuel' =>
          let d := fun y =>
            if (min =? 0) && (pos y =? pos x) then None
            else repeatMatcher m gs greedy k fuel' (Nat.pred min)
                               (option_map Nat.pred max) y in
          let xr := clearCaps gs x in
          if negb (min =? 0) then m xr d
          else if greedy
               then orElse (m xr d) (fun _ => k x)
               else orElse (k x) (fun _ => m xr d)
      end
  end.

Fixpoint matcher (ic : bool) (r : regex) (x : mstate)
  (k : mstate -> option mstate) {struct r} : option mstate :=
  match r with
  | REmpty => k x
  | RChar a => step (charMatch ic a) x k
  | RAny => step anyMatch x k
  | RClass neg items => step (classMatch ic neg items) x k
  | RSeq r1 r2 => matcher ic r1 x (fun y => matcher ic r2 y k)
  | RAlt r1 r2 => orElse (matcher ic r1 x k) (fun _ => matcher ic r2 x k)
  | RGroup n r1 => matcher ic r1 x (fun y => k (setCap n (pos x) (pos y) y))
  | RStart => if pos x =? 0 then k x else None
  | REnd => match rest x with [] => k x | _ :: _ => None end
  | RWordB neg => if xorb neg (atBoundary x) then k x else None
  | RQuant r1 min max greedy =>
      repeatMatcher (matcher ic r1) (groups r1) greedy k
                    (min + length (rest x) + 1) min max x
  end.

(** The texts an expression can match, its assertions and repetition
    counts left aside: what a successful run of [matcher] has consumed is
    one of them (see [matcher_sound]). *)
Inductive lang (ic : bool) : regex -> jstr -> Prop :=
| L_empty : lang ic REmpty []
| L_char a c : charMatch ic a c = true -> lang ic (RChar a) [c]
| L_any c : anyMatch c = true -> lang ic RAny [c]
| L_class neg items c :
    classMatch ic neg items c = true -> lang ic (RClass neg items) [c]
| L_seq r1 r2 w1 w2 :
    lang ic r1 w1 -> lang ic r2 w2 -> lang ic (RSeq r1 r2) (w1 ++ w2)
| L_alt_l r1 r2 w : lang ic r1 w -> lang ic (RAlt r1 r2) w
| L_alt_r r1 r2 w : lang ic r2 w -> lang ic (RAlt r1 r2) w
| L_quant_nil r min max greedy : lang ic (RQuant r min max greedy) []
| L_quant_cons r min max greedy w1 w2 :
    lang ic r w1 -> lang ic (RQuant r min max greedy) w2 ->
    lang ic (RQuant r min max greedy) (w1 ++ w2)
| L_group n r w : lang ic r w -> lang ic (RGroup n r) w
| L_start : lang ic RStart []
| L_end : lang ic REnd []
| L_wordb neg : lang ic (RWordB neg) [].

(** *** Parsing pattern text *)

Inductive perror : Type :=
| SyntaxError       (* the pattern is not a regular expression *)
| Unsupported.      (* a construct no pattern of the sources uses: back
                       references, [\c], [\x], [\u] and numeric escapes,
                       look-around and named groups, flags other than g, i *)

Abbreviation PR A := (perror + A)%type.

Definition digitVal (c : ascii) : nat := code c - 48.

Fixpoint digits (s : jstr) (acc : option nat) : option nat * jstr :=
  match s with
  | c :: s' =>
      if isDigit c
      then digits s' (Some (10 * (match acc with Some n => n | None => 0 end) + digitVal c))
      else (acc, s)
  | [] => (acc, s)
  end.

(** The text after an opening brace, when it is [n}], [n,}] or [n,m}]. *)
Definition parseBraces (s : jstr) : option (nat * option nat * jstr) :=
  match digits s None with
  | (Some lo, "}"%char :: r) => Some (lo, Some lo, r)
  | (Some lo, ","%char :: "}"%char :: r) => Some (lo, None, r)
  | (Some lo, ","%char :: r) =>
      match digits r None with
      | (Some hi, "}"%char :: r') => Some (lo, Some hi, r')
      | _ => None
      end
  | _ => None
  end.

Definition parseLazy (s : jstr) : bool * jstr :=
  match s with
  | "?"%char :: s' => (false, s')
  | _ => (true, s)
  end.

(** A quantifier at the head of [s], if there is one: (min, max, greedy). *)
Definition parseQuantifier (s : jstr)
  : PR (option (nat * option nat * bool) * jstr) :=
  let fin (lo : nat) (hi : option nat) (r : jstr)
    : PR (option (nat * option nat * bool) * jstr) :=
    inr (Some (lo, hi, fst (parseLazy r)), snd (parseLazy r)) in
  match s with
  | "*"%char :: r => fin 0 None r
  | "+"%char :: r => fin 1 None r
  | "?"%char :: r => fin 0 (Some 1) r
  | "{"%char :: r =>
      match parseBraces r with
      | Some (lo, Some hi, r') => if hi <? lo then inl SyntaxError else fin lo (Some hi) r'
      | Some (lo, None, r') => fin lo None r'
      | None => inr (None, s)
      end
  | _ => inr (None, s)
  end.

Definition startsQuantifier (s : jstr) : bool :=
  match s with
  | "*"%char :: _ | "+"%char :: _ | "?"%char :: _ => true
  | "{"%char :: r => match parseBraces r with Some _ => true | None => false end
  | _ => false
  end.

Definition quantified (r : regex) (s : jstr) : PR (regex * jstr) :=
  match parseQuantifier s with
  | inl e => inl e
  | inr (Some (lo, hi, greedy), s') => inr (RQuant r lo hi greedy, s')
  | inr (None, s') => inr (r, s')
  end.

Definition assertion (r : regex) (s : jstr) : PR (regex * jstr) :=
  if startsQuantifier s then inl SyntaxError else inr (r, s).

(** The escapes that stand for one code unit, inside and outside classes. *)
Definition controlEscape (c : ascii) : option ascii :=
  match c with
  | "t"%char => Some (ascii_of_nat 9)
  | "n"%char => Some (ascii_of_nat 10)
  | "v"%char => Some (ascii_of_nat 11)
  | "f"%char => Some (ascii_of_nat 12)
  | "r"%char => Some (ascii_of_nat 13)
  | _ => None
  end.

Definition classEscape (c : ascii) : option citem :=
  match c with
  | "d"%char => Some (CDigit false)
  | "D"%char => Some (CDigit true)
  | "s"%char => Some (CSpace false)
  | "S"%char => Some (CSpace true)
  | "w"%char => Some (CWord false)
  | "W"%char => Some (CWord true)
  | _ => None
  end.

Definition unsupportedEscape (c : ascii) : bool :=
  isDigit c || eqc c "c" || eqc c "x" || eqc c "u" || eqc c "k".

(** One atom of a class, after the backslash or as a plain code unit. *)
Definition classAtom (s : jstr) : PR (citem * jstr) :=
  match s with
  | "\"%char :: c :: s' =>
      match classEscape c, controlEscape c with
      | Some it, _ => inr (it, s')
      | None, Some a => inr (CChar a, s')
      | None, None =>
          if unsupportedEscape c then inl Unsupported
          else if eqc c "b" then inr (CChar (ascii_of_nat 8), s')
          else inr (CChar c, s')
      end
  | "\"%char :: [] => inl SyntaxError
  | c :: s' => inr (CChar c, s')
  | [] => inl SyntaxError
  end.

Fixpoint classItems (fuel : nat) (s : jstr) (acc : list citem)
  : PR (list citem * jstr) :=
  match fuel with
  | 0 => inl SyntaxError
  | S fuel' =>
      match s with
      | [] => inl SyntaxError
      | "]"%char :: s' => inr (rev acc, s')
      | _ =>
          match classAtom s with
          | inl e => inl e
          | inr (a, s1) =>
              match s1 with
              | "-"%char :: "]"%char :: _ => classItems fuel' s1 (a :: acc)
              | "-"%char :: s2 =>
                  match classAtom s2 with
                  | inl e => inl e
                  | inr (b, s3) =>
                      match a, b with
                      | CChar lo, CChar hi =>
                          if code hi <? code lo then inl SyntaxError
                          else classItems fuel' s3 (CRange lo hi :: acc)
                      | _, _ => classItems fuel' s3 (b :: CChar "-" :: a :: acc)
                      end
                  end
              | _ => classItems fuel' s1 (a :: acc)
              end
          end
      end
  end.

Definition parseClass (s : jstr) : PR (regex * jstr) :=
  let (neg, s0) := match s with
                   | "^"%char :: s' => (true, s')
                   | _ => (false, s)
                   end in
  match classItems (S (length s0)) s0 [] with
  | inl e => inl e
  | inr (items, s') => inr (RClass neg items, s')
  end.

Definition atomEscape (c : ascii) (s : jstr) : PR (regex * jstr) :=
  match c with
  | "b"%char => assertion (RWordB false) s
  | "B"%char => assertion (RWordB true) s
  | _ =>
      match classEscape c, controlEscape c with
      | Some it, _ => quantified (RClass false [it]) s
      | None, Some a => quantified (RChar a) s
      | None, None =>
          if unsupportedEscape c then inl Unsupported else quantified (RChar c) s
      end
  end.

Fixpoint pDisj (fuel : nat) (s : jstr) (g : nat) {struct fuel}
  : PR (regex * jstr * nat) :=
  match fuel with
  | 0 => inl Unsupported
  | S f =>
      match pAlt f s g with
      | inl e => inl e
      | inr (r1, s1, g1) =>
          match s1 with
          | "|"%char :: s2 =>
              match pDisj f s2 g1 with
              | inl e => inl e
              | inr (r2, s3, g2) => inr (RAlt r1 r2, s3, g2)
              end
          | _ => inr (r1, s1, g1)
          end
      end
  end
with pAlt (fuel : nat) (s : jstr) (g : nat) {struct fuel}
  : PR (regex * jstr * nat) :=
  match fuel with
  | 0 => inl Unsupported
  | S f =>
      match s with
      | [] => inr (REmpty, s, g)
      | "|"%char :: _ => inr (REmpty, s, g)
      | ")"%char :: _ => inr (REmpty, s, g)
      | _ =>
          match pTerm f s g with
          | inl e => inl e
          | inr (r1, s1, g1) =>
              match pAlt f s1 g1 with
              | inl e => inl e
              | inr (r2, s2, g2) => inr (RSeq r1 r2, s2, g2)
              end
          end
      end
  end
with pTerm (fuel : nat) (s : jstr) (g : nat) {struct fuel}
  : PR (regex * jstr * nat) :=
  let ret (x : PR (regex * jstr)) (g' : nat) : PR (regex * jstr * nat) :=
    match x with inl e => inl e | inr (r, s') => inr (r, s', g') end in
  match fuel with
  | 0 => inl Unsupported
  | S f =>
      match s with
      | [] => inl SyntaxError
      | "^"%char :: s' => ret (assertion RStart s') g
      | "$"%char :: s' => ret (assertion REnd s') g
      | "."%char :: s' => ret (quantified RAny s') g
      | "["%char :: s' =>
          match parseClass s' with
          | inl e => inl e
          | inr (r, s1) => ret (quantified r s1) g
          end
      | "\"%char :: c :: s' => ret (atomEscape c s') g
      | "\"%char :: [] => inl SyntaxError
      | "("%char :: "?"%char :: ":"%char :: s' =>
          match pDisj f s' g with
          | inl e => inl e
          | inr (r, ")"%char :: s1, g1) => ret (quantified r s1) g1
          | inr _ => inl SyntaxError
          end
      | "("%char :: "?"%char :: _ => inl Unsupported
      | "("%char :: s' =>
          match pDisj f s' (S g) with
          | inl e => inl e
          | inr (r, ")"%char :: s1, g1) => ret (quantified (RGroup (S g) r) s1) g1
          | inr _ => inl SyntaxError
          end
      | "*"%char :: _ => inl SyntaxError
      | "+"%char :: _ => inl SyntaxError
      | "?"%char :: _ => inl SyntaxError
      | "{"%char :: s' =>
          match parseBraces s' with
          | Some _ => inl SyntaxError
          | None => ret (quantified (RChar "{") s') g
          end
      | c :: s' => ret (quantified (RChar c) s') g
      end
  end.

(** [parsePattern src]: the expression and its number of capture groups. *)
Definition parsePattern (src : jstr) : PR (regex * nat) :=
  match pDisj (3 * length src + 3) src 0 with
  | inl e => inl e
  | inr (r, [], g) => inr (r, g)
  | inr (_, _ :: _, _) => inl SyntaxError
  end.

Fixpoint parseFlags (fl : jstr) (g i : bool) : PR (bool * bool) :=
  match fl with
  | [] => inr (g, i)
  | "g"%char :: fl' => if g then inl SyntaxError else parseFlags fl' true i
  | "i"%char :: fl' => if i then inl SyntaxError else parseFlags fl' g true
  | c :: _ =>
      if existsb (eqc c) ("m" ++ "s" ++ "u" ++ "y" ++ "d") then inl Unsupported
      else inl SyntaxError
  end.

Record RegExpObj : Type := mkRegExp {
  source : jstr;
  flags : jstr;
  ast : regex;
  ngroups : nat;
  global : bool;
  ignoreCase : bool
}.

(** [new RegExp(src, flags)]. *)
Definition newRegExp (src fl : jstr) : PR RegExpObj :=
  match parsePattern src, parseFlags fl false false with
  | inr (r, n), inr (g, i) => inr (mkRegExp src fl r n g i)
  | inl e, _ => inl e
  | _, inl e => inl e
  end.

(** A regular expression literal [/src/flags].  A literal that does not parse
    is rejected when the module is loaded, so the second branch is never
    taken for the literals of the sources. *)
Definition literal (src fl : jstr) : RegExpObj :=
  match newRegExp src fl with
  | inr re => re
  | inl _ => mkRegExp src fl (RClass false []) 0 false false
  end.

(** *** Running an expression

    Results are kept as ranges [start, end) of the input; [range] reads the
    text of one. *)

Definition range (input : jstr) (ab : nat * nat) : jstr :=
  substring input (fst ab) (snd ab).

(** One attempt at position [i], where [s] is the input from [i] on and [pv]
    the code unit before it. *)
Definition matchAt (re : RegExpObj) (s : jstr) (i : nat) (pv : option ascii)
  : option mstate :=
  matcher (ignoreCase re) (ast re) (mkState s i pv noCaps) Some.

(** The first position from [i] on at which the expression matches. *)
Fixpoint searchFrom (re : RegExpObj) (s : jstr) (i : nat) (pv : option ascii)
  : option (nat * mstate) :=
  match matchAt re s i pv with
  | Some y => Some (i, y)
  | None =>
      match s with
      | [] => None
      | a :: s' => searchFrom re s' (S i) (Some a)
      end
  end.

(** [re.exec(input)] from position 0. *)
Definition exec (re : RegExpObj) (input : jstr) : option (nat * mstate) :=
  searchFrom re input 0 None.

(** A match as the array the language returns: element 0 is the matched
    text, element [n] the text of group [n], [None] for a group that took no
    part in the match. *)
Record MatchArray : Type := mkMatch {
  index : nat;
  matched : jstr;
  group : nat -> option jstr
}.

Definition toMatchArray (input : jstr) (m : nat * mstate) : MatchArray :=
  mkMatch (fst m) (range input (fst m, pos (snd m)))
          (fun n => option_map (range input) (caps (snd m) n)).

(** [input.match(re)] for an expression without the [g] flag. *)
Definition matchFirst (re : RegExpObj) (input : jstr) : option MatchArray :=
  option_map (toMatchArray input) (exec re input).

(** The successive matches of an expression with the [g] flag: after a match
    the search resumes at its end, one code unit further when it was empty. *)
Fixpoint matchesFrom (fuel : nat) (re : RegExpObj) (s : jstr) (i : nat)
  (pv : option ascii) : list (nat * mstate) :=
  match fuel with
  | 0 => []
  | S f =>
      match searchFrom re s i pv with
      | None => []
      | Some (st, y) =>
          (st, y) ::
          (if pos y =? st
           then match rest y with
                | [] => []
                | a :: t => matchesFrom f re t (S (pos y)) (Some a)
                end
           else matchesFrom f re (rest y) (pos y) (prev y))
      end
  end.

Definition matchRanges (re : RegExpObj) (input : jstr) : list (nat * nat) :=
  map (fun m => (fst m, pos (snd m)))
      (matchesFrom (length input + 2) re input 0 None).

(** [input.match(re)] for an expression with the [g] flag: the matched texts,
    [None] (null) when there is none. *)
Definition matchAll (re : RegExpObj) (input : jstr) : option (list jstr) :=
  match matchRanges re input with
  | [] => None
  | rs => Some (map (range input) rs)
  end.

(** [input.replace(re, by)] for an expression with the [g] flag and a
    replacement text without [$]. *)
Fixpoint stitch (input : jstr) (rs : list (nat * nat)) (next : nat) (by_ : jstr)
  : jstr :=
  match rs with
  | [] => skipn next input
  | (a, b) :: rs' => substring input next a ++ by_ ++ stitch input rs' b by_
  end.

Definition replaceAll (re : RegExpObj) (input by_ : jstr) : jstr :=
  stitch input (matchRanges re input) 0 by_.

(** [input.split(re)]: [p] is where the current piece starts, [q] the
    position tried next.  A match at [q] that ends at [p] (an empty match at
    the start of a piece) is passed over; any other closes the piece
    [p, q), emits the groups and starts the next piece at its end. *)
Fixpoint splitLoop (fuel : nat) (re : RegExpObj) (s : jstr) (q : nat)
  (pv : option ascii) (p : nat) : list (option (nat * nat)) :=
  match fuel with
  | 0 => []
  | S f =>
      match s with
      | [] => [Some (p, q)]
      | a :: s' =>
          match matchAt re s q pv with
          | None => splitLoop f re s' (S q) (Some a) p
          | Some y =>
              if pos y =? p then splitLoop f re s' (S q) (Some a) p
              else Some (p, q) :: map (caps y) (seq 1 (ngroups re))
                   ++ splitLoop f re (rest y) (pos y) (prev y) (pos y)
          end
      end
  end.

Definition splitRanges (re : RegExpObj) (input : jstr) : list (option (nat * nat)) :=
  match input with
  | [] => match matchAt re [] 0 None with Some _ => [] | None => [Some (0, 0)] end
  | _ :: _ => splitLoop (2 * length input + 2) re input 0 None 0
  end.

(** The array [input.split(re)]; an element is [None] (undefined) for a group
    that took no part in its match. *)
Definition split (re : RegExpObj) (input : jstr) : list (option jstr) :=
  map (option_map (range input)) (splitRanges re input).

(** The same for an expression without groups, whose array holds texts
    only. *)
Definition splitTexts (re : RegExpObj) (input : jstr) : list jstr :=
  map (fun o => match o with Some ab => range input ab | None => [] end)
      (splitRanges re input).

(** [re.toString()]: the source between slashes, a slash outside a class
    written with a backslash before it. *)
Fixpoint escapeSource (s : jstr) (inClass afterBackslash : bool) : jstr :=
  match s with
  | [] => []
  | c :: s' =>
      if afterBackslash then c :: escapeSource s' inClass false
      else if eqc c "\" then c :: escapeSource s' inClass true
      else if eqc c "/" && negb inClass then "\/" ++ escapeSource s' inClass false
      else if eqc c "[" then c :: escapeSource s' true false
      else if eqc c "]" then c :: escapeSource s' false false
      else c :: escapeSource s' inClass false
  end.

Definition toString (re : RegExpObj) : jstr :=
  "/" ++ escapeSource (source re) false false ++ "/" ++ flags re.

End RegExp.

(** ** server/storage.ts: the in-memory store *)

Module Storage.
Import JS.

Record Document : Type := mkDocument {
  doc_id : jstr;
  filename : jstr;
  originalName : jstr;
  chunksCount : nat;
  uploadedAt : nat
}.

Record DocumentChunk : Type := mkChunk {
  chunk_id : jstr;
  documentId : jstr;
  chunkIndex : nat;
  text : jstr;
  embedding : option jstr      (* JSON text of the vector, or null *)
}.

Record Query : Type := mkQuery {
  query_id : jstr;
  query : jstr;
  response : jstr;
  sources : option jstr;
  createdAt : nat
}.

(** A [Map<string, V>]: its entries in insertion order, one per key. *)
Definition Map (V : Type) : Type := list (jstr * V).

(** Every key of a map has one entry. *)
Definition uniqueKeys {V} (m : Map V) : Prop := NoDup (map fst m).

Definition mapGet {V} (m : Map V) (k : jstr) : option V :=
  option_map snd (find (fun kv => streq (fst kv) k) m).

Definition mapDelete {V} (m : Map V) (k : jstr) : Map V :=
  filter (fun kv => negb (streq (fst kv) k)) m.

Definition mapEntries {V} (m : Map V) : list (jstr * V) := m.

Definition mapValues {V} (m : Map V) : list V := map snd m.

Record MemStorage : Type := mkStorage {
  documents : Map Document;
  documentChunks : Map DocumentChunk;
  queries : Map Query
}.

Definition getDocument (st : MemStorage) (id : jstr) : option Document :=
  mapGet (documents st) id.

Definition getAllChunks (st : MemStorage) : list DocumentChunk :=
  mapValues (documentChunks st).

(** [deleteDocumentChunks]: the loop runs over a copy of the entries and
    deletes, by key, every entry whose chunk belongs to the document. *)
Definition deleteDocumentChunks (st : MemStorage) (docId : jstr) : MemStorage :=
  mkStorage (documents st)
    (fold_left
       (fun m (e : jstr * DocumentChunk) =>
          if streq (documentId (snd e)) docId then mapDelete m (fst e) else m)
       (mapEntries (documentChunks st)) (documentChunks st))
    (queries st).

Definition deleteDocument (st : MemStorage) (id : jstr) : MemStorage :=
  deleteDocumentChunks
    (mkStorage (mapDelete (documents st) id) (documentChunks st) (queries st)) id.

End Storage.

(** ** The process state around a call

    What a function of the server can reach besides its arguments: the
    store and the console.  Functions that log or may throw are written in
    the monad [M]. *)

Module Run.

Record World : Type := mkWorld {
  storage : Storage.MemStorage;
  console : list jstr
}.

Inductive jserror : Type :=
| TypeError
| RegExpError (e : RegExp.perror).

Inductive result (A : Type) : Type :=
| Ok (a : A)
| Throw (e : jserror).
Arguments Ok {A} a.
Arguments Throw {A} e.

Definition M (A : Type) : Type := World -> result A * World.

Definition ret {A} (a : A) : M A := fun w => (Ok a, w).

Definition throw {A} (e : jserror) : M A := fun w => (Throw e, w).

Definition bind {A B} (m : M A) (f : A -> M B) : M B :=
  fun w => match m w with
           | (Ok a, w') => f a w'
           | (Throw e, w') => (Throw e, w')
           end.

(** [console.log(msg)]. *)
Definition log (msg : jstr) : M unit :=
  fun w => (Ok tt, mkWorld (storage w) (console w ++ [msg])).

Definition answer {A} (m : M A) (w : World) : result A := fst (m w).

(** A computation that reads nothing of the world: its result and the lines
    it logs are fixed before the world is known, and it leaves the store as
    it found it. *)
Definition oblivious {A} (m : M A) : Prop :=
  exists (r : result A) (lines : list jstr),
    forall w, m w = (r, mkWorld (storage w) (console w ++ lines)).

End Run.

Declare Scope js_scope.
Delimit Scope js_scope with js.
Notation "x <- m ;; k" := (Run.bind m (fun x => k))
  (at level 61, m at next level, right associativity) : js_scope.
Notation "m ;;; k" := (Run.bind m (fun _ => k))
  (at level 61, right associativity) : js_scope.

(** ** server/routes.ts: extractInformationFromContext *)

Module Extractor.
Import JS Run.
Local Open Scope js_scope.

(** The value held by the variable [subject]: a string, except when the
    lookup in the [techTerms] object finds a member inherited from
    [Object.prototype] (keys [constructor] and [__proto__]); [VObj] carries
    the text such a value prints as. *)
Inductive value : Type :=
| VStr (s : jstr)
| VObj (shown : jstr).

Definition show (v : value) : jstr :=
  match v with VStr s => s | VObj s => s end.

Definition truthy (v : value) : bool :=
  match v with VStr s => negb (isEmpty s) | VObj _ => true end.

Definition ofBool (b : bool) : jstr := if b then "true" else "false".

Definition quoted (s : jstr) : jstr := dquote ++ s ++ dquote.

(** [match ? match[1].trim() : ''] for the three subject patterns, whose
    group 1 takes part in every match. *)
Definition subjectAfter (re : RegExp.RegExpObj) (query : jstr) : jstr :=
  match RegExp.matchFirst re query with
  | Some m => match RegExp.group m 1 with
              | Some g => trim g
              | None => []
              end
  | None => []
  end.

Definition commonTechTerms : list jstr :=
  ["javascript" : jstr; "html" : jstr; "css" : jstr; "react" : jstr;
   "node" : jstr; "python" : jstr; "java" : jstr; "sql" : jstr].

Definition techTerms : list (jstr * jstr) :=
  [("html" : jstr, "HTML" : jstr); ("htm" : jstr, "HTML" : jstr);
   ("html" : jstr, "HTML" : jstr); ("javascript" : jstr, "JavaScript" : jstr);
   ("js" : jstr, "JavaScript" : jstr); ("css" : jstr, "CSS" : jstr);
   ("react" : jstr, "React" : jstr); ("node" : jstr, "Node.js" : jstr);
   ("python" : jstr, "Python" : jstr); ("java" : jstr, "Java" : jstr)].

(** [techTerms[key]]: an own property, else what the object inherits. *)
Definition lookupTechTerm (key : jstr) : option value :=
  match find (fun kv => streq (fst kv) key) techTerms with
  | Some kv => Some (VStr (snd kv))
  | None =>
      if streq key "constructor" then Some (VObj "function Object() { [native code] }")
      else if streq key "__proto__" then Some (VObj "[object Object]")
      else None
  end.

(** The loop over [commonTechTerms] of the "explain it" case. *)
Fixpoint resolvePronoun (context : jstr) (terms : list jstr) (subject : jstr)
  : M jstr :=
  match terms with
  | [] => ret subject
  | term :: terms' =>
      if includes (toLowerCase context) term
      then log ("Assuming " ++ quoted "it" ++ " refers to: " ++ term) ;;; ret term
      else resolvePronoun context terms' subject
  end.

(** Lines 131-183: the subject of the query. *)
Definition extractSubject (context query lowerQuery : jstr) : M value :=
  if includes lowerQuery "what is" then
    ret (VStr (subjectAfter (RegExp.literal "what is\s+([^?]+)" "i") query))
  else if includes lowerQuery "define" then
    ret (VStr (subjectAfter (RegExp.literal "define\s+([^?]+)" "i") query))
  else if includes lowerQuery "explain" then
    let subject := subjectAfter (RegExp.literal "explain\s+([^?]+)" "i") query in
    subject <-
      (if streq subject "it more" || streq subject "it"
       then log ("Detected " ++ quoted "explain it" ++ " - looking for recent topics...") ;;;
            resolvePronoun context commonTechTerms subject
       else ret subject) ;;
    (if negb (isEmpty subject) && negb (streq (toLowerCase subject) "it")
        && negb (streq (toLowerCase subject) "it more")
     then log ("Specific subject detected: " ++ quoted subject
               ++ " - skipping pronoun resolution")
     else ret tt) ;;;
    if negb (isEmpty subject) then
      match lookupTechTerm (toLowerCase subject) with
      | Some normalizedSubject =>
          log ("Normalized " ++ quoted subject ++ " to "
               ++ quoted (show normalizedSubject)) ;;;
          ret normalizedSubject
      | None => ret (VStr subject)
      end
    else ret (VStr subject)
  else ret (VStr []).

Definition notFoundMessage (subject : jstr) : jstr :=
  "Information about " ++ quoted subject ++ " not found in the document.".

Definition noDefinitionMessage (subject : jstr) : jstr :=
  "Information about " ++ quoted subject
  ++ " is mentioned in the document but no definition or explanation is available.".

(** The texts of the seven [new RegExp(..., 'i')] of lines 200-215. *)
Definition definitionPatternSources (subject subjectLower : jstr) : list jstr :=
  [ "what is " ++ subjectLower ++ "\?[^:]*answer[^:]*([^.]{30,800})";
    "what is " ++ subjectLower ++ "\?[^:]*([^.]{30,800})";
    subject ++ "\s+is\s+([^.]{30,800})";
    subject ++ "\s+means\s+([^.]{30,800})";
    subject ++ "\s+refers to\s+([^.]{30,800})";
    subject ++ "[^.]*?([^.]{50,1000})";
    subject ++ "\s+([^.]{30,800})" ].

Fixpoint compileAll (srcs : list jstr) : M (list RegExp.RegExpObj) :=
  match srcs with
  | [] => ret []
  | src :: srcs' =>
      match RegExp.newRegExp src "i" with
      | inl e => throw (RegExpError e)
      | inr re => res <- compileAll srcs' ;; ret (re :: res)
      end
  end.

Definition definitionKeywords : list jstr :=
  ["is" : jstr; "means" : jstr; "refers to" : jstr; "defined as" : jstr;
   "a type of" : jstr; "a form of" : jstr; "used for" : jstr; "purpose" : jstr;
   "function" : jstr; "language" : jstr; "framework" : jstr; "library" : jstr;
   "technology" : jstr; "tool" : jstr].

(** The body of the loop of lines 217-258 for pattern number [i] (from 0):
    [Some result] when it returns, [None] when the loop goes on. *)
Definition tryDefinitionPattern (context lowerQuery subjectLower : jstr)
  (i : nat) (pattern : RegExp.RegExpObj) : M (option jstr) :=
  let match_ := RegExp.matchFirst pattern context in
  log ("Definition pattern " ++ ofNat (i + 1) ++ ": " ++ RegExp.toString pattern
       ++ " - Match: "
       ++ match match_ with
          | Some m => match RegExp.group m 1 with Some g => g | None => "undefined" end
          | None => "No match"
          end) ;;;
  match match_ with
  | None => ret None
  | Some m =>
      match RegExp.group m 1 with
      | None => throw TypeError
      | Some g =>
          if 20 <? length (trim g) then
            let result := trim g in
            log ("Pattern " ++ ofNat (i + 1) ++ " result: " ++ quoted result) ;;;
            let hasDefinitionKeywords :=
              existsb (fun keyword => includes (toLowerCase result) keyword)
                      definitionKeywords in
            let containsSubject := includes (toLowerCase result) subjectLower in
            let startsWithSubject := startsWith (toLowerCase result) subjectLower in
            let isAboutSubject :=
              includes (toLowerCase result) (subjectLower ++ " ")
              || includes (toLowerCase result) (" " ++ subjectLower) in
            log ("Validation: hasDefinitionKeywords=" ++ ofBool hasDefinitionKeywords
                 ++ ", containsSubject=" ++ ofBool containsSubject
                 ++ ", startsWithSubject=" ++ ofBool startsWithSubject
                 ++ ", isAboutSubject=" ++ ofBool isAboutSubject) ;;;
            let isDetailedExplanation :=
              includes lowerQuery "detail" || includes lowerQuery "more"
              || includes lowerQuery "explain" in
            if (hasDefinitionKeywords || (i <? 3))
               && (containsSubject && (startsWithSubject || isAboutSubject))
            then log ("Found valid definition: " ++ result) ;;; ret (Some result)
            else if isDetailedExplanation && (50 <? length result) && containsSubject
                    && (startsWithSubject || isAboutSubject)
            then log ("Found detailed explanation: " ++ result) ;;; ret (Some result)
            else log ("Pattern " ++ ofNat (i + 1)
                      ++ " rejected - not clearly about subject") ;;;
                 ret None
          else ret None
      end
  end.

Fixpoint definitionLoop (context lowerQuery subjectLower : jstr) (i : nat)
  (patterns : list RegExp.RegExpObj) : M (option jstr) :=
  match patterns with
  | [] => ret None
  | pattern :: patterns' =>
      r <- tryDefinitionPattern context lowerQuery subjectLower i pattern ;;
      match r with
      | Some result => ret (Some result)
      | None => definitionLoop context lowerQuery subjectLower (S i) patterns'
      end
  end.

Definition isRelevantSentence (subjectLower sentence : jstr) : bool :=
  let lowerSentence := toLowerCase sentence in
  includes lowerSentence subjectLower
  && (30 <? length (trim sentence))
  && (includes lowerSentence "is " || includes lowerSentence "means "
      || includes lowerSentence "refers to " || includes lowerSentence "defined as ").

(** Lines 260-292: the sentence-level search after the pattern loop. *)
Definition sentenceSearch (context lowerQuery subject subjectLower : jstr) : M jstr :=
  log ("Subject " ++ quoted subject
       ++ " found but no definition available, looking for relevant content...") ;;;
  let sentences := RegExp.splitTexts (RegExp.literal "[.!?]+" "") context in
  let relevantSentences := filter (isRelevantSentence subjectLower) sentences in
  let giveUp :=
    log ("No valid content found for subject " ++ quoted subject) ;;;
    ret (noDefinitionMessage subject) in
  match relevantSentences with
  | [] => giveUp
  | first :: _ =>
      log ("Found " ++ ofNat (length relevantSentences) ++ " relevant sentences") ;;;
      let single :=
        let result := trim first in
        if includes (toLowerCase result) subjectLower then ret result else giveUp in
      if includes lowerQuery "detail" || includes lowerQuery "more" then
        let result := trim (join " " (firstn 3 relevantSentences)) in
        if includes (toLowerCase result) subjectLower then ret result else single
      else single
  end.

(** Lines 185-293: the branch taken when [subject] is truthy. *)
Definition definitionBranch (context lowerQuery : jstr) (subject : value) : M jstr :=
  log ("Looking for definition of: " ++ quoted (show subject)) ;;;
  match subject with
  | VObj _ => throw TypeError            (* subject.toLowerCase is not a function *)
  | VStr subject =>
      log ("Subject lower: " ++ quoted (toLowerCase subject)) ;;;
      let subjectLower := toLowerCase subject in
      let contextLower := toLowerCase context in
      if negb (includes contextLower subjectLower) then
        log ("Subject " ++ quoted subject ++ " not found in context at all") ;;;
        ret (notFoundMessage subject)
      else
        log ("Subject " ++ quoted subject
             ++ " found in context, looking for definitions...") ;;;
        definitionPatterns <- compileAll (definitionPatternSources subject subjectLower) ;;
        r <- definitionLoop context lowerQuery subjectLower 0 definitionPatterns ;;
        match r with
        | Some result => ret result
        | None => sentenceSearch context lowerQuery subject subjectLower
        end
  end.

(** Lines 296-320: the project listing. *)
Definition projectPatterns : list RegExp.RegExpObj :=
  [ RegExp.literal "([A-Z][a-z\s]+(?:Manager|Detector|System|App|Application|Tool|Platform))" "g";
    RegExp.literal "([A-Z][a-z\s]+)\|" "g" ].

Definition projectsOf (context : jstr) (pattern : RegExp.RegExpObj) : list jstr :=
  match RegExp.matchAll pattern context with
  | Some matches => filter (fun m => 3 <? length m) (map trim matches)
  | None => []
  end.

Definition projects (context : jstr) : list jstr :=
  flat_map (projectsOf context) projectPatterns.

Definition noProjectsMessage : jstr := "No projects found in the document.".

Definition projectListing (context : jstr) : M jstr :=
  log "Looking for projects..." ;;;
  let projects := projects context in
  if 0 <? length projects then
    log ("Found projects: " ++ join ", " projects) ;;;
    ret (join ", " (firstn 3 projects))
  else
    log "No projects found" ;;;
    ret noProjectsMessage.

(** Lines 323-342. *)
Definition nameBranch (context : jstr) : M jstr :=
  log "Looking for name..." ;;;
  match RegExp.matchFirst (RegExp.literal "([A-Z][a-z]+ [A-Z][a-z]+)" "") context with
  | Some nameMatch =>
      match RegExp.group nameMatch 1 with
      | Some g => log ("Found name: " ++ g) ;;; ret g
      | None => throw TypeError
      end
  | None =>
      match RegExp.matchFirst (RegExp.literal "Shreyas Chougule" "") context with
      | Some docNameMatch =>
          log ("Found name from document: " ++ RegExp.matched docNameMatch) ;;;
          ret (RegExp.matched docNameMatch)
      | None => log "No name found" ;;; ret ("Name not found" : jstr)
      end
  end.

(** Lines 345-373. *)
Definition collegePatterns : list RegExp.RegExpObj :=
  [ RegExp.literal "([A-Z][a-z\s]+(?:University|College|Institute|School))" "i";
    RegExp.literal "Education[^.]*([A-Z][a-z\s]+(?:University|College|Institute|School))" "i";
    RegExp.literal "Bachelor[^.]*([A-Z][a-z\s]+(?:University|College|Institute|School))" "i";
    RegExp.literal "Degree[^.]*([A-Z][a-z\s]+(?:University|College|Institute|School))" "i";
    RegExp.literal "([A-Z][a-z\s]+(?:University|College|Institute|School))[^.]*Bachelor" "i";
    RegExp.literal "([A-Z][a-z\s]+(?:University|College|Institute|School))[^.]*Degree" "i";
    RegExp.literal "([A-Z][a-z\s]+(?:University|College|Institute|School))[^.]*Education" "i" ].

Fixpoint collegeLoop (context : jstr) (i : nat) (patterns : list RegExp.RegExpObj)
  : M (option jstr) :=
  match patterns with
  | [] => ret None
  | pattern :: patterns' =>
      let match_ := RegExp.matchFirst pattern context in
      log ("College pattern " ++ ofNat (i + 1) ++ ": " ++ RegExp.toString pattern
           ++ " - Match: "
           ++ match match_ with
              | Some m => match RegExp.group m 1 with Some g => g | None => "undefined" end
              | None => "No match"
              end) ;;;
      match match_ with
      | Some m =>
          match RegExp.group m 1 with
          | Some g => log ("Found college: " ++ trim g) ;;; ret (Some (trim g))
          | None => throw TypeError
          end
      | None => collegeLoop context (S i) patterns'
      end
  end.

Definition collegeBranch (context : jstr) : M jstr :=
  log "Looking for college..." ;;;
  log ("Context for college search: " ++ substring context 0 500) ;;;
  r <- collegeLoop context 0 collegePatterns ;;
  match r with
  | Some college => ret college
  | None =>
      log "No college pattern found, returning context snippet" ;;;
      ret (trim (substring context 0 300))
  end.

(** The loops of lines 384-389 and 470-475: the first pattern that matches
    gives [match[1].trim()]. *)
Fixpoint firstGroup (context : jstr) (patterns : list RegExp.RegExpObj)
  : M (option jstr) :=
  match patterns with
  | [] => ret None
  | pattern :: patterns' =>
      match RegExp.matchFirst pattern context with
      | Some m =>
          match RegExp.group m 1 with
          | Some g => ret (Some (trim g))
          | None => throw TypeError
          end
      | None => firstGroup context patterns'
      end
  end.

Definition companyPatterns : list RegExp.RegExpObj :=
  [ RegExp.literal "([A-Z][a-z\s]+(?:Technology|Corp|Corporation|Inc|LLC|Ltd))" "i";
    RegExp.literal "Work Experience[^.]*([A-Z][a-z\s]+(?:Technology|Corp|Corporation|Inc|LLC|Ltd))" "i";
    RegExp.literal "Intern[^.]*([A-Z][a-z\s]+(?:Technology|Corp|Corporation|Inc|LLC|Ltd))" "i";
    RegExp.literal "Software Development[^.]*([A-Z][a-z\s]+(?:Technology|Corp|Corporation|Inc|LLC|Ltd))" "i" ].

Definition datePatterns : list RegExp.RegExpObj :=
  [ RegExp.literal "(Jan|Feb|Mar|Apr|May|Jun|Jul|Aug|Sep|Oct|Nov|Dec)\s+\d{4}" "";
    RegExp.literal "\d{4}\s*-\s*\d{4}" "";
    RegExp.literal "\d{1,2}\/\d{1,2}\/\d{4}" "";
    RegExp.literal "\d{4}-\d{2}-\d{2}" "" ].

(** The loop of lines 401-406: the first pattern that matches gives
    [match[0]]. *)
Fixpoint firstMatched (context : jstr) (patterns : list RegExp.RegExpObj)
  : option jstr :=
  match patterns with
  | [] => None
  | pattern :: patterns' =>
      match RegExp.matchFirst pattern context with
      | Some m => Some (RegExp.matched m)
      | None => firstMatched context patterns'
      end
  end.

Definition skillPatterns : list RegExp.RegExpObj :=
  [ RegExp.literal "Skills[:\s]*([^.]+)" "i";
    RegExp.literal "Technical Skills[:\s]*([^.]+)" "i";
    RegExp.literal "Programming Languages[:\s]*([^.]+)" "i";
    RegExp.literal "Technologies[:\s]*([^.]+)" "i" ].

Definition projectName : RegExp.RegExpObj :=
  RegExp.literal "([A-Z][a-z\s]+(?:Manager|Detector|System|App|Application|Tool|Platform))" "".

Definition groupOr (m : RegExp.MatchArray) (n : nat) : jstr :=
  match RegExp.group m n with Some g => g | None => "undefined" end.

(** Lines 410-459: the second project branch.  [Some] when it returns. *)
Definition projectDescription (context lowerQuery : jstr) : M (option jstr) :=
  log "Looking for projects..." ;;;
  log ("Context for project search: " ++ substring context 0 500) ;;;
  let snippet :=
    log "No projects found, returning context snippet" ;;;
    ret (Some (trim (substring context 0 300))) in
  let nameOnly :=
    match RegExp.matchFirst projectName context with
    | Some projectMatch =>
        log ("Found project: " ++ groupOr projectMatch 1) ;;;
        ret (Some (groupOr projectMatch 1))
    | None => snippet
    end in
  if includes lowerQuery "explain" || includes lowerQuery "describe" then
    log "Looking for project description..." ;;;
    let general :=
      match RegExp.matchFirst
              (RegExp.literal "([A-Z][a-z\s]+(?:Manager|Detector|System|App|Application|Tool|Platform))[^.]*?([^.]{50,200})" "")
              context with
      | Some descriptionMatch =>
          log ("Found project description: " ++ groupOr descriptionMatch 1
               ++ " - " ++ groupOr descriptionMatch 2) ;;;
          match RegExp.group descriptionMatch 2 with
          | Some g2 => ret (Some (groupOr descriptionMatch 1 ++ ": " ++ trim g2))
          | None => throw TypeError
          end
      | None => nameOnly
      end in
    let tournament :=
      if includes lowerQuery "tournament" || includes lowerQuery "manager" then
        match RegExp.matchFirst
                (RegExp.literal "(Tournament Manager[^.]*?([^.]{50,300}))" "i") context with
        | Some tournamentMatch =>
            log ("Found Tournament Manager description: " ++ groupOr tournamentMatch 1) ;;;
            ret (Some (groupOr tournamentMatch 1))
        | None => general
        end
      else general in
    if includes lowerQuery "accident" then
      match RegExp.matchFirst
              (RegExp.literal "(Accident Detector[^.]*?([^.]{50,300}))" "i") context with
      | Some accidentMatch =>
          log ("Found Accident Detector description: " ++ groupOr accidentMatch 1) ;;;
          ret (Some (groupOr accidentMatch 1))
      | None => tournament
      end
    else tournament
  else nameOnly.

(** Lines 478-513: the sentence with the most query words, else a snippet. *)
Definition sentenceScore (lowerQuery sentence : jstr) : nat :=
  let lowerSentence := toLowerCase sentence in
  let queryWords :=
    filter (fun word => 2 <? length word)
           (RegExp.splitTexts (RegExp.literal "\s+" "") lowerQuery) in
  fold_left (fun score word => if includes lowerSentence word then score + 1 else score)
            queryWords 0.

Fixpoint bestSentence (lowerQuery : jstr) (sentences : list jstr)
  (bestMatch : jstr) (bestScore : nat) : jstr * nat :=
  match sentences with
  | [] => (bestMatch, bestScore)
  | sentence :: sentences' =>
      if 20 <? length (trim sentence) then
        let score := sentenceScore lowerQuery sentence in
        if bestScore <? score
        then bestSentence lowerQuery sentences' (trim sentence) score
        else bestSentence lowerQuery sentences' bestMatch bestScore
      else bestSentence lowerQuery sentences' bestMatch bestScore
  end.

Definition informationNotFound : jstr := "Information not found in the document.".

Definition genericFallback (context lowerQuery : jstr) : M jstr :=
  log "No specific pattern found, looking for most relevant context..." ;;;
  let sentences := RegExp.splitTexts (RegExp.literal "[.!?]+" "") context in
  let (bestMatch, bestScore) := bestSentence lowerQuery sentences [] 0 in
  if negb (isEmpty bestMatch) then
    log ("Found best match with score " ++ ofNat bestScore ++ ": " ++ bestMatch) ;;;
    ret bestMatch
  else
    let contextSnippet := trim (substring context 0 300) in
    ret (if isEmpty contextSnippet then informationNotFound else contextSnippet).

(** A branch that may fall through to the rest of the function. *)
Definition orFallThrough (guard : bool) (branch : M (option jstr)) (next : M jstr)
  : M jstr :=
  if guard then
    r <- branch ;;
    match r with
    | Some a => ret a
    | None => next
    end
  else next.

Definition extractInformationFromContext (context query : jstr) : M jstr :=
  let lowerQuery := toLowerCase query in
  log (newline ++ "=== PRECISE EXTRACTION ===") ;;;
  log ("Query: " ++ quoted query) ;;;
  log ("Context length: " ++ ofNat (length context)) ;;;
  subject <- extractSubject context query lowerQuery ;;
  if truthy subject then definitionBranch context lowerQuery subject
  else if includes lowerQuery "project" then projectListing context
  else if includes lowerQuery "name"
          && (includes lowerQuery "candidate" || includes lowerQuery "person")
  then nameBranch context
  else if includes lowerQuery "college" || includes lowerQuery "university"
          || includes lowerQuery "institute"
  then collegeBranch context
  else
    orFallThrough
      (includes lowerQuery "company" || includes lowerQuery "employer"
       || includes lowerQuery "work")
      (firstGroup context companyPatterns)
    (orFallThrough
      (includes lowerQuery "date" || includes lowerQuery "when"
       || includes lowerQuery "time")
      (ret (firstMatched context datePatterns))
    (orFallThrough (includes lowerQuery "project")
      (projectDescription context lowerQuery)
    (orFallThrough
      (includes lowerQuery "skill" || includes lowerQuery "technology"
       || includes lowerQuery "programming")
      (firstGroup context skillPatterns)
    (genericFallback context lowerQuery)))).

End Extractor.

(** ** server/services/pdfService.ts: the chunker *)

Module PDFService.
Import JS.

Definition nonBlank (s : jstr) : bool := 0 <? length (trim s).

(** [splitSectionIntoChunks]: one run of the [while] loop per unit of
    [fuel]; [None] when the loop has not finished within it.  The test
    [breakPoint > start + chunkSize * 0.6] is computed exactly, as
    [5 * (breakPoint - start) > 3 * chunkSize]; for the chunk size the server
    uses, 1000, the double [1000 * 0.6] is exactly 600. *)
Fixpoint sectionLoop (fuel : nat) (section : jstr) (chunkSize overlap : nat)
  (start : Z) : option (list jstr) :=
  let len := Z.of_nat (length section) in
  if (start <? len)%Z then
    match fuel with
    | 0 => None
    | S fuel' =>
        let end_ := Z.min (start + Z.of_nat chunkSize) len in
        let chunk := slice section start end_ in
        let breakPoint :=
          Z.max (Z.max (lastIndexOf chunk ".") (lastIndexOf chunk (ascii_of_nat 10)))
                (lastIndexOf chunk ",") in
        let broken := (3 * Z.of_nat chunkSize <? 5 * (breakPoint - start))%Z in
        let chunk' :=
          if (end_ <? len)%Z && broken then slice section start (breakPoint + 1)
          else chunk in
        let start' :=
          if (end_ <? len)%Z
          then if broken then (breakPoint + 1 - Z.of_nat overlap)%Z
               else (end_ - Z.of_nat overlap)%Z
          else end_ in
        match sectionLoop fuel' section chunkSize overlap start' with
        | None => None
        | Some chunks =>
            Some (if nonBlank chunk' then trim chunk' :: chunks else chunks)
        end
    end
  else Some [].

Definition splitSectionIntoChunks (section : jstr) (chunkSize overlap : nat)
  : option (list jstr) :=
  sectionLoop (S (length section)) section chunkSize overlap 0.

Definition educationalKeywords : list jstr :=
  ["Q:" : jstr; "Question:" : jstr; "Answer:" : jstr; "Interview" : jstr;
   "Guide" : jstr; "Preparation" : jstr; "JavaScript" : jstr; "React" : jstr;
   "Node" : jstr].

Definition isEducationalDocument (text : jstr) : bool :=
  existsb (fun keyword => includes text keyword) educationalKeywords.

Definition sectionHeaders : list jstr :=
  ["Education" : jstr; "Experience" : jstr; "Work Experience" : jstr;
   "Professional Experience" : jstr; "Skills" : jstr; "Technical Skills" : jstr;
   "Projects" : jstr; "Personal Projects" : jstr; "Contact" : jstr;
   "Contact Information" : jstr; "About" : jstr; "Summary" : jstr;
   "Objective" : jstr; "Certifications" : jstr; "Languages" : jstr;
   "Interests" : jstr; "Hobbies" : jstr].

(** The state of the loop over the section headers. *)
Record sectionState : Type := mkSections {
  sections : list jstr;
  currentSection : jstr;
  lastIndex : nat
}.

Definition pushNonBlank (l : list jstr) (s : jstr) : list jstr :=
  if nonBlank s then l ++ [trim s] else l.

Definition headerStep (text : jstr) (st : sectionState) (header : jstr)
  : sectionState :=
  match RegExp.matchAll (RegExp.literal ("\b" ++ header ++ "\b") "gi") text with
  | Some (first :: _) =>
      let headerIndex := indexOf text first (lastIndex st) in
      if (Z.of_nat (lastIndex st) <? headerIndex)%Z then
        mkSections (pushNonBlank (sections st) (currentSection st))
                   (slice text (Z.of_nat (lastIndex st)) headerIndex)
                   (Z.to_nat headerIndex)
      else st
  | _ => st
  end.

Definition splitIntoSections (text : jstr) : list jstr :=
  let st := fold_left (headerStep text) sectionHeaders (mkSections [] [] 0) in
  let currentSection :=
    if lastIndex st <? length text
    then currentSection st ++ sliceFrom text (Z.of_nat (lastIndex st))
    else currentSection st in
  let sections := pushNonBlank (sections st) currentSection in
  if length sections =? 1 then
    filter nonBlank (RegExp.splitTexts (RegExp.literal "\n\s*\n" "") text)
  else sections.

Definition qaPatterns : list RegExp.RegExpObj :=
  [ RegExp.literal "(Q\d+:|Question\s*\d*:|Q\s*\d*:)" "gi";
    RegExp.literal "(What is|What are|Define|Explain)\s+[^?]+\?" "gi" ].

Definition trimOpt (o : option jstr) : jstr :=
  match o with Some s => trim s | None => [] end.

(** The inner loop of [splitEducationalContent]: the pieces of the split,
    two by two. *)
Fixpoint qaChunks (pieces : list (option jstr)) (chunkSize overlap : nat)
  : option (list jstr) :=
  match pieces with
  | q :: a :: pieces' =>
      let question := trimOpt q in
      let answer := trimOpt a in
      match qaChunks pieces' chunkSize overlap with
      | None => None
      | Some chunks =>
          if negb (isEmpty question) && negb (isEmpty answer) then
            let qaPair := question ++ newline ++ answer in
            if length qaPair <=? chunkSize then Some (qaPair :: chunks)
            else match splitSectionIntoChunks qaPair chunkSize overlap with
                 | Some qa => Some (qa ++ chunks)
                 | None => None
                 end
          else Some chunks
      end
  | _ => Some []
  end.

Fixpoint qaLoop (text : jstr) (chunkSize overlap : nat)
  (patterns : list RegExp.RegExpObj) : option (list jstr) :=
  match patterns with
  | [] => Some []
  | pattern :: patterns' =>
      match qaChunks (RegExp.split pattern text) chunkSize overlap with
      | None => None
      | Some [] => qaLoop text chunkSize overlap patterns'
      | Some chunks => Some chunks
      end
  end.

Definition splitEducationalContent (text : jstr) (chunkSize overlap : nat)
  : option (list jstr) :=
  match qaLoop text chunkSize overlap qaPatterns with
  | None => None
  | Some [] => splitSectionIntoChunks text chunkSize overlap
  | Some chunks => Some (filter nonBlank chunks)
  end.

Definition cleanText (text : jstr) : jstr :=
  trim (RegExp.replaceAll (RegExp.literal "\n\s*\n" "g")
          (RegExp.replaceAll (RegExp.literal "\s+" "g") text " ") newline).

(** The loop over the sections of [splitTextIntoChunks]. *)
Fixpoint sectionChunks (sections : list jstr) (chunkSize overlap : nat)
  : option (list jstr) :=
  match sections with
  | [] => Some []
  | section :: sections' =>
      match (if length section <=? chunkSize then Some [trim section]
             else splitSectionIntoChunks section chunkSize overlap),
            sectionChunks sections' chunkSize overlap with
      | Some here, Some chunks => Some (here ++ chunks)
      | _, _ => None
      end
  end.

Definition splitTextIntoChunks (text : jstr) (chunkSize overlap : nat)
  : option (list jstr) :=
  let cleanedText := cleanText text in
  if isEducationalDocument cleanedText
  then splitEducationalContent cleanedText chunkSize overlap
  else option_map (filter nonBlank)
         (sectionChunks (splitIntoSections cleanedText) chunkSize overlap).

(** [PDFService.splitTextIntoChunks(text)] as the upload route calls it,
    with the default chunk size and overlap. *)
Definition chunk (text : jstr) : option (list jstr) :=
  splitTextIntoChunks text 1000 200.

End PDFService.

(** ** server/services/embeddingService.ts *)

Module EmbeddingService.
Import JS.
Local Open Scope R_scope.

Definition dimension : nat := 256.

(** [ToInt32]: what [<<] and [&] make of their operands and results. *)
Definition toInt32 (z : Z) : Z := ((z + 2 ^ 31) mod 2 ^ 32 - 2 ^ 31)%Z.

(** [hash = ((hash << 5) - hash + word.charCodeAt(i)) & 0xffffffff]; the
    mask [0xffffffff] is -1 as a 32-bit integer, so [&] only converts. *)
Definition hashStep (hash : Z) (c : ascii) : Z :=
  toInt32 (toInt32 (hash * 32) - hash + Z.of_nat (code c)).

Definition wordHash (word : jstr) : Z := fold_left hashStep word 0%Z.

(** [Math.abs(hash).toString()]. *)
Definition absToString (hash : Z) : jstr :=
  lit (NilEmpty.string_of_uint (N.to_uint (Z.to_N (Z.abs hash)))).

(** [parseInt(s)] of a decimal numeral; [None] stands for NaN. *)
Definition parseInt (s : jstr) : option N :=
  option_map N.of_uint (NilEmpty.uint_of_string (string_of_list_ascii s)).

(** [Set.add]: insertion order, no duplicates. *)
Definition setAdd (set : list jstr) (x : jstr) : list jstr :=
  if existsb (streq x) set then set else set ++ [x].

(** [vector[idx] += x] for an index inside the array. *)
Fixpoint addAt (idx : nat) (x : R) (vector : list R) : list R :=
  match vector, idx with
  | [], _ => []
  | v :: vector', O => (v + x) :: vector'
  | v :: vector', S idx' => v :: addAt idx' x vector'
  end.

Definition wordFeature (vector : list R) (wordHash : jstr) : list R :=
  match parseInt wordHash with
  | Some n => addAt (N.to_nat (n mod 256)) 1 vector
  | None => vector
  end.

Fixpoint charFeatures (limited : jstr) (i : nat) (vector : list R) : list R :=
  match limited with
  | [] => vector
  | c :: limited' =>
      charFeatures limited' (S i)
        (addAt ((code c + i) mod dimension) (INR (code c mod 31 + 1) / 32) vector)
  end.

(** The sum of the components. *)
Fixpoint total (v : list R) : R :=
  match v with
  | [] => 0
  | x :: v' => x + total v'
  end.

Definition sumSquares (vector : list R) : R :=
  fold_left (fun s v => s + v * v) vector 0.

(** [x || 1] for a number that is not NaN. *)
Definition orOne (x : R) : R := if Req_EM_T x 0 then 1 else x.

(** Lines 12-42 (and again 58-86): the vector before it is normalised. *)
Definition accumulated (text : jstr) : list R :=
  let vector := repeat 0 dimension in
  let limited := substring (toLowerCase text) 0 5000 in
  let words := filter (fun word => 2 <? length word)
                      (RegExp.splitTexts (RegExp.literal "\s+" "") limited) in
  let wordHashes :=
    fold_left (fun set word => setAdd set (absToString (wordHash word))) words [] in
  let vector := fold_left wordFeature wordHashes vector in
  charFeatures limited 0 vector.

(** Lines 44-46 (and 88-89): the deterministic embedding. *)
Definition fallbackEmbedding (text : jstr) : list R :=
  let vector := accumulated text in
  let norm := orOne (sqrt (sumSquares vector)) in
  map (fun v => v / norm) vector.

(** What [openai.embeddings.create] does in one call is an input of the
    model: no client is configured, the call answers a vector, or it
    throws. *)
Inductive provider : Type :=
| NotConfigured
| Responds (embedding : list R)
| Fails.

Definition generateEmbedding (openai : provider) (text : jstr) : list R :=
  match openai with
  | NotConfigured => fallbackEmbedding text
  | Responds embedding => embedding
  | Fails => fallbackEmbedding text
  end.

(** A JavaScript number that is a real number or NaN. *)
Inductive number : Type :=
| Num (r : R)
| NaN.

(** [x / y] where [y = 0] only if [x = 0] (see [cosine_zero_denominator]):
    then the quotient is [0 / 0], which is NaN. *)
Definition divide (x y : R) : number :=
  if Req_EM_T y 0 then NaN else Num (x / y).

Inductive cosineResult : Type :=
| Similarity (s : number)
| DimensionError.     (* Error('Vectors must have the same length') *)

(** The loop of lines 117-121 over the components of [a]; [b[i]] exists
    for each since the lengths agree. *)
Definition cosineLoop (a b : list R) : R * R * R :=
  fold_left
    (fun (acc : R * R * R) (ab : R * R) =>
       let '(dotProduct, normA, normB) := acc in
       (dotProduct + fst ab * snd ab, normA + fst ab * fst ab, normB + snd ab * snd ab))
    (combine a b) (0, 0, 0).

Definition cosineSimilarity (a b : list R) : cosineResult :=
  if negb (length a =? length b)%nat then DimensionError
  else
    let '(dotProduct, normA, normB) := cosineLoop a b in
    Similarity (divide dotProduct (sqrt normA * sqrt normB)).

End EmbeddingService.

(** ** EmbeddingService.cosineSimilarity over IEEE doubles

    The same lines 108-124 with JavaScript's numbers as they are: binary64
    values, each sum, product, square root and quotient rounded. *)

Module Doubles.
Import Floats.
Local Open Scope float_scope.

Inductive cosineResult : Type :=
| Similarity (s : float)
| DimensionError.     (* Error('Vectors must have the same length') *)

Definition cosineLoop (a b : list float) : float * float * float :=
  fold_left
    (fun (acc : float * float * float) (ab : float * float) =>
       let '(dotProduct, normA, normB) := acc in
       (dotProduct + fst ab * snd ab, normA + fst ab * fst ab, normB + snd ab * snd ab))
    (combine a b) (0, 0, 0).

Definition cosineSimilarity (a b : list float) : cosineResult :=
  if negb (length a =? length b)%nat then DimensionError
  else
    let '(dotProduct, normA, normB) := cosineLoop a b in
    Similarity (dotProduct / (PrimFloat.sqrt normA * PrimFloat.sqrt normB)).

End Doubles.

(** ** Sorting

    [Array.prototype.sort] is stable; with a comparator that orders by a
    key it is insertion of the elements, last first, each before the first
    element it may precede. *)

Module Sort.

Fixpoint insertBy {A} (precedes : A -> A -> bool) (x : A) (l : list A) : list A :=
  match l with
  | [] => [x]
  | y :: l' => if precedes x y then x :: l else y :: insertBy precedes x l'
  end.

Definition sortBy {A} (precedes : A -> A -> bool) (l : list A) : list A :=
  fold_right (insertBy precedes) [] l.

(** Comparator [(a, b) => key(b) - key(a)]: [a] may stay before [b] when
    [key b <= key a]. *)
Definition descNat {A} (key : A -> nat) (a b : A) : bool := (key b <=? key a)%nat.

Definition descR {A} (key : A -> R) (a b : A) : bool :=
  if Rle_dec (key b) (key a) then true else false.

(** The order a list sorted by [descR key] is in. *)
Definition notBelow {A} (key : A -> R) (a b : A) : Prop := (key b <= key a)%R.

End Sort.

(** ** server/services/vectorService.ts *)

Module VectorService.
Import JS Storage EmbeddingService.
Local Open Scope R_scope.

Record SimilarityResult : Type := mkResult {
  chunk : DocumentChunk;
  similarity : R;
  documentName : jstr
}.

(** [documentMap.get(id) || 'Unknown Document'] for the map from document
    ids to original names. *)
Definition documentNameOf (st : MemStorage) (id : jstr) : jstr :=
  match mapGet (documents st) id with
  | Some doc => if isEmpty (originalName doc) then "Unknown Document" else originalName doc
  | None => "Unknown Document"
  end.

Section Search.

(** [JSON.parse] on the text of a stored embedding: the array of numbers it
    denotes, [None] when parsing throws. *)
Variable JSON_parse : jstr -> option (list R).

(** The body of the loop over the chunks: the entry pushed, if any. *)
Definition similarityOf (st : MemStorage) (queryEmbedding : list R) (threshold : R)
  (c : DocumentChunk) : list SimilarityResult :=
  match embedding c with
  | None => []
  | Some e =>
      if isEmpty e then []
      else
        match JSON_parse e with
        | None => []
        | Some chunkEmbedding =>
            match cosineSimilarity queryEmbedding chunkEmbedding with
            | DimensionError => []
            | Similarity NaN => []
            | Similarity (Num s) =>
                if Rle_dec threshold s
                then [mkResult c s (documentNameOf st (documentId c))]
                else []
            end
        end
  end.

Definition searchSimilarChunks (st : MemStorage) (queryEmbedding : list R)
  (topK : nat) (threshold : R) : list SimilarityResult :=
  let similarities :=
    flat_map (similarityOf st queryEmbedding threshold) (getAllChunks st) in
  firstn topK (Sort.sortBy (Sort.descR similarity) similarities).

(** What stage 2 keeps of a chunk: it has a stored embedding that parses to
    a vector whose cosine similarity to the query embedding is a number at
    or above the threshold. *)
Definition qualifies (st : MemStorage) (queryEmbedding : list R) (threshold : R)
  (r : SimilarityResult) : Prop :=
  In (chunk r) (getAllChunks st)
  /\ documentName r = documentNameOf st (documentId (chunk r))
  /\ exists e v,
       embedding (chunk r) = Some e /\ e <> []
       /\ JSON_parse e = Some v
       /\ cosineSimilarity queryEmbedding v = Similarity (Num (similarity r))
       /\ threshold <= similarity r.

End Search.

End VectorService.

(** ** server/routes.ts: the query route, retrieval and sources *)

Module QueryRoute.
Import JS Storage EmbeddingService VectorService.
Local Open Scope R_scope.

Record TextSearchResult : Type := mkText {
  ts_chunk : DocumentChunk;
  score : nat;
  ts_documentName : jstr
}.

Definition queryWords (queryLower : jstr) : list jstr :=
  filter (fun word => (2 <? length word)%nat)
         (RegExp.splitTexts (RegExp.literal "\s+" "") queryLower).

Definition matchScore (chunkText queryLower : jstr) : nat :=
  fold_left (fun matchScore word =>
               if includes chunkText word then (matchScore + 1)%nat else matchScore)
            (queryWords queryLower) 0%nat.

Definition isDefinitionQuery (queryLower : jstr) : bool :=
  includes queryLower "what is" || includes queryLower "define"
  || includes queryLower "explain".

Definition definitionWords : list jstr :=
  ["is" : jstr; "means" : jstr; "refers to" : jstr; "defined as" : jstr;
   "answer:" : jstr; "question:" : jstr; "q:" : jstr].

Definition hasDefinitionWords (chunkText : jstr) : bool :=
  existsb (fun word => includes chunkText word) definitionWords.

(** The body of the loop of lines 626-664: the entry pushed, if any. *)
Definition textSearchStep (st : MemStorage) (query : jstr) (c : DocumentChunk)
  : list TextSearchResult :=
  let chunkText := toLowerCase (text c) in
  let queryLower := toLowerCase query in
  let matchScore := matchScore chunkText queryLower in
  if isDefinitionQuery queryLower then
    if (0 <? matchScore)%nat && hasDefinitionWords chunkText
    then [mkText c (matchScore + 2) (documentNameOf st (documentId c))]
    else []
  else
    if (0 <? matchScore)%nat
    then [mkText c matchScore (documentNameOf st (documentId c))]
    else [].

Definition textSearchResults (st : MemStorage) (query : jstr) : list TextSearchResult :=
  flat_map (textSearchStep st query) (getAllChunks st).

(** Lines 667-672. *)
Definition textSearch (st : MemStorage) (query : jstr) : list SimilarityResult :=
  map (fun result => mkResult (ts_chunk result) (INR (score result) / 10)
                              (ts_documentName result))
      (firstn 10 (Sort.sortBy (Sort.descNat score) (textSearchResults st query))).

(** The calls the route makes to other services, in order. *)
Inductive call : Type :=
| SearchSimilarChunks (queryEmbedding : list R) (topK : nat) (threshold : R).

Section Retrieval.

Variable JSON_parse : jstr -> option (list R).

(** Lines 617-682: the chunks found for a query, and the calls made. *)
Definition retrieve (st : MemStorage) (query : jstr) (queryEmbedding : list R)
  : list SimilarityResult * list call :=
  let similarChunks := textSearch st query in
  if (length similarChunks <? 3)%nat then
    let vectorChunks := searchSimilarChunks JSON_parse st queryEmbedding 10 (1 / 10) in
    (similarChunks ++ vectorChunks, [SearchSimilarChunks queryEmbedding 10 (1 / 10)])
  else (similarChunks, []).

End Retrieval.

(** Lines 693-697. *)
Definition sortedChunks (similarChunks : list SimilarityResult) : list SimilarityResult :=
  Sort.sortBy (Sort.descR similarity) similarChunks.

Fixpoint sourceLines (results : list SimilarityResult) (index : nat) : list jstr :=
  match results with
  | [] => []
  | result :: results' =>
      ("[Source " ++ ofNat (index + 1) ++ "]: " ++ text (chunk result))
      :: sourceLines results' (S index)
  end.

Definition buildContext (similarChunks : list SimilarityResult) : jstr :=
  join (newline ++ newline) (sourceLines (firstn 8 (sortedChunks similarChunks)) 0).

Record SourceResult : Type := mkSource {
  docName : jstr;
  src_chunkIndex : nat;
  src_text : jstr;
  src_similarity : R;
  relevance : jstr
}.

(** [Math.round(x)]: the integer nearest to [x], the larger one on a tie. *)
Definition Math_round (x : R) : Z := Int_part (x + / 2).

Definition relevanceOf (similarity : R) : jstr :=
  if Rlt_dec (9 / 10) similarity then "Very High"
  else if Rlt_dec (8 / 10) similarity then "High"
  else if Rlt_dec (7 / 10) similarity then "Medium"
  else "Low".

(** Lines 736-744. *)
Definition formatSource (result : SimilarityResult) : SourceResult :=
  mkSource (documentName result)
           (chunkIndex (chunk result))
           (substring (text (chunk result)) 0 500
            ++ (if (500 <? length (text (chunk result)))%nat then "..." else "" : jstr))
           (IZR (Math_round (similarity result * 100)) / 100)
           (relevanceOf (similarity result)).

(** The [sources] of the response: the chunks found, sorted in place at
    line 693, formatted. *)
Definition sourcesOf (similarChunks : list SimilarityResult) : list SourceResult :=
  map formatSource (sortedChunks similarChunks).

End QueryRoute.

(** ** Sample data for the examples *)

Module Samples.
Import Storage.

(** A store with two documents; the second has two chunks. *)
Definition sampleStore : MemStorage :=
  mkStorage
    [("d1" : jstr, mkDocument "d1" "f1" "cv.pdf" 1 10);
     ("d2" : jstr, mkDocument "d2" "f2" "guide.pdf" 2 20)]
    [("c1" : jstr, mkChunk "c1" "d1" 0 "Skills: Rocq" None);
     ("c2" : jstr, mkChunk "c2" "d2" 0 "What is HTML?" None);
     ("c3" : jstr, mkChunk "c3" "d2" 1 "HTML is a markup language" None)]
    [("q1" : jstr, mkQuery "q1" "what is html" "HTML is a markup language" None 30)].

(** A store whose one chunk is the word [cat], and a query of eleven
    words. *)
Definition catStore : MemStorage :=
  mkStorage [("d1" : jstr, mkDocument "d1" "f1" "cat.pdf" 1 10)]
            [("c1" : jstr, mkChunk "c1" "d1" 0 "cat" None)]
            [].

Definition catQuery : jstr := "cat cat cat cat cat cat cat cat cat cat cat".

(** A store whose one chunk has the stored embedding [[1]], and a parser
    that knows this one text. *)
Definition vectorStore : MemStorage :=
  mkStorage [("d1" : jstr, mkDocument "d1" "f1" "cat.pdf" 1 10)]
            [("c1" : jstr, mkChunk "c1" "d1" 0 "cat" (Some ("[1]" : jstr)))]
            [].

Definition parseOne (e : jstr) : option (list R) :=
  if JS.streq e "[1]" then Some [1%R] else None.

Definition emptyWorld : Run.World := Run.mkWorld (mkStorage [] [] []) [].

End Samples.

(** ** The specification's words

    Definitions written from the specification, to be compared with the
    ones translated from the sources. *)

Module Spec.
Import JS.
Local Open Scope R_scope.

(** "dot product" *)
Fixpoint dotProduct (a b : list R) : R :=
  match a, b with
  | x :: a', y :: b' => x * y + dotProduct a' b'
  | _, _ => 0
  end.

(** "Euclidean norm" *)
Fixpoint squaredNorm (a : list R) : R :=
  match a with
  | x :: a' => x * x + squaredNorm a'
  | [] => 0
  end.

Definition euclideanNorm (a : list R) : R := sqrt (squaredNorm a).

(** "tokenize the query on whitespace": the pieces between whitespace
    code units, [cur] being the piece begun.  Two whitespace code units in a
    row have an empty piece between them. *)
Fixpoint splitOnWhitespace (s cur : jstr) : list jstr :=
  match s with
  | [] => [cur]
  | c :: s' =>
      if isSpace c then cur :: splitOnWhitespace s' []
      else splitOnWhitespace s' (cur ++ [c])
  end.

(** "keep tokens longer than 2 characters"; the query is read in lower
    case, as the chunk text is. *)
Definition tokens (query : jstr) : list jstr :=
  filter (fun token => (2 <? length token)%nat)
         (splitOnWhitespace (toLowerCase query) []).

(** "count how many query tokens occur as substrings of the lower-cased
    chunk text; that count is the raw score" *)
Definition rawScore (query chunkText : jstr) : nat :=
  length (filter (fun token => includes (toLowerCase chunkText) token)
                 (tokens query)).

(** "definition-style (its lower-cased text contains "what is", "define",
    or "explain")" *)
Definition definitionPhrases : list jstr :=
  ["what is" : jstr; "define" : jstr; "explain" : jstr].

Definition definitionStyle (query : jstr) : bool :=
  existsb (fun phrase => includes (toLowerCase query) phrase) definitionPhrases.

(** "the definition markers ('is', 'means', 'refers to', 'defined as',
    'answer:', 'question:', 'q:')" *)
Definition definitionMarkers : list jstr :=
  ["is" : jstr; "means" : jstr; "refers to" : jstr; "defined as" : jstr;
   "answer:" : jstr; "question:" : jstr; "q:" : jstr].

(** "its lower-cased text contains at least one of the definition
    markers" *)
Definition hasMarker (chunkText : jstr) : Prop :=
  exists marker, In marker definitionMarkers
                 /\ includes (toLowerCase chunkText) marker = true.


End Spec.

(** The specification's words read in double arithmetic: the sums run in
    index order from 0, and every operation rounds. *)

Module Spec64.
Import Floats.
Local Open Scope float_scope.

Fixpoint sumFrom (acc : float) (terms : list float) : float :=
  match terms with
  | [] => acc
  | t :: terms' => sumFrom (acc + t) terms'
  end.

Fixpoint products (a b : list float) : list float :=
  match a, b with
  | x :: a', y :: b' => x * y :: products a' b'
  | _, _ => []
  end.

(** "dot product" *)
Definition dotProduct (a b : list float) : float := sumFrom 0 (products a b).

(** "Euclidean norm" *)
Definition euclideanNorm (a : list float) : float := PrimFloat.sqrt (dotProduct a a).

End Spec64.

(** ** Relations used to state what the matcher has done *)

Module RegExpSpec.
Import JS RegExp.

(** State [y] is state [x] after the text [w]. *)
Definition after (x : mstate) (w : jstr) (y : mstate) : Prop :=
  rest x = w ++ rest y /\ pos y = pos x + length w.

(** The captures of the groups not listed are the same in [x] and [y]. *)
Definition sameCapsOutside (gs : list nat) (x y : mstate) : Prop :=
  forall n, ~ In n gs -> caps y n = caps x n.

(** What a run that succeeds tells: the continuation was entered in a state
    reached by consuming a text of the expression's language. *)
Definition sound (ic : bool) (r : regex)
  (m : mstate -> (mstate -> option mstate) -> option mstate) : Prop :=
  forall x k z, m x k = Some z ->
    exists w y, lang ic r w /\ after x w y /\ sameCapsOutside (groups r) x y
                /\ k y = Some z.

(** An expression that matches blank text only (without the [i] flag). *)
Fixpoint blankOnly (r : regex) : bool :=
  match r with
  | REmpty | RStart | REnd | RWordB _ => true
  | RChar a => isSpace a
  | RAny => false
  | RClass neg items =>
      negb neg
      && forallb (fun it => match it with
                            | CChar a => isSpace a
                            | CSpace false => true
                            | _ => false
                            end) items
  | RSeq r1 r2 | RAlt r1 r2 => blankOnly r1 && blankOnly r2
  | RQuant r1 _ _ _ => blankOnly r1
  | RGroup _ r1 => blankOnly r1
  end.

(** The array of ranges [splitLoop] builds from position [p] of [input]:
    pieces [p, q) closed by a match at [q], each followed by the groups of
    that match, and a last piece that runs to the end. *)
Inductive splitShape (re : RegExpObj) (input : jstr)
  : nat -> list (option (nat * nat)) -> Prop :=
| ss_end p : p <= length input -> splitShape re input p [Some (p, length input)]
| ss_match p q pv y l :
    p <= q -> q < length input ->
    matchAt re (skipn q input) q pv = Some y ->
    rest y = skipn (pos y) input -> q <= pos y -> pos y <= length input ->
    splitShape re input (pos y) l ->
    splitShape re input p
      (Some (p, q) :: map (caps y) (seq 1 (ngroups re)) ++ l).

(** The expression [/\s+/] both tokenizers split on, and what is left of a
    text after the blanks at its start. *)
Definition blanks : RegExpObj := literal "\s+" "".

Fixpoint dropBlanks (s : jstr) : jstr :=
  match s with
  | c :: s' => if isSpace c then dropBlanks s' else s
  | [] => []
  end.

(** [word.length > 2]. *)
Definition longWord (word : jstr) : bool := 2 <? length word.

(** The text of an element of the array [split] returns, for an expression
    without groups. *)
Definition pieceText (input : jstr) (o : option (nat * nat)) : jstr :=
  match o with Some ab => range input ab | None => [] end.

End RegExpSpec.

(** ** Positions in a document, blanks aside *)

Module Layout.
Import JS.

(** The number of visible code units before position [x] of [d]. *)
Definition visibleBefore (d : jstr) (x : nat) : nat := length (visible (firstn x d)).

(** Blanks aside, [ch] is the stretch of [d] that starts at offset [a]. *)
Definition occursAt (d ch : jstr) (a : nat) : Prop :=
  exists pre post, visible d = pre ++ visible ch ++ post /\ length pre = a.

(** Texts that occur in [d] at offsets between [lo] and [hi], each at or
    after the offset of the one before. *)
Inductive ordered (d : jstr) : nat -> nat -> list jstr -> Prop :=
| ord_nil lo hi : lo <= hi -> ordered d lo hi []
| ord_cons lo hi a ch l :
    lo <= a -> a <= hi -> occursAt d ch a -> ordered d a hi l ->
    ordered d lo hi (ch :: l).

(** Texts that occur in [d] one after the other, between offsets [lo] and
    [hi], each starting at or after the end of the one before. *)
Inductive consecutive (d : jstr) : nat -> nat -> list jstr -> Prop :=
| con_nil lo hi : lo <= hi -> consecutive d lo hi []
| con_cons lo hi a X l :
    lo <= a -> occursAt d X a -> consecutive d (a + length (visible X)) hi l ->
    consecutive d lo hi (X :: l).

(** The chunks read in sequence visit the document from left to right:
    each occurs in it, blanks aside, at an offset that is not before the
    offset of the chunk before it. *)
Definition inDocumentOrder (d : jstr) (chunks : list jstr) : Prop :=
  exists starts, Forall2 (occursAt d) chunks starts /\ StronglySorted le starts.

(** What the loop over the section headers of [splitIntoSections] keeps
    true: the current section is the text between [prev] and the last
    header found, and the sections pushed so far follow one another and
    hold the visible code units before [prev]. *)
Definition sectionsInv (d : jstr) (st : PDFService.sectionState) : Prop :=
  exists prev,
    prev <= PDFService.lastIndex st /\ PDFService.lastIndex st <= length d
    /\ PDFService.currentSection st = substring d prev (PDFService.lastIndex st)
    /\ consecutive d 0 (visibleBefore d prev) (PDFService.sections st)
    /\ concat (map visible (PDFService.sections st)) = visible (firstn prev d).

End Layout.

(** ** server/storage.ts: the other methods of MemStorage

    [randomUUID()] and [new Date()] are inputs: the identifier and the time
    a method draws are given to it. *)

Module Store.
Import JS Storage.

(** [Map.prototype.set]: the value of a key the map has is replaced where
    its entry stands; a new key goes last. *)
Fixpoint mapSet {V} (m : Map V) (k : jstr) (v : V) : Map V :=
  match m with
  | [] => [(k, v)]
  | (k', v') :: m' =>
      if streq k' k then (k, v) :: m' else (k', v') :: mapSet m' k v
  end.

Record InsertDocument : Type := mkInsertDocument {
  ins_filename : jstr;
  ins_originalName : jstr;
  ins_chunksCount : option nat
}.

Record InsertDocumentChunk : Type := mkInsertChunk {
  ins_documentId : jstr;
  ins_chunkIndex : nat;
  ins_text : jstr;
  ins_embedding : option jstr
}.

Record InsertQuery : Type := mkInsertQuery {
  ins_query : jstr;
  ins_response : jstr;
  ins_sources : option jstr
}.

(** [n || 0] for a number or undefined. *)
Definition orZero (o : option nat) : nat :=
  match o with Some n => n | None => 0 end.

(** [s || null] for a string, null or undefined: the empty string is
    falsy. *)
Definition orNull (o : option jstr) : option jstr :=
  match o with
  | Some s => if isEmpty s then None else Some s
  | None => None
  end.

Definition createDocument (st : MemStorage) (id : jstr) (now : nat)
  (insertDocument : InsertDocument) : Document * MemStorage :=
  let document :=
    mkDocument id (ins_filename insertDocument) (ins_originalName insertDocument)
               (orZero (ins_chunksCount insertDocument)) now in
  (document,
   mkStorage (mapSet (documents st) id document) (documentChunks st) (queries st)).

(** Comparator [(a, b) => key(a) - key(b)]: [a] may stay before [b] when
    [key a <= key b]. *)
Definition ascNat {A} (key : A -> nat) (a b : A) : bool := key a <=? key b.

Definition getAllDocuments (st : MemStorage) : list Document :=
  Sort.sortBy (Sort.descNat uploadedAt) (mapValues (documents st)).

Definition createDocumentChunk (st : MemStorage) (id : jstr)
  (insertChunk : InsertDocumentChunk) : DocumentChunk * MemStorage :=
  let chunk :=
    mkChunk id (ins_documentId insertChunk) (ins_chunkIndex insertChunk)
            (ins_text insertChunk) (orNull (ins_embedding insertChunk)) in
  (chunk,
   mkStorage (documents st) (mapSet (documentChunks st) id chunk) (queries st)).

Definition getDocumentChunks (st : MemStorage) (docId : jstr) : list DocumentChunk :=
  Sort.sortBy (ascNat chunkIndex)
    (filter (fun chunk => streq (documentId chunk) docId)
            (mapValues (documentChunks st))).

Definition createQuery (st : MemStorage) (id : jstr) (now : nat)
  (insertQuery : InsertQuery) : Query * MemStorage :=
  let query :=
    mkQuery id (ins_query insertQuery) (ins_response insertQuery)
            (orNull (ins_sources insertQuery)) now in
  (query,
   mkStorage (documents st) (documentChunks st) (mapSet (queries st) id query)).

Definition getRecentQueries (st : MemStorage) : list Query :=
  firstn 10 (Sort.sortBy (Sort.descNat createdAt) (mapValues (queries st))).

(** The store as the server starts with it. *)
Definition emptyStorage : MemStorage := mkStorage [] [] [].

(** The invariant of the three maps: one entry per key. *)
Definition wellKeyed (st : MemStorage) : Prop :=
  uniqueKeys (documents st) /\ uniqueKeys (documentChunks st)
  /\ uniqueKeys (queries st).

End Store.

(** ** server/routes.ts: the routes

    What a handler does to the store and what it answers; its console
    output and the files it removes are left aside.  [randomUUID()] is the
    sequence [uuid] of the values it returns, in the order of the calls of
    one request. *)

Module Routes.
Import JS Storage Store EmbeddingService VectorService QueryRoute.
Local Open Scope R_scope.

(** [req.file] after multer, with what [PDFService.extractTextFromPDF]
    makes of the stored file: its text, or [None] when it throws. *)
Record UploadedFile : Type := mkFile {
  file_filename : jstr;
  file_originalname : jstr;
  file_text : option jstr
}.

Inductive uploadResponse : Type :=
| NoFileUploaded                                     (* 400 *)
| UploadOk (id filename : jstr) (chunksCount : nat)  (* 200, success *)
| UploadError.                                       (* 500 *)

Section Upload.

(** [JSON.stringify] on an array of numbers. *)
Variable JSON_stringify : list R -> jstr.

(** What the call to the provider does for each text. *)
Variable openai : jstr -> provider.

(** [EmbeddingService.generateEmbeddings]: the texts one after the other. *)
Definition generateEmbeddings (texts : list jstr) : list (list R) :=
  map (fun text => generateEmbedding (openai text) text) texts.

(** The loop of lines 564-571 from index [i] on, [textChunks] being the
    chunks from that index. *)
Fixpoint storeChunks (st : MemStorage) (uuid : nat -> jstr) (docId : jstr)
  (embeddings : list (list R)) (i : nat) (textChunks : list jstr) : MemStorage :=
  match textChunks with
  | [] => st
  | text :: textChunks' =>
      let st' :=
        snd (createDocumentChunk st (uuid (S i))
               (mkInsertChunk docId i text
                  (option_map JSON_stringify (nth_error embeddings i)))) in
      storeChunks st' uuid docId embeddings (S i) textChunks'
  end.

(** [POST /api/upload]; [None] when the chunker has not finished. *)
Definition upload (st : MemStorage) (uuid : nat -> jstr) (now : nat)
  (file : option UploadedFile) : option (uploadResponse * MemStorage) :=
  match file with
  | None => Some (NoFileUploaded, st)
  | Some f =>
      match file_text f with
      | None => Some (UploadError, st)
      | Some text =>
          match PDFService.chunk text with
          | None => None
          | Some textChunks =>
              let (document, st1) :=
                createDocument st (uuid 0%nat) now
                  (mkInsertDocument (file_filename f) (file_originalname f)
                                    (Some (length textChunks))) in
              let embeddings := generateEmbeddings textChunks in
              let st2 :=
                storeChunks st1 uuid (doc_id document) embeddings 0 textChunks in
              Some (UploadOk (doc_id document) (originalName document)
                             (chunksCount document), st2)
          end
      end
  end.

End Upload.

Inductive queryResponse : Type :=
| QueryRequired                                              (* 400 *)
| Answered (answer : jstr) (sources : list SourceResult)     (* 200 *)
| QueryError (e : Run.jserror).                              (* 500 *)

Definition nothingFound (query : jstr) : jstr :=
  "I couldn't find any information about " ++ Extractor.quoted query
  ++ " in your uploaded documents. The information you're looking for may not be present in the current documents.".

Definition nothingExtracted (query : jstr) : jstr :=
  "I couldn't find any information about " ++ Extractor.quoted query
  ++ " in your uploaded documents.".

(** [!s || s.trim().length === 0] *)
Definition blank (s : jstr) : bool := isEmpty s || (length (trim s) =? 0)%nat.

Section Query.

Variable JSON_parse : jstr -> option (list R).

(** [JSON.stringify] on the array of sources. *)
Variable JSON_stringify : list SourceResult -> jstr.

(** [POST /api/query]; [query] is [None] when the body has no string
    under that name. *)
Definition handleQuery (st : MemStorage) (uuid : jstr) (now : nat)
  (openai : provider) (query : option jstr) : queryResponse * MemStorage :=
  match query with
  | None => (QueryRequired, st)
  | Some query =>
      if blank query then (QueryRequired, st)
      else
        let queryEmbedding := generateEmbedding openai query in
        let similarChunks := fst (retrieve JSON_parse st query queryEmbedding) in
        if (length similarChunks =? 0)%nat then (Answered (nothingFound query) [], st)
        else
          let context := buildContext similarChunks in
          match Run.answer (Extractor.extractInformationFromContext context query)
                           (Run.mkWorld st []) with
          | Run.Throw e => (QueryError e, st)
          | Run.Ok answer =>
              if blank answer then (Answered (nothingExtracted query) [], st)
              else
                let sources := sourcesOf similarChunks in
                let st' :=
                  snd (createQuery st uuid now
                         (mkInsertQuery query answer (Some (JSON_stringify sources)))) in
                (Answered answer sources, st')
          end
  end.

End Query.

Inductive deleteResponse : Type :=
| DocumentNotFound     (* 404 *)
| Deleted.             (* success *)

(** [DELETE /api/documents/:id]. *)
Definition deleteRoute (st : MemStorage) (id : jstr) : deleteResponse * MemStorage :=
  match getDocument st id with
  | None => (DocumentNotFound, st)
  | Some _ => (Deleted, deleteDocument st id)
  end.

(** [GET /api/stats]: totalDocuments, totalQueries. *)
Definition stats (st : MemStorage) : nat * nat :=
  (length (getAllDocuments st), length (getRecentQueries st)).

End Routes.

(** ** What the routes are to store *)

Module RoutesSpec.
Import JS Storage Store EmbeddingService Routes.

Section Records.

Variable JSON_stringify : list R -> jstr.
Variable openai : jstr -> provider.

(** The record of a chunk of an upload: its index, its text and the JSON
    text of the embedding of that text. *)
Definition chunkRecord (id docId : jstr) (i : nat) (text : jstr) : DocumentChunk :=
  mkChunk id docId i text
          (orNull (Some (JSON_stringify (generateEmbedding (openai text) text)))).

(** The records of the chunks [textChunks], numbered from [i]; the record
    numbered [j] has the identifier [uuid (S j)]. *)
Fixpoint chunkRecords (uuid : nat -> jstr) (docId : jstr) (i : nat)
  (textChunks : list jstr) : list DocumentChunk :=
  match textChunks with
  | [] => []
  | text :: textChunks' =>
      chunkRecord (uuid (S i)) docId i text :: chunkRecords uuid docId (S i) textChunks'
  end.

End Records.

End RoutesSpec.

(** ** What a computation may return *)

Module RunSpec.
Import Run.

(** Every value [m] returns, in whatever world it runs, satisfies [P]. *)
Definition yields {A} (P : A -> Prop) (m : M A) : Prop :=
  forall w a w', m w = (Ok a, w') -> P a.

(** Every error [m] throws, in whatever world it runs, satisfies [Q]. *)
Definition raises {A} (Q : jserror -> Prop) (m : M A) : Prop :=
  forall w e w', m w = (Throw e, w') -> Q e.

End RunSpec.

(** * Properties *)

(** ** Facts about strings *)

Module JSFacts.
Import JS.

Lemma eqc_eq (a b : ascii) : eqc a b = true <-> a = b.
Proof. unfold eqc. apply Ascii.eqb_eq. Qed.

Lemma startsWith_app (p s : jstr) : startsWith (p ++ s) p = true.
Proof.
  induction p as [|a p IH]; simpl.
  - destruct s; reflexivity.
  - unfold eqc. rewrite Ascii.eqb_refl. exact IH.
Qed.

Lemma startsWith_prefix (s p : jstr) :
  startsWith s p = true -> exists t, s = p ++ t.
Proof.
  revert s. induction p as [|a p IH]; intros s H.
  - exists s. reflexivity.
  - destruct s as [|b s]; simpl in H; [discriminate|].
    apply andb_true_iff in H. destruct H as [Hab H].
    apply eqc_eq in Hab. subst b.
    destruct (IH s H) as [t ->]. exists t. reflexivity.
Qed.

Lemma streq_eq (a b : jstr) : streq a b = true <-> a = b.
Proof.
  unfold streq. split.
  - intros H. apply andb_true_iff in H. destruct H as [Hlen Hpre].
    apply Nat.eqb_eq in Hlen.
    destruct (startsWith_prefix _ _ Hpre) as [t ->].
    rewrite length_app in Hlen.
    assert (length t = 0) as Ht by lia.
    apply length_zero_iff_nil in Ht. subst t. apply app_nil_r.
  - intros ->. apply andb_true_iff. split.
    + apply Nat.eqb_refl.
    + rewrite <- (app_nil_r b) at 1. apply startsWith_app.
Qed.

Lemma streq_neq (a b : jstr) : streq a b = false <-> a <> b.
Proof.
  split.
  - intros H E. apply streq_eq in E. congruence.
  - intros H. destruct (streq a b) eqn:E; [|reflexivity].
    apply streq_eq in E. contradiction.
Qed.

Lemma streq_refl (a : jstr) : streq a a = true.
Proof. apply streq_eq. reflexivity. Qed.

Lemma isEmpty_nil (s : jstr) : isEmpty s = true <-> s = [].
Proof. destruct s; simpl; split; congruence. Qed.

Lemma visible_app (a b : jstr) : visible (a ++ b) = visible a ++ visible b.
Proof. apply filter_app. Qed.

Lemma visible_rev (s : jstr) : visible (rev s) = rev (visible s).
Proof. apply filter_rev. Qed.

Lemma visible_trimStart (s : jstr) : visible (trimStart s) = visible s.
Proof.
  induction s as [|c s IH]; simpl; [reflexivity|].
  destruct (isSpace c) eqn:E; simpl; [exact IH|]. rewrite E. reflexivity.
Qed.

Lemma visible_trim (s : jstr) : visible (trim s) = visible s.
Proof.
  unfold trim, trimEnd. rewrite visible_rev, visible_trimStart, visible_rev, rev_involutive.
  apply visible_trimStart.
Qed.

Lemma trimStart_head (s : jstr) :
  trimStart s = [] \/ exists c t, trimStart s = c :: t /\ isSpace c = false.
Proof.
  induction s as [|c s IH]; simpl; [left; reflexivity|].
  destruct (isSpace c) eqn:E; [exact IH|]. right. exists c, s. tauto.
Qed.

Lemma trimStart_nil (s : jstr) : trimStart s = [] <-> visible s = [].
Proof.
  induction s as [|c s IH]; simpl; [tauto|].
  destruct (isSpace c) eqn:E; simpl; [exact IH|]. split; discriminate.
Qed.

Lemma trim_nil (s : jstr) : trim s = [] <-> visible s = [].
Proof.
  unfold trim, trimEnd. split.
  - intros H. apply (f_equal (@rev ascii)) in H. rewrite rev_involutive in H. simpl in H.
    apply trimStart_nil in H. rewrite visible_rev, visible_trimStart in H.
    apply (f_equal (@rev ascii)) in H. rewrite rev_involutive in H. exact H.
  - intros H. assert (H' : trimStart (rev (trimStart s)) = []).
    { apply trimStart_nil. rewrite visible_rev, visible_trimStart, H. reflexivity. }
    rewrite H'. reflexivity.
Qed.

Lemma trimStart_suffix (s : jstr) :
  exists l, s = l ++ trimStart s /\ visible l = [].
Proof.
  induction s as [|c s IH]; simpl; [exists []; tauto|].
  destruct (isSpace c) eqn:E.
  - destruct IH as [l [Hs Hl]]. exists (c :: l). simpl. rewrite E. simpl.
    split; [f_equal; exact Hs|exact Hl].
  - exists []. tauto.
Qed.

Lemma trimEnd_prefix (s : jstr) :
  exists r, s = trimEnd s ++ r /\ visible r = [].
Proof.
  unfold trimEnd. destruct (trimStart_suffix (rev s)) as [l [Hs Hl]].
  exists (rev l). split.
  - rewrite <- rev_app_distr, <- Hs, rev_involutive. reflexivity.
  - rewrite visible_rev, Hl. reflexivity.
Qed.

Lemma visible_skipn (n : nat) (s : jstr) : visible s = [] -> visible (skipn n s) = [].
Proof.
  intros H. rewrite <- (firstn_skipn n s), visible_app in H.
  apply app_eq_nil in H. tauto.
Qed.

(** A text is its trimmed form between two blank margins. *)
Lemma trim_margins (s : jstr) :
  exists l r, s = l ++ trim s ++ r /\ visible l = [] /\ visible r = [].
Proof.
  destruct (trimStart_suffix s) as [l [Hs Hl]].
  destruct (trimEnd_prefix (trimStart s)) as [r [Ht Hr]].
  exists l, r. unfold trim. rewrite <- Ht. tauto.
Qed.

(** A trimmed text that is not empty starts with a visible code unit. *)
Lemma trim_head (s : jstr) :
  trim s = [] \/ exists c t, trim s = c :: t /\ isSpace c = false.
Proof.
  destruct (trim s) as [|c t] eqn:E; [left; reflexivity|]. right.
  exists c, t. split; [reflexivity|].
  destruct (trimEnd_prefix (trimStart s)) as [r [Ht _]].
  fold (trim s) in Ht. rewrite E in Ht.
  destruct (trimStart_head s) as [H|(c' & t' & H & Hc)].
  - rewrite H in Ht. discriminate.
  - rewrite H in Ht. simpl in Ht. inversion Ht; subst. exact Hc.
Qed.

End JSFacts.

(** ** The matcher *)

Module RegExpFacts.
Import JS JSFacts RegExp RegExpSpec.

Lemma after_refl (x : mstate) : after x [] x.
Proof. unfold after. simpl. split; [reflexivity|lia]. Qed.

Lemma after_trans (x y z : mstate) (w1 w2 : jstr) :
  after x w1 y -> after y w2 z -> after x (w1 ++ w2) z.
Proof.
  unfold after. intros [H1 H2] [H3 H4]. split.
  - rewrite H1, H3, app_assoc. reflexivity.
  - rewrite length_app. lia.
Qed.

Lemma same_refl (gs : list nat) (x : mstate) : sameCapsOutside gs x x.
Proof. intros n _. reflexivity. Qed.

Lemma same_trans (gs : list nat) (x y z : mstate) :
  sameCapsOutside gs x y -> sameCapsOutside gs y z -> sameCapsOutside gs x z.
Proof. intros H1 H2 n Hn. rewrite H2, H1 by exact Hn. reflexivity. Qed.

Lemma same_weaken (gs gs' : list nat) (x y : mstate) :
  incl gs gs' -> sameCapsOutside gs x y -> sameCapsOutside gs' x y.
Proof. intros Hi H n Hn. apply H. intros Hin. apply Hn, Hi, Hin. Qed.

Lemma clearCaps_same (gs : list nat) (x : mstate) :
  sameCapsOutside gs x (clearCaps gs x).
Proof.
  intros n Hn. unfold clearCaps. simpl.
  destruct (existsb (Nat.eqb n) gs) eqn:E; [|reflexivity].
  apply existsb_exists in E. destruct E as [m [Hm E]].
  apply Nat.eqb_eq in E. subst m. contradiction.
Qed.

Lemma step_sound (p : ascii -> bool) (x : mstate) (k : mstate -> option mstate)
  (z : mstate) :
  step p x k = Some z ->
  exists c y, p c = true /\ after x [c] y /\ caps y = caps x /\ k y = Some z.
Proof.
  unfold step. destruct (rest x) as [|a t] eqn:E; [discriminate|].
  destruct (p a) eqn:Hp; [|discriminate]. intros Hk.
  exists a, (mkState t (S (pos x)) (Some a) (caps x)).
  split; [exact Hp|]. split; [unfold after; simpl; split; [exact E|lia]|].
  split; [reflexivity|exact Hk].
Qed.

Lemma repeat_sound (ic : bool) (r1 : regex) (min0 : nat) (max0 : option nat)
  (greedy : bool) (k : mstate -> option mstate) :
  sound ic r1 (matcher ic r1) ->
  forall fuel min max x z,
    repeatMatcher (matcher ic r1) (groups r1) greedy k fuel min max x = Some z ->
    exists w y, lang ic (RQuant r1 min0 max0 greedy) w /\ after x w y
                /\ sameCapsOutside (groups r1) x y /\ k y = Some z.
Proof.
  intros Hm. induction fuel as [|fuel IH]; intros min max x z H.
  - exists [], x. simpl in H.
    destruct max as [[|n]|]; try discriminate.
    split; [constructor|]. split; [apply after_refl|]. split; [apply same_refl|exact H].
  - assert (Hstop : k x = Some z ->
                    exists w y, lang ic (RQuant r1 min0 max0 greedy) w /\ after x w y
                                /\ sameCapsOutside (groups r1) x y /\ k y = Some z).
    { intros Hk. exists [], x. split; [constructor|]. split; [apply after_refl|].
      split; [apply same_refl|exact Hk]. }
    assert (Hgo : matcher ic r1 (clearCaps (groups r1) x)
                    (fun y => if (min =? 0) && (pos y =? pos x) then None
                              else repeatMatcher (matcher ic r1) (groups r1) greedy k fuel
                                     (Nat.pred min) (option_map Nat.pred max) y)
                  = Some z ->
                  exists w y, lang ic (RQuant r1 min0 max0 greedy) w /\ after x w y
                              /\ sameCapsOutside (groups r1) x y /\ k y = Some z).
    { intros Hr. apply Hm in Hr. destruct Hr as (w1 & y1 & Hl1 & Ha1 & Hs1 & Hd).
      destruct ((min =? 0) && (pos y1 =? pos x)); [discriminate|].
      apply IH in Hd. destruct Hd as (w2 & y2 & Hl2 & Ha2 & Hs2 & Hk).
      exists (w1 ++ w2), y2. split; [constructor; assumption|].
      split; [eapply after_trans; [|exact Ha2]; exact Ha1|].
      split; [|exact Hk].
      eapply same_trans; [|exact Hs2].
      eapply same_trans; [apply clearCaps_same|exact Hs1]. }
    simpl in H.
    destruct max as [[|n]|]; [apply Hstop; exact H| |];
      (destruct (negb (min =? 0)); [apply Hgo; exact H|];
       destruct greedy; unfold orElse in H;
       [destruct (matcher ic r1 _ _) eqn:E in H;
          [inversion H; subst; apply Hgo; exact E|apply Hstop; exact H]
       |destruct (k x) eqn:E in H;
          [inversion H; subst; apply Hstop; exact E|apply Hgo; exact H]]).
Qed.

Lemma matcher_sound (ic : bool) (r : regex) : sound ic r (matcher ic r).
Proof.
  induction r as [ |a| |neg items|r1 IH1 r2 IH2|r1 IH1 r2 IH2|r1 IH1 min max greedy
                  |n r1 IH1| | |neg]; intros x k z H; simpl in H.
  - exists [], x. split; [constructor|]. split; [apply after_refl|].
    split; [apply same_refl|exact H].
  - apply step_sound in H. destruct H as (c & y & Hp & Ha & Hc & Hk).
    exists [c], y. split; [constructor; exact Hp|]. split; [exact Ha|].
    split; [|exact Hk]. intros m _. rewrite Hc. reflexivity.
  - apply step_sound in H. destruct H as (c & y & Hp & Ha & Hc & Hk).
    exists [c], y. split; [constructor; exact Hp|]. split; [exact Ha|].
    split; [|exact Hk]. intros m _. rewrite Hc. reflexivity.
  - apply step_sound in H. destruct H as (c & y & Hp & Ha & Hc & Hk).
    exists [c], y. split; [constructor; exact Hp|]. split; [exact Ha|].
    split; [|exact Hk]. intros m _. rewrite Hc. reflexivity.
  - apply IH1 in H. destruct H as (w1 & y1 & Hl1 & Ha1 & Hs1 & H).
    apply IH2 in H. destruct H as (w2 & y2 & Hl2 & Ha2 & Hs2 & Hk).
    exists (w1 ++ w2), y2. split; [constructor; assumption|].
    split; [eapply after_trans; eassumption|]. split; [|exact Hk].
    simpl. eapply same_trans.
    + eapply same_weaken; [|exact Hs1]. apply incl_appl, incl_refl.
    + eapply same_weaken; [|exact Hs2]. apply incl_appr, incl_refl.
  - unfold orElse in H. destruct (matcher ic r1 x k) eqn:E.
    + inversion H; subst. apply IH1 in E. destruct E as (w & y & Hl & Ha & Hs & Hk).
      exists w, y. split; [apply L_alt_l; exact Hl|]. split; [exact Ha|].
      split; [|exact Hk]. simpl. eapply same_weaken; [|exact Hs]. apply incl_appl, incl_refl.
    + apply IH2 in H. destruct H as (w & y & Hl & Ha & Hs & Hk).
      exists w, y. split; [apply L_alt_r; exact Hl|]. split; [exact Ha|].
      split; [|exact Hk]. simpl. eapply same_weaken; [|exact Hs]. apply incl_appr, incl_refl.
  - eapply repeat_sound in H; [|exact IH1]. exact H.
  - apply IH1 in H. destruct H as (w & y & Hl & Ha & Hs & Hk).
    exists w, (setCap n (pos x) (pos y) y). split; [constructor; exact Hl|].
    split; [exact Ha|]. split; [|exact Hk].
    intros m Hm. simpl in Hm. unfold setCap. simpl.
    destruct (m =? n) eqn:E; [apply Nat.eqb_eq in E; subst; tauto|].
    apply Hs. tauto.
  - destruct (pos x =? 0); [|discriminate].
    exists [], x. split; [constructor|]. split; [apply after_refl|].
    split; [apply same_refl|exact H].
  - destruct (rest x) eqn:E; [|discriminate].
    exists [], x. split; [constructor|]. split; [apply after_refl|].
    split; [apply same_refl|exact H].
  - destruct (xorb neg (atBoundary x)); [|discriminate].
    exists [], x. split; [constructor|]. split; [apply after_refl|].
    split; [apply same_refl|exact H].
Qed.

Lemma matchAt_sound (re : RegExpObj) (s : jstr) (i : nat) (pv : option ascii)
  (y : mstate) :
  matchAt re s i pv = Some y ->
  exists w, lang (ignoreCase re) (ast re) w /\ s = w ++ rest y
            /\ pos y = i + length w
            /\ sameCapsOutside (groups (ast re)) (mkState s i pv noCaps) y.
Proof.
  unfold matchAt. intros H. apply matcher_sound in H.
  destruct H as (w & y' & Hl & [Hr Hp] & Hs & Hk).
  inversion Hk; subst y'. exists w. simpl in *. tauto.
Qed.

Lemma searchFrom_sound (re : RegExpObj) (s : jstr) (i : nat) (pv : option ascii)
  (st : nat) (y : mstate) :
  searchFrom re s i pv = Some (st, y) ->
  exists u w, lang (ignoreCase re) (ast re) w /\ s = u ++ w ++ rest y
              /\ st = i + length u /\ pos y = st + length w.
Proof.
  revert i pv. induction s as [|a s IH]; intros i pv H; simpl in H.
  - destruct (matchAt re [] i pv) as [y'|] eqn:E; [|discriminate].
    inversion H; subst. apply matchAt_sound in E.
    destruct E as (w & Hl & Hs & Hp & _). exists [], w. simpl.
    repeat split; try assumption; lia.
  - destruct (matchAt re (a :: s) i pv) as [y'|] eqn:E.
    + inversion H; subst. apply matchAt_sound in E.
      destruct E as (w & Hl & Hs & Hp & _). exists [], w. simpl.
      repeat split; try assumption; lia.
    + apply IH in H. destruct H as (u & w & Hl & Hs & Hst & Hp).
      exists (a :: u), w. simpl. rewrite Hs.
      repeat split; try assumption; lia.
Qed.

Lemma blankOnly_sound (r : regex) (w : jstr) :
  blankOnly r = true -> lang false r w -> visible w = [].
Proof.
  intros Hb Hl. induction Hl; simpl in Hb;
    try apply andb_true_iff in Hb; try reflexivity.
  - unfold charMatch, inSet in H. simpl in H. rewrite !orb_false_r in H.
    apply Ascii.eqb_eq in H. subst c. simpl. rewrite Hb. reflexivity.
  - discriminate.
  - destruct Hb as [Hn Hall]. destruct neg; [discriminate|].
    unfold classMatch, inSet in H. simpl in H. rewrite orb_false_r in H.
    apply existsb_exists in H. destruct H as [it [Hin Hit]].
    rewrite forallb_forall in Hall. specialize (Hall it Hin).
    simpl. destruct it as [a|lo hi|n|n|n]; try discriminate.
    + simpl in Hit. apply Ascii.eqb_eq in Hit. subst c. rewrite Hall. reflexivity.
    + destruct n; [discriminate|]. simpl in Hit. rewrite Hit. reflexivity.
  - destruct Hb as [H1 H2]. rewrite visible_app, IHHl1, IHHl2 by assumption. reflexivity.
  - destruct Hb as [H1 H2]. apply IHHl. exact H1.
  - destruct Hb as [H1 H2]. apply IHHl. exact H2.
  - rewrite visible_app, IHHl1, IHHl2 by assumption. reflexivity.
  - apply IHHl. exact Hb.
Qed.

Lemma substring_middle (pre mid post : jstr) :
  substring (pre ++ mid ++ post) (length pre) (length pre + length mid) = mid.
Proof.
  unfold substring. rewrite skipn_app, skipn_all, Nat.sub_diag. simpl.
  replace (length pre + length mid - length pre) with (length mid) by lia.
  rewrite firstn_app, firstn_all, Nat.sub_diag. simpl. apply app_nil_r.
Qed.

Lemma skipn_exact (pre post : jstr) : skipn (length pre) (pre ++ post) = post.
Proof. rewrite skipn_app, skipn_all, Nat.sub_diag. reflexivity. Qed.

(** Replacing blank matches by blank text keeps the visible code units. *)
Lemma stitch_visible (re : RegExpObj) (by_ : jstr) :
  ignoreCase re = false -> blankOnly (ast re) = true -> visible by_ = [] ->
  forall fuel s i pv pre v0,
    i = length pre + length v0 ->
    visible (stitch (pre ++ v0 ++ s)
               (map (fun m => (fst m, pos (snd m))) (matchesFrom fuel re s i pv))
               (length pre) by_)
    = visible (v0 ++ s).
Proof.
  intros Hic Hre Hby. induction fuel as [|fuel IH]; intros s i pv pre v0 Hi; simpl.
  - rewrite skipn_exact. reflexivity.
  - destruct (searchFrom re s i pv) as [[st y]|] eqn:E; simpl.
    + apply searchFrom_sound in E. destruct E as (u & w & Hl & Hs & Hst & Hp).
      rewrite Hic in Hl. pose proof (blankOnly_sound _ _ Hre Hl) as Hw.
      subst s. set (pre' := pre ++ v0 ++ u ++ w).
      assert (Hinput : pre ++ v0 ++ u ++ w ++ rest y = pre' ++ rest y).
      { unfold pre'. rewrite <- !app_assoc. reflexivity. }
      assert (Hlen : pos y = length pre').
      { unfold pre'. rewrite !length_app. lia. }
      assert (Hsub : substring (pre ++ v0 ++ u ++ w ++ rest y) (length pre) st = v0 ++ u).
      { subst st i.
        replace (pre ++ v0 ++ u ++ w ++ rest y)
          with (pre ++ (v0 ++ u) ++ (w ++ rest y)) by (rewrite <- !app_assoc; reflexivity).
        replace (length pre + length v0 + length u)
          with (length pre + length (v0 ++ u)) by (rewrite length_app; lia).
        apply substring_middle. }
      rewrite Hsub, Hinput, !visible_app, Hby, Hw. simpl.
      rewrite <- !app_assoc. f_equal. f_equal.
      rewrite Hlen.
      destruct (length pre' =? st) eqn:Eq.
      * destruct (rest y) as [|a t] eqn:Er.
        -- simpl. rewrite app_nil_r, skipn_all. reflexivity.
        -- apply (IH t (S (length pre')) (Some a) pre' [a]). simpl. lia.
      * apply (IH (rest y) (length pre') (prev y) pre' []). simpl. lia.
    + rewrite skipn_exact. reflexivity.
Qed.

Lemma replaceAll_visible (re : RegExpObj) (input by_ : jstr) :
  ignoreCase re = false -> blankOnly (ast re) = true -> visible by_ = [] ->
  visible (replaceAll re input by_) = visible input.
Proof.
  intros Hic Hre Hby. unfold replaceAll, matchRanges.
  apply (stitch_visible re by_ Hic Hre Hby (length input + 2) input 0 None [] []).
  reflexivity.
Qed.

Lemma skipn_cons_inv {A} (l : list A) (q : nat) (a : A) (t : list A) :
  skipn q l = a :: t -> q < length l /\ skipn (S q) l = t.
Proof.
  intros H. split.
  - destruct (Nat.lt_ge_cases q (length l)) as [Hlt|Hge]; [exact Hlt|].
    rewrite skipn_all2 in H by exact Hge. discriminate.
  - replace (S q) with (1 + q) by lia. rewrite <- skipn_skipn, H. reflexivity.
Qed.

Lemma matchAt_rest (re : RegExpObj) (input : jstr) (q : nat) (pv : option ascii)
  (y : mstate) :
  q <= length input ->
  matchAt re (skipn q input) q pv = Some y ->
  rest y = skipn (pos y) input /\ q <= pos y /\ pos y <= length input
  /\ lang (ignoreCase re) (ast re) (substring input q (pos y)).
Proof.
  intros Hq H. apply matchAt_sound in H. destruct H as (w & Hl & Hs & Hp & _).
  assert (Hlen : length (skipn q input) = length w + length (rest y))
    by (rewrite Hs, length_app; reflexivity).
  rewrite length_skipn in Hlen.
  split; [|split; [lia|split; [lia|]]].
  - rewrite Hp, Nat.add_comm, <- skipn_skipn, Hs, skipn_app, skipn_all, Nat.sub_diag.
    reflexivity.
  - unfold substring. rewrite Hs, Hp.
    replace (q + length w - q) with (length w) by lia.
    rewrite firstn_app, firstn_all, Nat.sub_diag. simpl. rewrite app_nil_r. exact Hl.
Qed.

(** [splitLoop] does not run out of fuel, and its array has the shape of
    [splitShape]. *)
Lemma splitLoop_shape (re : RegExpObj) (input : jstr) :
  forall fuel s q pv p,
    s = skipn q input -> p <= q -> q <= length input ->
    2 * length s + (if p <? q then 1 else 0) < fuel ->
    splitShape re input p (splitLoop fuel re s q pv p).
Proof.
  induction fuel as [|fuel IH]; intros s q pv p Hs Hpq Hq Hfuel; [lia|].
  cbn [splitLoop]. destruct s as [|a s'].
  - assert (q = length input).
    { symmetry in Hs. apply (f_equal (@length ascii)) in Hs.
      rewrite length_skipn in Hs. simpl in Hs. lia. }
    subst q. apply ss_end. exact Hpq.
  - symmetry in Hs. destruct (skipn_cons_inv _ _ _ _ Hs) as [Hlt Hs'].
    assert (Hskip : splitShape re input p (splitLoop fuel re s' (S q) (Some a) p)).
    { apply IH; [symmetry; exact Hs'|lia|lia|].
      simpl length in Hfuel. destruct (p <? S q), (p <? q); lia. }
    destruct (matchAt re (a :: s') q pv) as [y|] eqn:E; [|exact Hskip].
    destruct (pos y =? p) eqn:Ep; [exact Hskip|].
    apply Nat.eqb_neq in Ep.
    rewrite <- Hs in E.
    destruct (matchAt_rest re input q pv y Hq E) as (Hr & Hqy & Hy & _).
    apply ss_match with pv; try assumption.
    apply IH; [exact Hr|lia|exact Hy|].
    rewrite Nat.ltb_irrefl. rewrite Hr, length_skipn.
    simpl length in Hfuel.
    assert (Hl : S (length s') = length input - q).
    { apply (f_equal (@length ascii)) in Hs. rewrite length_skipn in Hs.
      simpl in Hs. lia. }
    destruct (p <? q) eqn:Epq; [lia|]. apply Nat.ltb_ge in Epq. lia.
Qed.

Lemma splitRanges_shape (re : RegExpObj) (input : jstr) :
  input <> [] -> splitShape re input 0 (splitRanges re input).
Proof.
  intros Hne. unfold splitRanges. destruct input as [|a t] eqn:E; [congruence|].
  rewrite <- E. apply splitLoop_shape; [reflexivity|lia|lia|].
  rewrite Nat.ltb_irrefl. lia.
Qed.

(** In a match of an expression that starts with group 1, with no group 1
    after it, group 1 starts where the match starts. *)
Lemma group1_first (re : RegExpObj) (r1 r2 : regex) (s : jstr) (q : nat)
  (pv : option ascii) (y : mstate) :
  ast re = RSeq (RGroup 1 r1) r2 -> ~ In 1 (groups r2) ->
  matchAt re s q pv = Some y ->
  exists c, caps y 1 = Some (q, c) /\ q <= c /\ c <= pos y.
Proof.
  intros Hast Hg H. unfold matchAt in H. rewrite Hast in H. simpl in H.
  apply matcher_sound in H. destruct H as (w1 & y1 & _ & [_ Hp1] & _ & H).
  apply matcher_sound in H. destruct H as (w2 & y2 & _ & [_ Hp2] & Hs2 & H).
  inversion H; subst y2. exists (pos y1). simpl in *.
  split; [|lia]. rewrite (Hs2 1 Hg). reflexivity.
Qed.

End RegExpFacts.

(** ** Layout of texts in a document *)

Module LayoutFacts.
Import JS JSFacts Layout.

Lemma nonBlank_visible (s : jstr) : PDFService.nonBlank s = true <-> visible s <> [].
Proof.
  unfold PDFService.nonBlank. rewrite Nat.ltb_lt, <- trim_nil.
  destruct (trim s); simpl; split; intros; try congruence; lia.
Qed.

Lemma nonBlank_trim (s : jstr) : PDFService.nonBlank (trim s) = PDFService.nonBlank s.
Proof.
  destruct (PDFService.nonBlank s) eqn:E.
  - apply nonBlank_visible. rewrite visible_trim. apply nonBlank_visible. exact E.
  - destruct (PDFService.nonBlank (trim s)) eqn:E'; [|reflexivity].
    apply nonBlank_visible in E'. rewrite visible_trim in E'.
    apply nonBlank_visible in E'. congruence.
Qed.

Lemma split3 (d : jstr) (x y : nat) :
  x <= y -> d = firstn x d ++ substring d x y ++ skipn y d.
Proof.
  intros Hxy. unfold substring.
  rewrite <- (firstn_skipn x d) at 1. f_equal.
  rewrite <- (firstn_skipn (y - x) (skipn x d)) at 1. f_equal.
  rewrite skipn_skipn. f_equal. lia.
Qed.

Lemma visibleBefore_split (d : jstr) (x y : nat) :
  x <= y ->
  visibleBefore d y = visibleBefore d x + length (visible (substring d x y)).
Proof.
  intros Hxy. unfold visibleBefore.
  assert (H : firstn y d = firstn x d ++ substring d x y).
  { unfold substring. rewrite <- (firstn_skipn x (firstn y d)).
    rewrite firstn_firstn, Nat.min_l by lia. f_equal.
    rewrite skipn_firstn_comm. reflexivity. }
  rewrite H, visible_app, length_app. reflexivity.
Qed.

Lemma visibleBefore_mono (d : jstr) (x y : nat) :
  x <= y -> visibleBefore d x <= visibleBefore d y.
Proof. intros H. rewrite (visibleBefore_split d x y H). lia. Qed.

Lemma visibleBefore_all (d : jstr) (x : nat) :
  length d <= x -> visibleBefore d x = length (visible d).
Proof. intros H. unfold visibleBefore. rewrite firstn_all2 by exact H. reflexivity. Qed.

Lemma visibleBefore_le (d : jstr) (x : nat) : visibleBefore d x <= length (visible d).
Proof.
  rewrite <- (visibleBefore_all d (Nat.max x (length d))) by lia.
  apply visibleBefore_mono. lia.
Qed.

(** A range of a text occurs in it where the visible code units before it
    end. *)
Lemma occursAt_substring (d : jstr) (x y : nat) :
  x <= y -> occursAt d (substring d x y) (visibleBefore d x).
Proof.
  intros Hxy. exists (visible (firstn x d)), (visible (skipn y d)).
  split; [|reflexivity].
  rewrite (split3 d x y Hxy) at 1. rewrite !visible_app. reflexivity.
Qed.

Lemma occursAt_same (d X Y : jstr) (a : nat) :
  visible X = visible Y -> occursAt d X a -> occursAt d Y a.
Proof. intros E (pre & post & H & Hl). exists pre, post. rewrite <- E. tauto. Qed.

Lemma occursAt_trim (d X : jstr) (a : nat) : occursAt d X a -> occursAt d (trim X) a.
Proof. apply occursAt_same. symmetry. apply visible_trim. Qed.

Lemma occursAt_end (d X : jstr) (a : nat) :
  occursAt d X a -> a + length (visible X) <= length (visible d).
Proof.
  intros (pre & post & H & Hl). rewrite H, !length_app. lia.
Qed.

Lemma occursAt_trans (d X ch : jstr) (a a' : nat) :
  occursAt d X a -> occursAt X ch a' -> occursAt d ch (a + a').
Proof.
  intros (pre & post & H & Hl) (pre' & post' & H' & Hl').
  exists (pre ++ pre'), (post' ++ post). split.
  - rewrite H, H', <- !app_assoc. reflexivity.
  - rewrite length_app. lia.
Qed.

Lemma ordered_bounds (d : jstr) (lo hi : nat) (l : list jstr) :
  ordered d lo hi l -> lo <= hi.
Proof. intros H. inversion H; lia. Qed.

Lemma ordered_weaken (d : jstr) (lo hi lo' hi' : nat) (l : list jstr) :
  ordered d lo hi l -> lo' <= lo -> hi <= hi' -> ordered d lo' hi' l.
Proof.
  intros H. revert lo' hi'. induction H as [lo hi Hle|lo hi a ch l Hlo Hhi Hocc Hrest IH];
    intros lo' hi' H1 H2.
  - constructor. lia.
  - apply ord_cons with a; try lia; [exact Hocc|]. apply IH; lia.
Qed.

Lemma ordered_app (d : jstr) (lo m hi : nat) (l1 l2 : list jstr) :
  ordered d lo m l1 -> ordered d m hi l2 -> ordered d lo hi (l1 ++ l2).
Proof.
  intros H1 H2. pose proof (ordered_bounds _ _ _ _ H2) as Hm.
  induction H1 as [lo m Hle|lo m a ch l Hlo Hhi Hocc Hrest IH]; simpl.
  - eapply ordered_weaken; [exact H2|lia|lia].
  - apply ord_cons with a; try lia; [exact Hocc|]. apply IH; assumption.
Qed.

Lemma ordered_filter (d : jstr) (lo hi : nat) (f : jstr -> bool) (l : list jstr) :
  ordered d lo hi l -> ordered d lo hi (filter f l).
Proof.
  induction 1 as [lo hi Hle|lo hi a ch l Hlo Hhi Hocc Hrest IH]; simpl.
  - constructor. exact Hle.
  - destruct (f ch).
    + apply ord_cons with a; assumption.
    + eapply ordered_weaken; [exact IH|lia|lia].
Qed.

Lemma ordered_transport (d X : jstr) (a lo hi : nat) (l : list jstr) :
  occursAt d X a -> ordered X lo hi l -> ordered d (a + lo) (a + hi) l.
Proof.
  intros HX. induction 1 as [lo hi Hle|lo hi a' ch l Hlo Hhi Hocc Hrest IH].
  - constructor. lia.
  - apply ord_cons with (a + a'); try lia; [|exact IH].
    eapply occursAt_trans; eassumption.
Qed.

Lemma ordered_inDocumentOrder (d : jstr) (lo hi : nat) (l : list jstr) :
  ordered d lo hi l -> inDocumentOrder d l.
Proof.
  intros H.
  assert (G : exists starts, Forall2 (occursAt d) l starts
                             /\ StronglySorted le starts /\ Forall (le lo) starts).
  { induction H as [lo hi Hle|lo hi a ch l Hlo Hhi Hocc Hrest IH].
    - exists []. repeat constructor.
    - destruct IH as (starts & HF & HS & HA). exists (a :: starts).
      split; [constructor; assumption|]. split; [constructor; assumption|].
      constructor; [exact Hlo|]. eapply Forall_impl; [|exact HA]. simpl. intros; lia. }
  destruct G as (starts & HF & HS & _). exists starts. tauto.
Qed.

End LayoutFacts.

Module SectionLoopFacts.
Import JS JSFacts Layout LayoutFacts PDFService.

Lemma slice_nonneg (X : jstr) (a b : Z) :
  (0 <= a)%Z -> (0 <= b)%Z ->
  slice X a b = substring X (Nat.min (Z.to_nat a) (length X))
                            (Nat.min (Z.to_nat b) (length X)).
Proof.
  intros Ha Hb. unfold slice, sliceIndex.
  destruct (a <? 0)%Z eqn:Ea; [apply Z.ltb_lt in Ea; lia|].
  destruct (b <? 0)%Z eqn:Eb; [apply Z.ltb_lt in Eb; lia|]. reflexivity.
Qed.

Section Sizes.

Variables chunkSize overlap : nat.
Hypothesis overlap_small : 5 * overlap <= 3 * chunkSize.
Hypothesis overlap_less : overlap < chunkSize.

(** The loop ends, whatever the section, and its chunks are non-blank
    stretches of the section at offsets that do not go back. *)
Lemma sectionLoop_ordered (X : jstr) :
  forall fuel start,
    (0 <= start)%Z -> (Z.of_nat (length X) - start < Z.of_nat fuel)%Z ->
    exists chunks,
      sectionLoop fuel X chunkSize overlap start = Some chunks
      /\ Forall (fun c => nonBlank c = true) chunks
      /\ ordered X (visibleBefore X (Z.to_nat start)) (length (visible X)) chunks
      /\ (chunks = [] -> visible (skipn (Z.to_nat start) X) = []).
Proof.
  induction fuel as [|fuel IH]; intros start H0 Hfuel.
  - exists []. simpl.
    destruct (start <? Z.of_nat (length X))%Z eqn:E; [apply Z.ltb_lt in E; lia|].
    apply Z.ltb_ge in E.
    split; [reflexivity|]. split; [constructor|].
    split; [constructor; apply visibleBefore_le|].
    intros _. rewrite skipn_all2 by lia. reflexivity.
  - cbn [sectionLoop].
    destruct (start <? Z.of_nat (length X))%Z eqn:E.
    2:{ apply Z.ltb_ge in E. exists []. split; [reflexivity|]. split; [constructor|].
        split; [constructor; apply visibleBefore_le|].
        intros _. rewrite skipn_all2 by lia. reflexivity. }
    apply Z.ltb_lt in E.
    set (len := Z.of_nat (length X)) in *.
    set (end_ := Z.min (start + Z.of_nat chunkSize) len).
    set (chunk := slice X start end_).
    set (breakPoint := Z.max (Z.max (lastIndexOf chunk ".") (lastIndexOf chunk (ascii_of_nat 10)))
                             (lastIndexOf chunk ",")).
    set (broken := (3 * Z.of_nat chunkSize <? 5 * (breakPoint - start))%Z).
    set (chunk' := if (end_ <? len)%Z && broken then slice X start (breakPoint + 1) else chunk).
    set (start' := if (end_ <? len)%Z
                   then if broken then (breakPoint + 1 - Z.of_nat overlap)%Z
                        else (end_ - Z.of_nat overlap)%Z
                   else end_).
    assert (Hend : (start <= end_ <= len)%Z) by (unfold end_; lia).
    assert (Hnext : (start < start')%Z /\
                    exists v, Z.to_nat start <= v
                              /\ (Z.to_nat start' <= v \/ length X <= v)
                              /\ chunk' = substring X (Z.to_nat start) v).
    { unfold start', chunk'. destruct (end_ <? len)%Z eqn:El; simpl.
      - apply Z.ltb_lt in El. destruct broken eqn:Eb.
        + unfold broken in Eb. apply Z.ltb_lt in Eb. split; [lia|].
          exists (Nat.min (Z.to_nat (breakPoint + 1)) (length X)).
          split; [unfold len in *; lia|]. split; [lia|].
          rewrite slice_nonneg by lia. f_equal. unfold len in *. lia.
        + split; [unfold end_ in *; lia|].
          exists (Nat.min (Z.to_nat end_) (length X)).
          split; [unfold len in *; lia|]. split; [unfold len in *; lia|].
          unfold chunk. rewrite slice_nonneg by lia. f_equal. unfold len in *. lia.
      - apply Z.ltb_ge in El. split; [lia|].
        exists (Nat.min (Z.to_nat end_) (length X)).
        split; [unfold len in *; lia|]. split; [unfold len in *; lia|].
        unfold chunk. rewrite slice_nonneg by lia. f_equal. unfold len in *. lia. }
    destruct Hnext as [Hlt (v & Hv & Hcov & Hchunk)].
    destruct (IH start') as (chunks & Hrun & Hnb & Hord & Hblank); [lia|lia|].
    rewrite Hrun.
    assert (Hmono : visibleBefore X (Z.to_nat start) <= visibleBefore X (Z.to_nat start'))
      by (apply visibleBefore_mono; lia).
    destruct (nonBlank chunk') eqn:Enb.
    + exists (trim chunk' :: chunks). split; [reflexivity|].
      split; [constructor; [rewrite nonBlank_trim; exact Enb|exact Hnb]|].
      split; [|discriminate].
      apply ord_cons with (visibleBefore X (Z.to_nat start)).
      * lia.
      * apply visibleBefore_le.
      * apply occursAt_trim. rewrite Hchunk. apply occursAt_substring. exact Hv.
      * eapply ordered_weaken; [exact Hord|exact Hmono|lia].
    + exists chunks. split; [reflexivity|]. split; [exact Hnb|].
      split; [eapply ordered_weaken; [exact Hord|exact Hmono|lia]|].
      intros Hnil. specialize (Hblank Hnil).
      assert (Hvis : visible chunk' = []).
      { destruct (visible chunk') eqn:Ev; [reflexivity|].
        assert (nonBlank chunk' = true) by (apply nonBlank_visible; congruence).
        congruence. }
      assert (Hsplit : skipn (Z.to_nat start) X = chunk' ++ skipn v X).
      { rewrite Hchunk. unfold substring.
        replace v with ((v - Z.to_nat start) + Z.to_nat start)%nat at 2 by lia.
        rewrite <- skipn_skipn. symmetry. apply firstn_skipn. }
      rewrite Hsplit, visible_app, Hvis. simpl.
      destruct Hcov as [Hcov|Hcov].
      * replace v with ((v - Z.to_nat start') + Z.to_nat start')%nat by lia.
        rewrite <- skipn_skipn. apply visible_skipn. exact Hblank.
      * rewrite skipn_all2 by exact Hcov. reflexivity.
Qed.

Lemma splitSection_ordered (X : jstr) :
  exists chunks,
    splitSectionIntoChunks X chunkSize overlap = Some chunks
    /\ Forall (fun c => nonBlank c = true) chunks
    /\ ordered X 0 (length (visible X)) chunks.
Proof.
  unfold splitSectionIntoChunks.
  destruct (sectionLoop_ordered X (S (length X)) 0%Z) as (chunks & H1 & H2 & H3 & _);
    [lia|lia|].
  exists chunks. split; [exact H1|]. split; [exact H2|].
  eapply ordered_weaken; [exact H3|lia|lia].
Qed.

(** A section with a visible code unit gives a chunk. *)
Lemma splitSection_covers (X : jstr) :
  visible X <> [] -> splitSectionIntoChunks X chunkSize overlap <> Some [].
Proof.
  intros Hv H. unfold splitSectionIntoChunks in H.
  destruct (sectionLoop_ordered X (S (length X)) 0%Z) as (chunks & H1 & _ & _ & H4);
    [lia|lia|].
  rewrite H in H1. inversion H1; subst. apply Hv. apply (H4 eq_refl).
Qed.

End Sizes.

End SectionLoopFacts.

(** ** The chunker *)

Module ChunkerFacts.
Import JS JSFacts RegExp RegExpSpec RegExpFacts Layout LayoutFacts SectionLoopFacts PDFService.

Lemma cleanText_visible (text : jstr) : visible (cleanText text) = visible text.
Proof.
  unfold cleanText. rewrite visible_trim.
  rewrite replaceAll_visible by (vm_compute; reflexivity).
  apply replaceAll_visible; vm_compute; reflexivity.
Qed.

Lemma cleanText_blank (text : jstr) : visible text = [] -> cleanText text = [].
Proof.
  intros H. pose proof (cleanText_visible text) as Hv. rewrite H in Hv.
  unfold cleanText in *. apply trim_nil. rewrite visible_trim in Hv. exact Hv.
Qed.

Lemma firstn_split (d : jstr) (x y : nat) :
  x <= y -> firstn y d = firstn x d ++ substring d x y.
Proof.
  intros Hxy. unfold substring. rewrite <- (firstn_skipn x (firstn y d)).
  rewrite firstn_firstn, Nat.min_l by lia. f_equal.
  rewrite skipn_firstn_comm. reflexivity.
Qed.

Lemma skipn_split (d : jstr) (x y : nat) :
  x <= y -> skipn x d = substring d x y ++ skipn y d.
Proof.
  intros Hxy. unfold substring.
  replace y with ((y - x) + x) at 2 by lia.
  rewrite <- skipn_skipn. symmetry. apply firstn_skipn.
Qed.

Lemma substring_to_end (d : jstr) (x : nat) : substring d x (length d) = skipn x d.
Proof. unfold substring. apply firstn_all2. rewrite length_skipn. lia. Qed.

Lemma consecutive_bounds (d : jstr) (lo hi : nat) (l : list jstr) :
  consecutive d lo hi l -> lo <= hi.
Proof. induction 1; lia. Qed.

Lemma consecutive_weaken (d : jstr) (lo hi lo' hi' : nat) (l : list jstr) :
  consecutive d lo hi l -> lo' <= lo -> hi <= hi' -> consecutive d lo' hi' l.
Proof.
  intros H. revert lo' hi'.
  induction H as [lo hi Hle|lo hi a X l Hlo Hocc Hrest IH]; intros lo' hi' H1 H2.
  - constructor. lia.
  - apply con_cons with (a := a); [lia|exact Hocc|]. apply IH; lia.
Qed.

Lemma consecutive_snoc (d : jstr) (lo hi a : nat) (l : list jstr) (X : jstr) :
  consecutive d lo hi l -> hi <= a -> occursAt d X a ->
  consecutive d lo (a + length (visible X)) (l ++ [X]).
Proof.
  intros H Ha HX.
  induction H as [lo hi Hle|lo hi a' X' l Hlo Hocc Hrest IH]; simpl.
  - apply con_cons with (a := a); [lia|exact HX|]. constructor. lia.
  - apply con_cons with (a := a'); [exact Hlo|exact Hocc|]. apply IH. exact Ha.
Qed.

Lemma consecutive_filter (d : jstr) (lo hi : nat) (f : jstr -> bool) (l : list jstr) :
  consecutive d lo hi l -> consecutive d lo hi (filter f l).
Proof.
  induction 1 as [lo hi Hle|lo hi a X l Hlo Hocc Hrest IH]; simpl.
  - constructor. exact Hle.
  - destruct (f X).
    + apply con_cons with (a := a); assumption.
    + eapply consecutive_weaken; [exact IH|lia|lia].
Qed.

Lemma blank_visible (s : jstr) : nonBlank s = false <-> visible s = [].
Proof.
  split; intros H.
  - destruct (visible s) eqn:E; [reflexivity|].
    assert (nonBlank s = true) by (apply nonBlank_visible; congruence). congruence.
  - destruct (nonBlank s) eqn:E; [|reflexivity].
    apply nonBlank_visible in E. contradiction.
Qed.

Lemma visible_filter_nonBlank (l : list jstr) :
  concat (map visible (filter nonBlank l)) = concat (map visible l).
Proof.
  induction l as [|X l IH]; simpl; [reflexivity|].
  destruct (nonBlank X) eqn:E; simpl; rewrite IH; [reflexivity|].
  apply blank_visible in E. rewrite E. reflexivity.
Qed.

Lemma visible_somewhere (l : list jstr) :
  concat (map visible l) <> [] -> exists X, In X l /\ visible X <> [].
Proof.
  induction l as [|X l IH]; simpl; [congruence|]. intros H.
  destruct (visible X) eqn:E.
  - destruct (IH H) as (Y & HY & HvY). exists Y. tauto.
  - exists X. split; [left; reflexivity|]. congruence.
Qed.

(** The pieces of a split by an expression without groups that matches
    blank text only: they follow one another and hold every visible code
    unit. *)
Lemma splitTexts_pieces (re : RegExpObj) (input : jstr) :
  ngroups re = 0 -> ignoreCase re = false -> blankOnly (ast re) = true ->
  forall p l, splitShape re input p l ->
    consecutive input (visibleBefore input p) (length (visible input))
      (map (fun o => match o with Some ab => range input ab | None => [] end) l)
    /\ concat (map visible
         (map (fun o => match o with Some ab => range input ab | None => [] end) l))
       = visible (skipn p input).
Proof.
  intros Hn Hic Hb p l H.
  induction H as [p Hp|p q pv y l Hpq Hq Hm Hrest Hqy Hy Hl IH].
  - simpl. unfold range. simpl. split.
    + apply con_cons with (a := visibleBefore input p); [lia|apply occursAt_substring; exact Hp|].
      constructor. rewrite <- (visibleBefore_split input p (length input) Hp).
      apply visibleBefore_le.
    + rewrite app_nil_r, substring_to_end. reflexivity.
  - rewrite Hn. simpl. unfold range at 1 3. simpl. destruct IH as [IHc IHv]. split.
    + apply con_cons with (a := visibleBefore input p); [lia|apply occursAt_substring; exact Hpq|].
      rewrite <- (visibleBefore_split input p q Hpq).
      eapply consecutive_weaken; [exact IHc|apply visibleBefore_mono; exact Hqy|lia].
    + rewrite IHv.
      rewrite (skipn_split input p q Hpq), (skipn_split input q (pos y) Hqy), !visible_app.
      destruct (matchAt_rest re input q pv y (Nat.lt_le_incl _ _ Hq) Hm) as (_ & _ & _ & Hlang).
      rewrite Hic in Hlang. rewrite (blankOnly_sound _ _ Hb Hlang). reflexivity.
Qed.

Lemma pushNonBlank_consecutive (d : jstr) (l : list jstr) (prev last : nat) :
  prev <= last ->
  consecutive d 0 (visibleBefore d prev) l ->
  concat (map visible l) = visible (firstn prev d) ->
  consecutive d 0 (visibleBefore d last) (pushNonBlank l (substring d prev last))
  /\ concat (map visible (pushNonBlank l (substring d prev last)))
     = visible (firstn last d).
Proof.
  intros Hle Hc Hv. unfold pushNonBlank.
  rewrite (firstn_split d prev last Hle), visible_app.
  rewrite (visibleBefore_split d prev last Hle).
  destruct (nonBlank (substring d prev last)) eqn:E.
  - split.
    + rewrite <- (visible_trim (substring d prev last)).
      apply consecutive_snoc with (hi := visibleBefore d prev); [exact Hc|lia|].
      apply occursAt_trim, occursAt_substring. exact Hle.
    + rewrite map_app, concat_app. simpl. rewrite visible_trim, app_nil_r, Hv. reflexivity.
  - apply blank_visible in E. rewrite E. simpl. rewrite app_nil_r, Nat.add_0_r. tauto.
Qed.


Lemma indexOfFrom_bound (s sub : jstr) :
  forall i j, indexOfFrom s sub i = Some j -> i <= j /\ j <= i + length s.
Proof.
  induction s as [|c s IH]; intros i j H; cbn [indexOfFrom] in H.
  - destruct (startsWith [] sub); inversion H; subst. simpl. lia.
  - destruct (startsWith (c :: s) sub).
    + inversion H; subst. lia.
    + apply IH in H. simpl. lia.
Qed.

Lemma indexOf_bound (s sub : jstr) (from : nat) :
  (indexOf s sub from <= Z.of_nat (length s))%Z.
Proof.
  unfold indexOf.
  destruct (indexOfFrom (skipn from s) sub (Nat.min from (length s))) as [j|] eqn:E; [|lia].
  apply indexOfFrom_bound in E. rewrite length_skipn in E. lia.
Qed.

Lemma headerStep_inv (d : jstr) (st : sectionState) (header : jstr) :
  sectionsInv d st -> sectionsInv d (headerStep d st header).
Proof.
  intros Hinv. unfold headerStep.
  destruct (matchAll _ d) as [[|first rest]|]; try exact Hinv.
  cbv zeta.
  destruct (Z.of_nat (lastIndex st) <? indexOf d first (lastIndex st))%Z eqn:E;
    [|exact Hinv].
  apply Z.ltb_lt in E.
  pose proof (indexOf_bound d first (lastIndex st)) as Hb.
  destruct Hinv as (prev & Hp & Hl & Hcur & Hc & Hv).
  exists (lastIndex st). simpl.
  split; [lia|]. split; [lia|]. split.
  - rewrite slice_nonneg by lia. f_equal; lia.
  - rewrite Hcur. apply pushNonBlank_consecutive; assumption.
Qed.

Lemma headers_inv (d : jstr) (headers : list jstr) :
  forall st, sectionsInv d st -> sectionsInv d (fold_left (headerStep d) headers st).
Proof.
  induction headers as [|h headers IH]; intros st H; simpl; [exact H|].
  apply IH, headerStep_inv, H.
Qed.

(** The sections follow one another in the text and hold every visible code
    unit of it. *)
Lemma splitIntoSections_spec (d : jstr) :
  consecutive d 0 (length (visible d)) (splitIntoSections d)
  /\ concat (map visible (splitIntoSections d)) = visible d.
Proof.
  unfold splitIntoSections.
  assert (H0 : sectionsInv d (mkSections [] [] 0)).
  { exists 0. simpl. split; [lia|]. split; [lia|]. split; [reflexivity|].
    split; [constructor; lia|reflexivity]. }
  apply (headers_inv d sectionHeaders) in H0.
  set (st := fold_left (headerStep d) sectionHeaders (mkSections [] [] 0)) in *.
  cbv zeta.
  destruct H0 as (prev & Hp & Hl & Hcur & Hc & Hv).
  assert (Hlast : (if lastIndex st <? length d
                   then currentSection st ++ sliceFrom d (Z.of_nat (lastIndex st))
                   else currentSection st) = substring d prev (length d)).
  { rewrite substring_to_end, Hcur. destruct (lastIndex st <? length d) eqn:E.
    - unfold sliceFrom, sliceIndex.
      destruct (Z.of_nat (lastIndex st) <? 0)%Z eqn:E0; [apply Z.ltb_lt in E0; lia|].
      rewrite Nat2Z.id, Nat.min_l by lia.
      symmetry. apply skipn_split. exact Hp.
    - apply Nat.ltb_ge in E. assert (lastIndex st = length d) by lia.
      rewrite H. apply substring_to_end. }
  rewrite Hlast.
  assert (Hprev : prev <= length d) by lia.
  destruct (pushNonBlank_consecutive d (sections st) prev (length d) Hprev Hc Hv)
    as [Gc Gv].
  rewrite visibleBefore_all in Gc by lia. rewrite firstn_all in Gv.
  destruct (length (pushNonBlank (sections st) (substring d prev (length d))) =? 1);
    [|tauto].
  destruct d as [|a t] eqn:Ed.
  - split; [vm_compute; constructor; lia|vm_compute; reflexivity].
  - rewrite <- Ed. unfold splitTexts.
    assert (Hne : d <> []) by congruence.
    destruct (splitTexts_pieces (literal "\n\s*\n" "") d) with (p := 0)
      (l := splitRanges (literal "\n\s*\n" "") d) as [Pc Pv];
      try (vm_compute; reflexivity).
    { apply splitRanges_shape. exact Hne. }
    split.
    + apply consecutive_filter. exact Pc.
    + rewrite visible_filter_nonBlank. exact Pv.
Qed.

Lemma ordered_same_text (d d' : jstr) (lo hi : nat) (l : list jstr) :
  visible d = visible d' -> ordered d lo hi l -> ordered d' lo hi l.
Proof.
  intros E. induction 1 as [lo hi Hle|lo hi a ch l Hlo Hhi Hocc Hrest IH].
  - constructor. exact Hle.
  - apply ord_cons with a; try assumption.
    unfold occursAt in *. rewrite <- E. exact Hocc.
Qed.

Lemma occursAt_whole (X : jstr) : occursAt X X 0.
Proof. exists [], []. rewrite app_nil_r. split; reflexivity. Qed.

Lemma filter_nonBlank_all (l : list jstr) :
  Forall (fun c => nonBlank c = true) (filter nonBlank l).
Proof. apply Forall_forall. intros x Hx. apply filter_In in Hx. tauto. Qed.

Section ChunkSizes.

Variables chunkSize overlap : nat.
Hypothesis overlap_small : 5 * overlap <= 3 * chunkSize.
Hypothesis overlap_less : overlap < chunkSize.

(** A text kept whole when short and cut when long: its chunks lie in it in
    order, and one is not blank when the text is not. *)
Lemma unit_ordered (X : jstr) :
  exists here,
    (if length X <=? chunkSize then Some [trim X]
     else splitSectionIntoChunks X chunkSize overlap) = Some here
    /\ ordered X 0 (length (visible X)) here
    /\ (visible X <> [] -> exists ch, In ch here /\ nonBlank ch = true).
Proof.
  destruct (length X <=? chunkSize).
  - exists [trim X]. split; [reflexivity|]. split.
    + apply ord_cons with 0; [lia|lia|apply occursAt_trim, occursAt_whole|].
      constructor. lia.
    + intros Hv. exists (trim X). split; [left; reflexivity|].
      rewrite nonBlank_trim. apply nonBlank_visible. exact Hv.
  - destruct (splitSection_ordered chunkSize overlap overlap_small overlap_less X)
      as (chunks & Hrun & Hnb & Hord).
    exists chunks. split; [exact Hrun|]. split; [exact Hord|].
    intros Hv. destruct chunks as [|ch chunks].
    + exfalso. exact (splitSection_covers chunkSize overlap overlap_small overlap_less
                        X Hv Hrun).
    + exists ch. split; [left; reflexivity|]. inversion Hnb; assumption.
Qed.

Lemma sectionChunks_ordered (d : jstr) (l : list jstr) (lo hi : nat) :
  consecutive d lo hi l ->
  exists chunks,
    sectionChunks l chunkSize overlap = Some chunks
    /\ ordered d lo hi chunks
    /\ (forall X, In X l -> visible X <> [] ->
        exists ch, In ch chunks /\ nonBlank ch = true).
Proof.
  induction 1 as [lo hi Hle|lo hi a X l Hlo Hocc Hrest IH].
  - exists []. split; [reflexivity|]. split; [constructor; exact Hle|].
    intros X [].
  - destruct IH as (chunks & Hrun & Hord & Hcov).
    destruct (unit_ordered X) as (here & Hhere & Hordh & Hcovh).
    exists (here ++ chunks). cbn [sectionChunks]. rewrite Hhere, Hrun.
    split; [reflexivity|]. split.
    + apply ordered_app with (a + length (visible X)); [|exact Hord].
      apply (ordered_transport d X a 0 _ _ Hocc) in Hordh.
      eapply ordered_weaken; [exact Hordh|lia|lia].
    + intros Y [HY|HY] Hv.
      * subst Y. destruct (Hcovh Hv) as (ch & Hin & Hnb). exists ch.
        split; [apply in_or_app; left; exact Hin|exact Hnb].
      * destruct (Hcov Y HY Hv) as (ch & Hin & Hnb). exists ch.
        split; [apply in_or_app; right; exact Hin|exact Hnb].
Qed.

(** The path of [splitTextIntoChunks] for a text that is not educational. *)
Lemma sections_chunks (d : jstr) :
  exists chunks,
    option_map (filter nonBlank)
      (sectionChunks (splitIntoSections d) chunkSize overlap) = Some chunks
    /\ Forall (fun c => nonBlank c = true) chunks
    /\ ordered d 0 (length (visible d)) chunks
    /\ (visible d <> [] -> chunks <> []).
Proof.
  destruct (splitIntoSections_spec d) as [Hc Hv].
  destruct (sectionChunks_ordered d _ _ _ Hc) as (chunks & Hrun & Hord & Hcov).
  exists (filter nonBlank chunks). rewrite Hrun. split; [reflexivity|].
  split; [apply filter_nonBlank_all|]. split; [apply ordered_filter; exact Hord|].
  intros Hne. rewrite <- Hv in Hne.
  destruct (visible_somewhere _ Hne) as (X & HX & HvX).
  destruct (Hcov X HX HvX) as (ch & Hin & Hnb).
  assert (Hf : In ch (filter nonBlank chunks)) by (apply filter_In; tauto).
  intros E. rewrite E in Hf. exact Hf.
Qed.

(** The pairs of a split by an expression that starts with its one group:
    each pair is a piece and the marker that closes it. *)
Lemma qaChunks_ordered (re : RegExpObj) (input : jstr) (r1 r2 : regex) :
  ast re = RSeq (RGroup 1 r1) r2 -> ~ In 1 (groups r2) -> ngroups re = 1 ->
  forall p l, splitShape re input p l ->
    exists chunks,
      qaChunks (map (option_map (range input)) l) chunkSize overlap = Some chunks
      /\ Forall (fun c => nonBlank c = true) chunks
      /\ ordered input (visibleBefore input p) (length (visible input)) chunks.
Proof.
  intros Hast Hg Hn p l H.
  induction H as [p Hp|p q pv y l Hpq Hq Hm Hrest Hqy Hy Hl IH].
  - exists []. split; [reflexivity|]. split; [constructor|].
    constructor. apply visibleBefore_le.
  - destruct IH as (chunks & Hrun & Hnb & Hord).
    destruct (group1_first re r1 r2 _ q pv y Hast Hg Hm) as (c & Hcap & Hqc & Hcy).
    rewrite Hn. cbn [seq map app]. rewrite Hcap. cbn [option_map qaChunks trimOpt].
    rewrite Hrun. unfold range. cbn [fst snd].
    set (question := trim (substring input p q)).
    set (answer := trim (substring input q c)).
    assert (Hpy : visibleBefore input p <= visibleBefore input (pos y))
      by (apply visibleBefore_mono; lia).
    assert (Hrestord : ordered input (visibleBefore input p)
                         (length (visible input)) chunks)
      by (eapply ordered_weaken; [exact Hord|exact Hpy|lia]).
    destruct (negb (isEmpty question) && negb (isEmpty answer)) eqn:E;
      [|exists chunks; tauto].
    apply andb_true_iff in E. destruct E as [Eq _].
    set (qaPair := question ++ newline ++ answer).
    assert (Hvis : visible qaPair = visible (substring input p c)).
    { unfold qaPair, question, answer.
      rewrite !visible_app, !visible_trim. simpl.
      unfold substring at 3. rewrite (skipn_split input p q Hpq).
      replace (c - p) with (length (substring input p q) + (c - q)).
      - rewrite firstn_app_2, visible_app. reflexivity.
      - unfold substring. rewrite length_firstn, length_skipn. lia. }
    assert (Hocc : occursAt input qaPair (visibleBefore input p)).
    { apply occursAt_same with (substring input p c); [symmetry; exact Hvis|].
      apply occursAt_substring. lia. }
    assert (Hend : visibleBefore input p + length (visible qaPair)
                   <= visibleBefore input (pos y)).
    { rewrite Hvis, <- (visibleBefore_split input p c) by lia.
      apply visibleBefore_mono. exact Hcy. }
    destruct (length qaPair <=? chunkSize).
    + exists (qaPair :: chunks). split; [reflexivity|]. split.
      * constructor; [|exact Hnb]. apply nonBlank_visible.
        unfold qaPair. rewrite visible_app. intros E.
        apply app_eq_nil in E. destruct E as [E _].
        unfold question in *. rewrite visible_trim in E. apply trim_nil in E.
        rewrite E in Eq. discriminate.
      * apply ord_cons with (visibleBefore input p);
          [lia|apply visibleBefore_le|exact Hocc|exact Hrestord].
    + destruct (splitSection_ordered chunkSize overlap overlap_small overlap_less qaPair)
        as (qa & Hqa & Hqnb & Hqord).
      rewrite Hqa. exists (qa ++ chunks). split; [reflexivity|]. split.
      * apply Forall_app. tauto.
      * apply ordered_app with (visibleBefore input (pos y)); [|exact Hord].
        apply (ordered_transport input qaPair _ 0 _ _ Hocc) in Hqord.
        eapply ordered_weaken; [exact Hqord|lia|lia].
Qed.

Lemma qaLoop_ordered (input : jstr) (patterns : list RegExpObj) :
  input <> [] ->
  Forall (fun re => exists r1 r2,
            ast re = RSeq (RGroup 1 r1) r2 /\ ~ In 1 (groups r2) /\ ngroups re = 1)
         patterns ->
  exists chunks,
    qaLoop input chunkSize overlap patterns = Some chunks
    /\ Forall (fun c => nonBlank c = true) chunks
    /\ ordered input 0 (length (visible input)) chunks.
Proof.
  intros Hne. induction 1 as [|re patterns (r1 & r2 & Hast & Hg & Hn) _ IH].
  - exists []. split; [reflexivity|]. split; [constructor|]. constructor. lia.
  - cbn [qaLoop]. unfold split.
    destruct (qaChunks_ordered re input r1 r2 Hast Hg Hn 0 _
                (splitRanges_shape re input Hne)) as (chunks & Hrun & Hnb & Hord).
    rewrite Hrun. destruct chunks as [|ch chunks]; [exact IH|].
    exists (ch :: chunks). tauto.
Qed.

Lemma qaPatterns_lead :
  Forall (fun re => exists r1 r2,
            ast re = RSeq (RGroup 1 r1) r2 /\ ~ In 1 (groups r2) /\ ngroups re = 1)
         qaPatterns.
Proof.
  unfold qaPatterns. repeat constructor.
  - eexists. eexists. split; [lazy; reflexivity|]. split; [simpl; tauto|reflexivity].
  - eexists. eexists. split; [lazy; reflexivity|]. split; [simpl; tauto|reflexivity].
Qed.

(** The path of [splitTextIntoChunks] for an educational text. *)
Lemma educational_chunks (d : jstr) :
  d <> [] ->
  exists chunks,
    splitEducationalContent d chunkSize overlap = Some chunks
    /\ Forall (fun c => nonBlank c = true) chunks
    /\ ordered d 0 (length (visible d)) chunks
    /\ (visible d <> [] -> chunks <> []).
Proof.
  intros Hne. unfold splitEducationalContent.
  destruct (qaLoop_ordered d qaPatterns Hne qaPatterns_lead) as (chunks & Hrun & Hnb & Hord).
  rewrite Hrun. destruct chunks as [|ch chunks].
  - destruct (splitSection_ordered chunkSize overlap overlap_small overlap_less d)
      as (cs & Hcs & Hcnb & Hcord).
    exists cs. split; [exact Hcs|]. split; [exact Hcnb|]. split; [exact Hcord|].
    intros Hv E. subst cs.
    exact (splitSection_covers chunkSize overlap overlap_small overlap_less d Hv Hcs).
  - exists (filter nonBlank (ch :: chunks)). split; [reflexivity|].
    split; [apply filter_nonBlank_all|]. split; [apply ordered_filter; exact Hord|].
    intros _. simpl. inversion Hnb as [|? ? Hch _]. rewrite Hch. discriminate.
Qed.

End ChunkSizes.

(** C7, as the code has it: [chunk] returns, whatever the text; every chunk
    is non-empty after trimming; the chunks lie in the source text from left
    to right, blanks aside; and there is a chunk exactly when the text has a
    code unit that is not blank. *)
Theorem chunk_layout (text : jstr) :
  exists chunks,
    chunk text = Some chunks
    /\ Forall (fun c => nonBlank c = true) chunks
    /\ (chunks = [] <-> visible text = [])
    /\ inDocumentOrder text chunks.
Proof.
  unfold chunk, splitTextIntoChunks. cbv zeta.
  destruct (visible text) as [|v0 vs] eqn:Ev.
  - rewrite (cleanText_blank text Ev). exists [].
    split; [vm_compute; reflexivity|]. split; [constructor|]. split; [tauto|].
    exists []. split; constructor.
  - pose proof (cleanText_visible text) as Hclean.
    set (d := cleanText text) in *.
    assert (Hd : d <> []).
    { intros E. rewrite E, Ev in Hclean. discriminate. }
    assert (Hv : visible d <> []) by (rewrite Hclean, Ev; discriminate).
    assert (H : exists chunks,
               (if isEducationalDocument d
                then splitEducationalContent d 1000 200
                else option_map (filter nonBlank)
                       (sectionChunks (splitIntoSections d) 1000 200)) = Some chunks
               /\ Forall (fun c => nonBlank c = true) chunks
               /\ ordered d 0 (length (visible d)) chunks
               /\ (visible d <> [] -> chunks <> [])).
    { destruct (isEducationalDocument d).
      - apply educational_chunks; [lia|lia|exact Hd].
      - apply sections_chunks; lia. }
    destruct H as (chunks & Hrun & Hnb & Hord & Hne).
    exists chunks. split; [exact Hrun|]. split; [exact Hnb|]. split.
    + split; [intros E; exfalso; exact (Hne Hv E)|discriminate].
    + rewrite Ev in Hclean.
      apply (ordered_inDocumentOrder text 0 (length (visible d))).
      apply ordered_same_text with d; [|exact Hord].
      rewrite Hclean. symmetry. exact Ev.
Qed.

(** C7 as stated fails: a text without a visible code unit has no chunk. *)
Lemma chunk_of_blank_text :
  chunk [] = Some [] /\ chunk (lit "   ") = Some [].
Proof. split; vm_compute; reflexivity. Qed.

End ChunkerFacts.

(** ** MemStorage.deleteDocument *)

Module StorageFacts.
Import JS JSFacts Storage Samples.

Lemma mapDelete_In {V} (m : Map V) (k k' : jstr) (v : V) :
  In (k', v) (mapDelete m k) <-> In (k', v) m /\ k' <> k.
Proof.
  unfold mapDelete. rewrite filter_In. simpl.
  rewrite negb_true_iff, streq_neq. reflexivity.
Qed.

Lemma mapGet_delete_same {V} (m : Map V) (k : jstr) : mapGet (mapDelete m k) k = None.
Proof.
  unfold mapGet, mapDelete.
  destruct (find _ _) as [kv|] eqn:E; [|reflexivity].
  apply find_some in E. destruct E as [Hin Hk].
  apply filter_In in Hin. destruct Hin as [_ Hn].
  rewrite Hk in Hn. discriminate.
Qed.

Lemma mapGet_delete_other {V} (m : Map V) (k k' : jstr) :
  k' <> k -> mapGet (mapDelete m k) k' = mapGet m k'.
Proof.
  intros Hne. unfold mapGet, mapDelete. f_equal.
  induction m as [|[k0 v0] m IH]; simpl; [reflexivity|].
  destruct (streq k0 k) eqn:E0; simpl.
  - apply streq_eq in E0. subst k0.
    destruct (streq k k') eqn:E1; [apply streq_eq in E1; congruence|exact IH].
  - destruct (streq k0 k'); [reflexivity|exact IH].
Qed.

(** The loop of [deleteDocumentChunks], whatever list of entries it runs
    over: an entry of the map stays unless the loop met an entry with its
    key whose chunk belongs to the document. *)
Lemma deleteLoop_filter (docId : jstr) (entries m : Map DocumentChunk) :
  fold_left
    (fun m (e : jstr * DocumentChunk) =>
       if streq (documentId (snd e)) docId then mapDelete m (fst e) else m)
    entries m
  = filter (fun kv => negb (existsb (fun e => streq (fst kv) (fst e)
                                              && streq (documentId (snd e)) docId)
                                    entries)) m.
Proof.
  revert m. induction entries as [|e entries IH]; intros m; simpl.
  - induction m as [|kv m IHm]; simpl; [reflexivity|]. f_equal. exact IHm.
  - rewrite IH. clear IH.
    destruct (streq (documentId (snd e)) docId) eqn:E.
    + unfold mapDelete.
      induction m as [|kv m IHm]; simpl; [reflexivity|].
      rewrite andb_true_r.
      destruct (streq (fst kv) (fst e)); simpl; [exact IHm|].
      destruct (existsb _ entries); simpl; [exact IHm|]. f_equal. exact IHm.
    + apply filter_ext. intros kv. rewrite andb_false_r. reflexivity.
Qed.

Lemma deleteDocumentChunks_filter (st : MemStorage) (docId : jstr) :
  uniqueKeys (documentChunks st) ->
  documentChunks (deleteDocumentChunks st docId)
  = filter (fun kv => negb (streq (documentId (snd kv)) docId)) (documentChunks st).
Proof.
  intros Hu. unfold deleteDocumentChunks, mapEntries. simpl.
  rewrite deleteLoop_filter.
  apply filter_ext_in. intros kv Hin. f_equal.
  destruct (streq (documentId (snd kv)) docId) eqn:E.
  - apply existsb_exists. exists kv. split; [exact Hin|].
    rewrite streq_refl, E. reflexivity.
  - destruct (existsb _ _) eqn:Ex; [|reflexivity].
    apply existsb_exists in Ex. destruct Ex as [e [He Hc]].
    apply andb_true_iff in Hc. destruct Hc as [Hk Hd].
    apply streq_eq in Hk.
    assert (e = kv) as ->.
    { clear - Hu Hin He Hk. unfold uniqueKeys in Hu.
      induction (documentChunks st) as [|x m IH]; [contradiction|].
      simpl in Hu. inversion Hu as [|? ? Hnot Hu']; subst.
      destruct Hin as [->|Hin], He as [->|He].
      - reflexivity.
      - exfalso. apply Hnot. rewrite Hk. apply in_map. exact He.
      - exfalso. apply Hnot. rewrite <- Hk. apply in_map. exact Hin.
      - apply IH; assumption. }
    congruence.
Qed.

(** C10.  [deleteDocument id] removes the document [id] and the chunks
    whose [documentId] is [id]; every other document and chunk, the order of
    the chunks and the query records stay as they were; it is a total
    function, so it completes whether or not a document [id] exists (and
    then changes nothing but chunks that name [id]). *)
Theorem deleteDocument_frame (st : MemStorage) (id : jstr) :
  uniqueKeys (documentChunks st) ->
  let st' := deleteDocument st id in
  getDocument st' id = None
  /\ (forall k, k <> id -> getDocument st' k = getDocument st k)
  /\ (forall k d, In (k, d) (documents st') <-> In (k, d) (documents st) /\ k <> id)
  /\ (forall k c, In (k, c) (documentChunks st')
                  <-> In (k, c) (documentChunks st) /\ documentId c <> id)
  /\ documentChunks st'
     = filter (fun kv => negb (streq (documentId (snd kv)) id)) (documentChunks st)
  /\ queries st' = queries st
  /\ (getDocument st id = None -> documents st' = documents st).
Proof.
  intros Hu st'.
  assert (Hc : documentChunks st'
               = filter (fun kv => negb (streq (documentId (snd kv)) id))
                        (documentChunks st)).
  { unfold st', deleteDocument. rewrite deleteDocumentChunks_filter; [reflexivity|exact Hu]. }
  split; [apply mapGet_delete_same|].
  split; [intros k Hk; apply mapGet_delete_other; exact Hk|].
  split; [intros k d; apply (mapDelete_In (documents st) id k d)|].
  split.
  { intros k c. rewrite Hc, filter_In. simpl.
    rewrite negb_true_iff, streq_neq. reflexivity. }
  split; [exact Hc|].
  split; [reflexivity|].
  intros Hnone. unfold st', deleteDocument, deleteDocumentChunks. simpl.
  unfold getDocument, mapGet in Hnone. unfold mapDelete.
  induction (documents st) as [|kv m IH]; simpl; [reflexivity|].
  simpl in Hnone. destruct (streq (fst kv) id) eqn:E; simpl in *.
  - discriminate.
  - f_equal. apply IH. exact Hnone.
Qed.

Lemma uniqueKeys_filter {V} (f : jstr * V -> bool) (m : Map V) :
  uniqueKeys m -> uniqueKeys (filter f m).
Proof.
  unfold uniqueKeys. induction m as [|kv m IH]; simpl; intros Hu; [constructor|].
  inversion Hu as [|? ? Hnot Hu']; subst.
  destruct (f kv); simpl.
  - constructor; [|apply IH; exact Hu'].
    intros Hin. apply Hnot. apply in_map_iff in Hin.
    destruct Hin as [x [Hx Hin]]. apply filter_In in Hin.
    apply in_map_iff. exists x. tauto.
  - apply IH; exact Hu'.
Qed.

(** Deleting keeps the keys of the chunk map unique. *)
Lemma deleteDocument_uniqueKeys (st : MemStorage) (id : jstr) :
  uniqueKeys (documentChunks st) ->
  uniqueKeys (documentChunks (deleteDocument st id)).
Proof.
  intros Hu. unfold deleteDocument.
  rewrite deleteDocumentChunks_filter; [|exact Hu].
  apply uniqueKeys_filter. exact Hu.
Qed.

Lemma deleteDocument_frame_witness :
  uniqueKeys (documentChunks sampleStore)
  /\ documentChunks (deleteDocument sampleStore "d2")
     = [("c1" : jstr, mkChunk "c1" "d1" 0 "Skills: Rocq" None)]
  /\ queries (deleteDocument sampleStore "d2") = queries sampleStore.
Proof.
  assert (Hu : uniqueKeys (documentChunks sampleStore)).
  { unfold uniqueKeys. simpl.
    repeat constructor; simpl; intuition discriminate. }
  destruct (deleteDocument_frame sampleStore "d2" Hu) as (_ & _ & _ & _ & Hc & Hq & _).
  split; [exact Hu|]. split; [rewrite Hc; reflexivity|exact Hq].
Defined.

End StorageFacts.

(** ** The query tokens: [split(/\s+/)] and the length filter *)

Module TokenFacts.
Import JS JSFacts RegExp RegExpSpec RegExpFacts.

Lemma blanks_ast :
  ast blanks = RSeq (RQuant (RClass false [CSpace false]) 1 None true) REmpty
  /\ ignoreCase blanks = false /\ ngroups blanks = 0.
Proof. repeat split; vm_compute; reflexivity. Qed.

Lemma class_blank (c : ascii) : classMatch false false [CSpace false] c = isSpace c.
Proof.
  unfold classMatch, inSet. simpl. destruct (isSpace c); reflexivity.
Qed.

Lemma dropBlanks_length (s : jstr) : length (dropBlanks s) <= length s.
Proof.
  induction s as [|c s IH]; simpl; [lia|]. destruct (isSpace c); simpl; lia.
Qed.

Lemma class_step (x : mstate) (k : mstate -> option mstate) :
  matcher false (RClass false [CSpace false]) x k = step isSpace x k.
Proof.
  cbn [matcher]. unfold step. destruct (rest x); [reflexivity|].
  rewrite class_blank. reflexivity.
Qed.

(** The greedy loop of [\s+] once its minimum is reached: it stops after
    the blanks. *)
Lemma blanks_loop (m : mstate -> (mstate -> option mstate) -> option mstate)
  (k : mstate -> option mstate) :
  (forall x k', m x k' = step isSpace x k') ->
  (forall y, k y = Some y) ->
  forall fuel x,
    length (rest x) < fuel ->
    exists y,
      repeatMatcher m [] true k fuel 0 None x = Some y
      /\ rest y = dropBlanks (rest x)
      /\ pos y = pos x + (length (rest x) - length (dropBlanks (rest x))).
Proof.
  intros Hm Hk. induction fuel as [|fuel IH]; intros x Hfuel; [lia|].
  cbn [repeatMatcher]. cbv zeta. cbn [Nat.eqb negb andb].
  rewrite Hm. unfold step. cbn [clearCaps rest pos prev caps].
  destruct (rest x) as [|a t] eqn:Er.
  - simpl. rewrite Hk. exists x. rewrite Er. simpl.
    split; [reflexivity|]. split; [reflexivity|lia].
  - cbn [dropBlanks]. destruct (isSpace a) eqn:Ea.
    + cbn [pos]. rewrite (proj2 (Nat.eqb_neq (S (pos x)) (pos x))) by lia.
      cbn [Nat.pred option_map].
      set (y0 := mkState t (S (pos x)) (Some a) _).
      destruct (IH y0) as (y & Hy & Hr & Hp); [simpl in *; lia|].
      rewrite Hy. simpl. exists y. split; [reflexivity|].
      split; [exact Hr|]. rewrite Hp. unfold y0. cbn [pos rest].
      replace (length (a :: t)) with (S (length t)) by reflexivity.
      pose proof (dropBlanks_length t). destruct (length (dropBlanks t)); lia.
    + simpl. rewrite Hk. exists x. rewrite Er. split; [reflexivity|].
      split; [reflexivity|]. simpl. lia.
Qed.

(** A match of [\s+] at a position: none before a code unit that is not
    blank, else up to the end of the blanks. *)
Lemma matchAt_blanks (s : jstr) (q : nat) (pv : option ascii) :
  match s with
  | a :: t =>
      if isSpace a
      then exists y, matchAt blanks s q pv = Some y
                     /\ rest y = dropBlanks t
                     /\ pos y = S q + (length t - length (dropBlanks t))
      else matchAt blanks s q pv = None
  | [] => matchAt blanks s q pv = None
  end.
Proof.
  destruct blanks_ast as (Hast & Hic & _).
  unfold matchAt. rewrite Hast, Hic.
  change (matcher false (RSeq (RQuant (RClass false [CSpace false]) 1 None true) REmpty)
            (mkState s q pv noCaps) Some)
    with (repeatMatcher (matcher false (RClass false [CSpace false])) [] true
            (fun y => matcher false REmpty y Some)
            (1 + length s + 1) 1 None (mkState s q pv noCaps)).
  destruct s as [|a t].
  - reflexivity.
  - replace (1 + length (a :: t) + 1) with (S (S (S (length t)))) by (simpl; lia).
    cbn [repeatMatcher]. cbv zeta. cbn [Nat.eqb negb].
    rewrite class_step. unfold step. cbn [clearCaps rest pos prev caps].
    destruct (isSpace a); [|reflexivity].
    cbn [andb Nat.pred option_map].
    set (y0 := mkState t (S q) (Some a) _).
    destruct (blanks_loop (matcher false (RClass false [CSpace false]))
                (fun y => matcher false REmpty y Some) class_step (fun y => eq_refl)
                (S (S (length t))) y0) as (y & Hy & Hr & Hp); [simpl; lia|].
    exists y. split; [exact Hy|]. split; [exact Hr|exact Hp].
Qed.

Lemma tokens_dropBlanks (s : jstr) :
  filter longWord (Spec.splitOnWhitespace s []) = filter longWord (Spec.splitOnWhitespace (dropBlanks s) []).
Proof.
  induction s as [|c s IH]; [reflexivity|].
  cbn [dropBlanks]. destruct (isSpace c) eqn:Ec; [|reflexivity].
  cbn [Spec.splitOnWhitespace]. rewrite Ec. cbn [filter longWord length Nat.ltb Nat.leb].
  exact IH.
Qed.

Lemma substring_snoc (input : jstr) (p q : nat) (a : ascii) (t : jstr) :
  p <= q -> skipn q input = a :: t ->
  substring input p (S q) = substring input p q ++ [a].
Proof.
  intros Hpq Hs. unfold substring.
  assert (Hq : q < length input) by (apply (skipn_cons_inv _ _ _ _ Hs)).
  rewrite <- (firstn_skipn (q - p) (skipn p input)) at 1.
  rewrite skipn_skipn. replace (q - p + p) with q by lia. rewrite Hs.
  assert (Hl : length (firstn (q - p) (skipn p input)) = q - p).
  { rewrite length_firstn, length_skipn. lia. }
  rewrite firstn_app, Hl. rewrite firstn_firstn.
  replace (Nat.min (S q - p) (q - p)) with (q - p) by lia.
  replace (S q - p - (q - p)) with 1 by lia. reflexivity.
Qed.

(** The pieces [split(/\s+/)] gives from position [q] on, with the piece
    begun at [p], are those of a split at every blank, but for empty
    ones. *)
Lemma splitLoop_blanks (input : jstr) :
  forall fuel s q pv p,
    s = skipn q input -> p <= q -> q <= length input ->
    2 * length s + (if p <? q then 1 else 0) < fuel ->
    filter longWord (map (pieceText input) (splitLoop fuel blanks s q pv p))
    = filter longWord (Spec.splitOnWhitespace s (substring input p q)).
Proof.
  induction fuel as [|fuel IH]; intros s q pv p Hs Hpq Hq Hfuel; [lia|].
  cbn [splitLoop]. destruct s as [|a s'].
  - reflexivity.
  - symmetry in Hs. destruct (skipn_cons_inv _ _ _ _ Hs) as [Hlt Hs'].
    assert (Hskip : isSpace a = false ->
              filter longWord (map (pieceText input) (splitLoop fuel blanks s' (S q) (Some a) p))
              = filter longWord (Spec.splitOnWhitespace (a :: s') (substring input p q))).
    { intros Ea. cbn [Spec.splitOnWhitespace]. rewrite Ea.
      rewrite <- (substring_snoc input p q a s' Hpq Hs).
      apply IH; [symmetry; exact Hs'|lia|lia|].
      simpl length in Hfuel. destruct (p <? S q), (p <? q); lia. }
    pose proof (matchAt_blanks (a :: s') q pv) as Hm. cbv beta iota in Hm.
    destruct (isSpace a) eqn:Ea.
    + destruct Hm as (y & Hy & Hr & Hp). rewrite Hy.
      rewrite (proj2 (Nat.eqb_neq (pos y) p)) by lia.
      destruct blanks_ast as (_ & _ & Hng). rewrite Hng.
      cbn [seq map app Spec.splitOnWhitespace]. rewrite Ea.
      cbn [filter pieceText range fst snd].
      rewrite <- Hs in Hy.
      destruct (matchAt_rest blanks input q pv y Hq Hy) as (Hr' & Hqy & Hyl & _).
      assert (Htail :
        filter longWord (map (pieceText input) (splitLoop fuel blanks (rest y) (pos y) (prev y) (pos y)))
        = filter longWord (Spec.splitOnWhitespace s' [])).
      { rewrite IH; [|exact Hr'|lia|exact Hyl|].
        - unfold substring at 1. rewrite Nat.sub_diag. cbn [firstn].
          rewrite Hr. symmetry. apply tokens_dropBlanks.
        - rewrite Nat.ltb_irrefl, Hr.
          pose proof (dropBlanks_length s'). simpl length in Hfuel.
          destruct (p <? q); lia. }
      rewrite Htail. reflexivity.
    + rewrite Hm. apply Hskip. reflexivity.
Qed.

(** The code's query words are the specification's tokens. *)
Lemma queryWords_tokens (query : jstr) :
  QueryRoute.queryWords (toLowerCase query) = Spec.tokens query.
Proof.
  unfold QueryRoute.queryWords, Spec.tokens, splitTexts, splitRanges.
  change (literal "\s+" "") with blanks.
  change (fun word : jstr => 2 <? length word) with longWord.
  change (fun o : option (nat * nat) =>
            match o with Some ab => range (toLowerCase query) ab | None => [] end)
    with (pieceText (toLowerCase query)).
  destruct (toLowerCase query) as [|a t] eqn:E.
  - pose proof (matchAt_blanks [] 0 None) as Hm. cbv beta iota in Hm.
    rewrite Hm. reflexivity.
  - rewrite <- E.
    rewrite (splitLoop_blanks (toLowerCase query)); [reflexivity|reflexivity|lia|lia|].
    rewrite Nat.ltb_irrefl. lia.
Qed.

End TokenFacts.

(** ** Stage 1 of the search: the candidate set *)

Module Stage1Facts.
Import JS JSFacts Storage VectorService QueryRoute.

Lemma count_fold (p : jstr -> bool) (l : list jstr) (n : nat) :
  fold_left (fun s w => if p w then s + 1 else s) l n = n + length (filter p l).
Proof.
  revert n. induction l as [|w l IH]; intros n; simpl; [lia|].
  rewrite IH. destruct (p w); simpl; lia.
Qed.

Lemma matchScore_rawScore (query chunkText : jstr) :
  matchScore (toLowerCase chunkText) (toLowerCase query) = Spec.rawScore query chunkText.
Proof.
  unfold matchScore, Spec.rawScore. rewrite count_fold.
  rewrite TokenFacts.queryWords_tokens. reflexivity.
Qed.

Lemma isDefinitionQuery_style (query : jstr) :
  isDefinitionQuery (toLowerCase query) = Spec.definitionStyle query.
Proof.
  unfold isDefinitionQuery, Spec.definitionStyle, Spec.definitionPhrases.
  cbn [existsb]. rewrite orb_false_r, orb_assoc. reflexivity.
Qed.

Lemma hasDefinitionWords_hasMarker (chunkText : jstr) :
  hasDefinitionWords (toLowerCase chunkText) = true <-> Spec.hasMarker chunkText.
Proof.
  unfold hasDefinitionWords, Spec.hasMarker. rewrite existsb_exists. reflexivity.
Qed.

(** C4.  An entry is in the stage-1 candidate set exactly when it is the
    entry of a stored chunk whose raw score is positive and, for a
    definition-style query, whose lower-cased text has a definition marker;
    its score is the raw score, plus 2 for a definition-style query.  The
    raw score, the markers and the test for a definition-style query are the
    specification's ([Spec]), not the route's. *)
Theorem stage1_candidates (st : MemStorage) (query : jstr) (e : TextSearchResult) :
  In e (textSearchResults st query) <->
  In (ts_chunk e) (getAllChunks st)
  /\ ts_documentName e = documentNameOf st (documentId (ts_chunk e))
  /\ 0 < Spec.rawScore query (text (ts_chunk e))
  /\ if Spec.definitionStyle query
     then Spec.hasMarker (text (ts_chunk e))
          /\ score e = Spec.rawScore query (text (ts_chunk e)) + 2
     else score e = Spec.rawScore query (text (ts_chunk e)).
Proof.
  unfold textSearchResults. rewrite in_flat_map. split.
  - intros [c [Hc He]]. unfold textSearchStep in He.
    rewrite matchScore_rawScore, isDefinitionQuery_style in He.
    destruct (Spec.definitionStyle query).
    + destruct (0 <? Spec.rawScore query (text c)) eqn:Hpos; simpl in He;
        [|contradiction].
      destruct (hasDefinitionWords (toLowerCase (text c))) eqn:Hm; simpl in He;
        [|contradiction].
      destruct He as [<-|[]]. simpl.
      apply Nat.ltb_lt in Hpos. apply hasDefinitionWords_hasMarker in Hm.
      repeat split; assumption.
    + destruct (0 <? Spec.rawScore query (text c)) eqn:Hpos; simpl in He;
        [|contradiction].
      destruct He as [<-|[]]. simpl.
      apply Nat.ltb_lt in Hpos. repeat split; assumption.
  - intros (Hc & Hn & Hpos & Hs). exists (ts_chunk e). split; [exact Hc|].
    unfold textSearchStep. rewrite matchScore_rawScore, isDefinitionQuery_style.
    apply Nat.ltb_lt in Hpos. rewrite Hpos.
    destruct e as [c s n]. simpl in *. subst n.
    destruct (Spec.definitionStyle query).
    + destruct Hs as [Hm ->]. apply hasDefinitionWords_hasMarker in Hm.
      rewrite Hm. left. reflexivity.
    + subst s. left. reflexivity.
Qed.

(** The tokens of a query keep their punctuation and lose their case; a
    run of blanks gives no token. *)
Example tokens_of_question :
  Spec.tokens "What  is HTML?" = ["what" : jstr; "html?" : jstr]
  /\ Spec.definitionStyle "What is HTML?" = true
  /\ Spec.definitionStyle "What  is HTML?" = false.
Proof. vm_compute. repeat split. Qed.

(** A definition-style query on the sample store: its tokens are [what]
    and [html?] (the question mark stays in the token), so only the chunk
    that repeats the question has a positive raw score, 2, boosted to 4. *)
Example stage1_definition_query :
  map (fun e => (chunk_id (ts_chunk e), score e))
      (textSearchResults Samples.sampleStore "What is HTML?")
  = [("c2" : jstr, 4)].
Proof. vm_compute. reflexivity. Qed.

End Stage1Facts.

(** ** EmbeddingService.cosineSimilarity *)

Module CosineFacts.
Import EmbeddingService.
Local Open Scope R_scope.

Lemma cosineLoop_acc (a b : list R) (d na nb : R) :
  length a = length b ->
  fold_left
    (fun (acc : R * R * R) (ab : R * R) =>
       let '(dotProduct, normA, normB) := acc in
       (dotProduct + fst ab * snd ab, normA + fst ab * fst ab, normB + snd ab * snd ab))
    (combine a b) (d, na, nb)
  = (d + Spec.dotProduct a b, na + Spec.squaredNorm a, nb + Spec.squaredNorm b).
Proof.
  revert b d na nb. induction a as [|x a IH]; intros [|y b] d na nb Hlen;
    simpl in Hlen; try discriminate.
  - simpl. rewrite !Rplus_0_r. reflexivity.
  - simpl. rewrite IH by lia. f_equal; [f_equal|]; ring.
Qed.

Lemma cosineLoop_spec (a b : list R) :
  length a = length b ->
  cosineLoop a b = (Spec.dotProduct a b, Spec.squaredNorm a, Spec.squaredNorm b).
Proof.
  intros Hlen. unfold cosineLoop. rewrite cosineLoop_acc by exact Hlen.
  rewrite !Rplus_0_l. reflexivity.
Qed.

Lemma squaredNorm_nonneg (a : list R) : 0 <= Spec.squaredNorm a.
Proof.
  induction a as [|x a IH]; simpl; [lra|].
  pose proof (Rle_0_sqr x) as Hx. unfold Rsqr in Hx. lra.
Qed.

Lemma squaredNorm_zero (a : list R) :
  Spec.squaredNorm a = 0 -> Forall (fun x => x = 0) a.
Proof.
  induction a as [|x a IH]; simpl; intros H; constructor.
  - pose proof (Rle_0_sqr x) as Hx. unfold Rsqr in Hx.
    pose proof (squaredNorm_nonneg a) as Ha.
    assert (x * x = 0) as Hxx by lra.
    apply Rmult_integral in Hxx. tauto.
  - apply IH. pose proof (Rle_0_sqr x) as Hx. unfold Rsqr in Hx.
    pose proof (squaredNorm_nonneg a). lra.
Qed.

Lemma dotProduct_zero_l (a b : list R) :
  Forall (fun x => x = 0) a -> Spec.dotProduct a b = 0.
Proof.
  intros H. revert b. induction H as [|x a Hx _ IH]; intros b; [reflexivity|].
  destruct b as [|y b]; simpl; [reflexivity|]. rewrite IH, Hx. ring.
Qed.

Lemma dotProduct_zero_r (a b : list R) :
  Forall (fun x => x = 0) b -> Spec.dotProduct a b = 0.
Proof.
  intros H. revert a. induction H as [|y b Hy _ IH]; intros a.
  - destruct a; reflexivity.
  - destruct a as [|x a]; simpl; [reflexivity|]. rewrite IH, Hy. ring.
Qed.

(** A zero denominator forces a zero numerator, so the quotient that
    [divide] leaves to NaN is [0 / 0]. *)
Lemma cosine_zero_denominator (a b : list R) :
  Spec.euclideanNorm a * Spec.euclideanNorm b = 0 -> Spec.dotProduct a b = 0.
Proof.
  unfold Spec.euclideanNorm. intros H.
  apply Rmult_integral in H. destruct H as [H|H];
    apply sqrt_eq_0 in H; try apply squaredNorm_nonneg;
    apply squaredNorm_zero in H.
  - apply dotProduct_zero_l. exact H.
  - apply dotProduct_zero_r. exact H.
Qed.

(** In exact arithmetic [cosineSimilarity a b] is the dimension error
    exactly when the lengths differ; with equal lengths it is the dot product
    divided by the product of the Euclidean norms (NaN when that product is
    0). *)
Lemma cosineSimilarity_exact (a b : list R) :
  (cosineSimilarity a b = DimensionError <-> length a <> length b)
  /\ (cosineSimilarity a b
      = if Nat.eqb (length a) (length b)
        then Similarity (divide (Spec.dotProduct a b)
                                (Spec.euclideanNorm a * Spec.euclideanNorm b))
        else DimensionError).
Proof.
  unfold cosineSimilarity.
  destruct (Nat.eqb (length a) (length b)) eqn:E; simpl.
  - apply Nat.eqb_eq in E. rewrite cosineLoop_spec by exact E.
    split; [|reflexivity]. split; [discriminate|intros H; contradiction].
  - apply Nat.eqb_neq in E. split; [|reflexivity]. split; [intros _; exact E|reflexivity].
Qed.

(** The specification's check, in exact arithmetic: a non-zero vector is
    at similarity 1 from itself. *)
Lemma cosineSimilarity_self (v : list R) :
  Spec.squaredNorm v <> 0 -> cosineSimilarity v v = Similarity (Num 1).
Proof.
  intros Hv. unfold cosineSimilarity. rewrite Nat.eqb_refl. simpl.
  rewrite cosineLoop_spec by reflexivity.
  assert (Hd : Spec.dotProduct v v = Spec.squaredNorm v).
  { clear Hv. induction v as [|x v IH]; simpl; [reflexivity|]. rewrite IH. reflexivity. }
  rewrite Hd, sqrt_sqrt by apply squaredNorm_nonneg.
  unfold divide. destruct (Req_EM_T (Spec.squaredNorm v) 0) as [E|_]; [contradiction|].
  f_equal. f_equal. field. exact Hv.
Qed.

Example cosineSimilarity_mismatch :
  cosineSimilarity [1; 0] [1] = DimensionError.
Proof. reflexivity. Qed.

End CosineFacts.

(** ** EmbeddingService.cosineSimilarity in double arithmetic *)

Module DoublesFacts.
Import Floats Doubles.
Local Open Scope float_scope.

(** The product of two doubles does not depend on their order. *)
Lemma double_mul_comm (x y : float) : x * y = y * x.
Proof.
  apply Prim2SF_inj. rewrite !mul_spec.
  destruct (Prim2SF x) as [sx|sx| |sx mx ex], (Prim2SF y) as [sy|sy| |sy my ey];
    cbn [SF64mul SFmul]; try reflexivity; try (rewrite xorb_comm; reflexivity).
  rewrite xorb_comm, Pos.mul_comm, Z.add_comm. reflexivity.
Qed.

(** The three sums of the loop, one by one. *)
Lemma cosineLoop_sums (a b : list float) (d na nb : float) :
  length a = length b ->
  fold_left
    (fun (acc : float * float * float) (ab : float * float) =>
       let '(dotProduct, normA, normB) := acc in
       (dotProduct + fst ab * snd ab, normA + fst ab * fst ab, normB + snd ab * snd ab))
    (combine a b) (d, na, nb)
  = (Spec64.sumFrom d (Spec64.products a b),
     Spec64.sumFrom na (Spec64.products a a),
     Spec64.sumFrom nb (Spec64.products b b)).
Proof.
  revert b d na nb. induction a as [|x a IH]; intros [|y b] d na nb Hlen;
    try discriminate; [reflexivity|].
  cbn [combine fold_left fst snd Spec64.products Spec64.sumFrom].
  apply IH. injection Hlen as Hlen. exact Hlen.
Qed.

Lemma products_comm (a b : list float) : Spec64.products a b = Spec64.products b a.
Proof.
  revert b. induction a as [|x a IH]; intros [|y b]; try reflexivity.
  cbn [Spec64.products]. rewrite IH, double_mul_comm. reflexivity.
Qed.





(** X17.  In double arithmetic too the similarity does not depend on the
    order of the two vectors, and a vector whose components are all zero
    (of either sign) has the similarity NaN to itself. *)
Theorem cosineSimilarity_symmetric (a b : list float) :
  cosineSimilarity a b = cosineSimilarity b a
  /\ (Forall (fun x => x = 0 \/ x = -0) a -> cosineSimilarity a a = Similarity nan).
Proof.
  split.
  - unfold cosineSimilarity, cosineLoop.
    destruct (Nat.eqb_spec (length a) (length b)) as [E|E].
    + rewrite (proj2 (Nat.eqb_eq _ _) (eq_sym E)). cbn [negb].
      rewrite cosineLoop_sums by exact E.
      rewrite cosineLoop_sums by (symmetry; exact E).
      rewrite (products_comm b a), (double_mul_comm (PrimFloat.sqrt _)). reflexivity.
    + rewrite (proj2 (Nat.eqb_neq _ _) (fun H => E (eq_sym H))). reflexivity.
  - intros Hz. unfold cosineSimilarity, cosineLoop. rewrite Nat.eqb_refl. cbn [negb].
    rewrite cosineLoop_sums by reflexivity.
    assert (H : Spec64.sumFrom 0 (Spec64.products a a) = 0).
    { induction Hz as [|x a Hx Hz IH]; [reflexivity|].
      cbn [Spec64.products Spec64.sumFrom].
      destruct Hx as [-> | ->]; exact IH. }
    rewrite H. reflexivity.
Qed.

End DoublesFacts.

(** ** Sorting *)

Module SortFacts.
Import Sort.

Lemma firstn_In {A} (n : nat) (l : list A) (x : A) : In x (firstn n l) -> In x l.
Proof.
  intros H. rewrite <- (firstn_skipn n l). apply in_or_app. left. exact H.
Qed.

Lemma insertBy_perm {A} (p : A -> A -> bool) (x : A) (l : list A) :
  Permutation (insertBy p x l) (x :: l).
Proof.
  induction l as [|y l IH]; simpl; [apply Permutation_refl|].
  destruct (p x y); [apply Permutation_refl|].
  eapply perm_trans; [apply perm_skip, IH|apply perm_swap].
Qed.

Lemma sortBy_perm {A} (p : A -> A -> bool) (l : list A) :
  Permutation (sortBy p l) l.
Proof.
  induction l as [|x l IH]; simpl; [constructor|].
  eapply perm_trans; [apply insertBy_perm|apply perm_skip, IH].
Qed.

Lemma sortBy_In {A} (p : A -> A -> bool) (l : list A) (x : A) :
  In x (sortBy p l) <-> In x l.
Proof.
  split; apply Permutation_in; [|apply Permutation_sym]; apply sortBy_perm.
Qed.

Lemma sortBy_length {A} (p : A -> A -> bool) (l : list A) :
  length (sortBy p l) = length l.
Proof. apply Permutation_length, sortBy_perm. Qed.

Section Descending.

Variable A : Type.
Variable key : A -> R.

Local Abbreviation notBelow := (Sort.notBelow key).

Lemma insert_descending (x : A) (l : list A) :
  StronglySorted notBelow l -> StronglySorted notBelow (insertBy (descR key) x l).
Proof.
  induction l as [|y l IH]; intros Hs; simpl.
  - constructor; constructor.
  - inversion Hs as [|? ? Hs' Hall]; subst.
    unfold descR at 1. destruct (Rle_dec (key y) (key x)) as [Hle|Hgt].
    + constructor; [exact Hs|]. constructor; [exact Hle|].
      eapply Forall_impl; [|exact Hall]. unfold Sort.notBelow in *. intros z Hz. lra.
    + constructor; [apply IH; exact Hs'|].
      eapply Permutation_Forall; [apply Permutation_sym, insertBy_perm|].
      constructor; [unfold Sort.notBelow; lra|exact Hall].
Qed.

Lemma sortBy_descending (l : list A) :
  StronglySorted notBelow (sortBy (descR key) l).
Proof.
  induction l as [|x l IH]; simpl; [constructor|].
  apply insert_descending. exact IH.
Qed.

Lemma firstn_sorted (n : nat) (l : list A) :
  StronglySorted notBelow l -> StronglySorted notBelow (firstn n l).
Proof.
  revert n. induction l as [|x l IH]; intros [|n] Hs; simpl; try constructor.
  - apply IH. inversion Hs; assumption.
  - inversion Hs as [|? ? _ Hall]; subst.
    rewrite Forall_forall in *. intros z Hz. apply Hall.
    eapply firstn_In; exact Hz.
Qed.

End Descending.

End SortFacts.

(** ** Stage 2 of the search *)

Module Stage2Facts.
Import JS JSFacts Storage EmbeddingService VectorService QueryRoute SortFacts.
Local Open Scope R_scope.

Section WithParser.

Variable JSON_parse : jstr -> option (list R).

Lemma similarityOf_qualifies (st : MemStorage) (qe : list R) (threshold : R)
  (r : SimilarityResult) :
  In r (flat_map (similarityOf JSON_parse st qe threshold) (getAllChunks st))
  <-> qualifies JSON_parse st qe threshold r.
Proof.
  rewrite in_flat_map. unfold qualifies. split.
  - intros [c [Hc Hr]]. unfold similarityOf in Hr.
    destruct (embedding c) as [e|] eqn:He; [|contradiction].
    destruct (isEmpty e) eqn:Hempty; [contradiction|].
    destruct (JSON_parse e) as [v|] eqn:Hv; [|contradiction].
    destruct (cosineSimilarity qe v) as [[s|]|] eqn:Hs; try contradiction.
    destruct (Rle_dec threshold s) as [Hle|]; [|contradiction].
    destruct Hr as [<-|[]]. simpl.
    split; [exact Hc|]. split; [reflexivity|].
    exists e, v. repeat split; try assumption.
    intros ->. discriminate.
  - intros (Hc & Hn & e & v & He & Hne & Hv & Hs & Hle).
    exists (chunk r). split; [exact Hc|].
    unfold similarityOf. rewrite He.
    destruct (isEmpty e) eqn:Hempty; [apply isEmpty_nil in Hempty; contradiction|].
    rewrite Hv, Hs.
    destruct (Rle_dec threshold (similarity r)) as [_|Hn']; [|contradiction].
    left. destruct r; simpl in *. subst. reflexivity.
Qed.

(** C3.  The route calls the vector search, once and with top-K 10 and
    threshold 0.1, exactly when stage 1 found fewer than 3 chunks; what it
    returns is put after the stage-1 list as it is.  The vector search
    returns the first 10 of the qualifying chunks in descending order of
    similarity. *)
Theorem stage2_appended (st : MemStorage) (query : jstr) (queryEmbedding : list R) :
  let stage1 := textSearch st query in
  let vector := searchSimilarChunks JSON_parse st queryEmbedding 10 (1 / 10) in
  let found := retrieve JSON_parse st query queryEmbedding in
  (snd found = [SearchSimilarChunks queryEmbedding 10 (1 / 10)]
   <-> (length stage1 < 3)%nat)
  /\ (snd found = [] <-> (3 <= length stage1)%nat)
  /\ fst found = stage1 ++ (if (length stage1 <? 3)%nat then vector else [])
  /\ (length vector <= 10)%nat
  /\ exists qualifying,
       vector = firstn 10 qualifying
       /\ StronglySorted (Sort.notBelow similarity) qualifying
       /\ forall r, In r qualifying
                    <-> qualifies JSON_parse st queryEmbedding (1 / 10) r.
Proof.
  intros stage1 vector found. unfold found, retrieve. fold stage1. fold vector.
  destruct (length stage1 <? 3)%nat eqn:E; simpl.
  - apply Nat.ltb_lt in E.
    split; [tauto|]. split; [split; [discriminate|lia]|].
    split; [reflexivity|]. split; [apply firstn_le_length|].
    exists (Sort.sortBy (Sort.descR similarity)
              (flat_map (similarityOf JSON_parse st queryEmbedding (1 / 10))
                        (getAllChunks st))).
    split; [reflexivity|]. split; [apply sortBy_descending|].
    intros r. rewrite sortBy_In. apply similarityOf_qualifies.
  - apply Nat.ltb_ge in E.
    split; [split; [discriminate|lia]|]. split; [tauto|].
    split; [rewrite app_nil_r; reflexivity|]. split; [apply firstn_le_length|].
    exists (Sort.sortBy (Sort.descR similarity)
              (flat_map (similarityOf JSON_parse st queryEmbedding (1 / 10))
                        (getAllChunks st))).
    split; [reflexivity|]. split; [apply sortBy_descending|].
    intros r. rewrite sortBy_In. apply similarityOf_qualifies.
Qed.

End WithParser.

(** Appended, not merged: the chunk of this store is found by both stages
    and is twice in the list. *)
Example stage2_keeps_duplicates :
  map (fun r => (chunk_id (chunk r), similarity r))
      (fst (retrieve Samples.parseOne Samples.vectorStore "cat" [1]))
  = [("c1" : jstr, 1 / 10); ("c1" : jstr, 1)].
Proof.
  unfold retrieve.
  assert (H1 : textSearch Samples.vectorStore "cat"
               = [mkResult (mkChunk "c1" "d1" 0 "cat" (Some ("[1]" : jstr)))
                           (1 / 10) "cat.pdf"]).
  { unfold textSearch.
    assert (H : textSearchResults Samples.vectorStore "cat"
                = [mkText (mkChunk "c1" "d1" 0 "cat" (Some ("[1]" : jstr))) 1 "cat.pdf"])
      by (vm_compute; reflexivity).
    rewrite H. simpl. reflexivity. }
  rewrite H1.
  assert (H2 : searchSimilarChunks Samples.parseOne Samples.vectorStore [1] 10 (1 / 10)
               = [mkResult (mkChunk "c1" "d1" 0 "cat" (Some ("[1]" : jstr))) 1 "cat.pdf"]).
  { unfold searchSimilarChunks, getAllChunks, mapValues, Samples.vectorStore.
    cbn [map snd documentChunks flat_map similarityOf embedding].
    change (isEmpty ("[1]" : jstr)) with false. cbv iota.
    change (Samples.parseOne ("[1]" : jstr)) with (Some [1]). cbv iota.
    rewrite CosineFacts.cosineSimilarity_self by (simpl; lra).
    destruct (Rle_dec (1 / 10) 1) as [_|Hn]; [|exfalso; lra].
    reflexivity. }
  simpl length. change (1 <? 3)%nat with true. cbv iota. rewrite H2. reflexivity.
Qed.

End Stage2Facts.

(** ** Sources of a response *)

Module SourceFacts.
Import JS Storage EmbeddingService VectorService QueryRoute Samples.
Local Open Scope R_scope.

Lemma Math_round_half (z : Z) : Math_round (IZR z) = z.
Proof.
  unfold Math_round. symmetry. apply Int_part_spec. lra.
Qed.

(** The label is read off the similarity by the four bands. *)
Lemma relevance_bands (s : R) :
  (9 / 10 < s -> relevanceOf s = "Very High")
  /\ (8 / 10 < s <= 9 / 10 -> relevanceOf s = "High")
  /\ (7 / 10 < s <= 8 / 10 -> relevanceOf s = "Medium")
  /\ (s <= 7 / 10 -> relevanceOf s = "Low").
Proof.
  unfold relevanceOf.
  destruct (Rlt_dec (9 / 10) s), (Rlt_dec (8 / 10) s), (Rlt_dec (7 / 10) s);
    repeat split; intros; try reflexivity; lra.
Qed.

Lemma catStore_textSearch :
  textSearch catStore catQuery
  = [mkResult (mkChunk "c1" "d1" 0 "cat" None) (11 / 10) "cat.pdf"].
Proof.
  unfold textSearch.
  assert (H : textSearchResults catStore catQuery
              = [mkText (mkChunk "c1" "d1" 0 "cat" None) 11 "cat.pdf"])
    by (vm_compute; reflexivity).
  rewrite H. simpl. f_equal. f_equal. lra.
Qed.

(** C5 fails on the code.  A query of eleven words, each found in the
    chunk, gives the stage-1 score 11 and the similarity 11/10: the source
    of the response carries 1.1, outside [0, 1] (its label is the top
    band). *)
Theorem similarity_above_one :
  map (fun s => (src_similarity s, relevance s))
      (sourcesOf (fst (retrieve (fun _ => None) catStore catQuery [])))
  = [(11 / 10, "Very High" : jstr)]
  /\ 1 < 11 / 10.
Proof.
  split; [|lra].
  unfold retrieve. rewrite catStore_textSearch. simpl.
  unfold formatSource, relevanceOf. simpl.
  destruct (Rlt_dec (9 / 10) (11 / 10)) as [_|Hn]; [|exfalso; lra].
  replace (11 / 10 * 100) with (IZR 110) by lra.
  rewrite Math_round_half. f_equal. f_equal. lra.
Qed.

End SourceFacts.

(** ** extractInformationFromContext *)

Module RunFacts.
Import Run.
Local Open Scope js_scope.

Lemma oblivious_ret {A} (a : A) : oblivious (ret a).
Proof.
  exists (Ok a), []. intros [st c]. unfold ret. simpl. rewrite app_nil_r. reflexivity.
Qed.

Lemma oblivious_throw {A} (e : jserror) : oblivious (@throw A e).
Proof.
  exists (Throw e), []. intros [st c]. unfold throw. simpl. rewrite app_nil_r. reflexivity.
Qed.

Lemma oblivious_log (msg : jstr) : oblivious (log msg).
Proof. exists (Ok tt), [msg]. intros w. reflexivity. Qed.

Lemma oblivious_bind {A B} (m : M A) (f : A -> M B) :
  oblivious m -> (forall a, oblivious (f a)) -> oblivious (bind m f).
Proof.
  intros (r & l1 & Hm) Hf. destruct r as [a|e].
  - destruct (Hf a) as (r2 & l2 & Hfa). exists r2, (l1 ++ l2).
    intros w. unfold bind. rewrite Hm, Hfa. simpl. rewrite app_assoc. reflexivity.
  - exists (Throw e), l1. intros w. unfold bind. rewrite Hm. reflexivity.
Qed.

(** The result of an oblivious computation is the same in every world. *)
Lemma oblivious_answer {A} (m : M A) (w w' : World) :
  oblivious m -> answer m w = answer m w'.
Proof. intros (r & l & H). unfold answer. rewrite !H. reflexivity. Qed.

Lemma oblivious_run {A} (m : M A) (w0 w : World) :
  oblivious m ->
  exists lines, m w = (answer m w0, mkWorld (storage w) (console w ++ lines)).
Proof.
  intros (r & l & H). exists l. unfold answer. rewrite !H. reflexivity.
Qed.

End RunFacts.

(** Breaks a goal [oblivious m] along the structure of [m]. *)
Ltac oblivious_step :=
  first
    [ apply RunFacts.oblivious_ret
    | apply RunFacts.oblivious_throw
    | apply RunFacts.oblivious_log
    | apply RunFacts.oblivious_bind; [|intros ?]
    | match goal with
      | |- Run.oblivious (if ?b then _ else _) => destruct b
      | |- Run.oblivious (match ?x with _ => _ end) => destruct x
      | |- Run.oblivious (let (_, _) := ?x in _) => destruct x
      end
    | progress cbv zeta ].

Ltac oblivious := repeat oblivious_step; auto.

Module ExtractorFacts.
Import JS JSFacts Run RunFacts Extractor.
Local Open Scope js_scope.

Lemma resolvePronoun_oblivious (context : jstr) (terms : list jstr) (subject : jstr) :
  oblivious (resolvePronoun context terms subject).
Proof. induction terms as [|term terms IH]; simpl; oblivious. Qed.

Lemma extractSubject_oblivious (context query lowerQuery : jstr) :
  oblivious (extractSubject context query lowerQuery).
Proof.
  unfold extractSubject. pose proof resolvePronoun_oblivious. oblivious.
Qed.

Lemma compileAll_oblivious (srcs : list jstr) : oblivious (compileAll srcs).
Proof. induction srcs as [|src srcs IH]; simpl; oblivious. Qed.

Lemma tryDefinitionPattern_oblivious (context lowerQuery subjectLower : jstr)
  (i : nat) (pattern : RegExp.RegExpObj) :
  oblivious (tryDefinitionPattern context lowerQuery subjectLower i pattern).
Proof. unfold tryDefinitionPattern. oblivious. Qed.

Lemma definitionLoop_oblivious (context lowerQuery subjectLower : jstr) (i : nat)
  (patterns : list RegExp.RegExpObj) :
  oblivious (definitionLoop context lowerQuery subjectLower i patterns).
Proof.
  revert i. induction patterns as [|pattern patterns IH]; intros i; simpl.
  - oblivious.
  - apply oblivious_bind; [apply tryDefinitionPattern_oblivious|].
    intros [result|]; [oblivious|apply IH].
Qed.

Lemma sentenceSearch_oblivious (context lowerQuery subject subjectLower : jstr) :
  oblivious (sentenceSearch context lowerQuery subject subjectLower).
Proof. unfold sentenceSearch. oblivious. Qed.

Lemma definitionBranch_oblivious (context lowerQuery : jstr) (subject : value) :
  oblivious (definitionBranch context lowerQuery subject).
Proof.
  unfold definitionBranch.
  pose proof compileAll_oblivious. pose proof definitionLoop_oblivious.
  pose proof sentenceSearch_oblivious. oblivious.
Qed.

Lemma projectListing_oblivious (context : jstr) : oblivious (projectListing context).
Proof. unfold projectListing. oblivious. Qed.

Lemma nameBranch_oblivious (context : jstr) : oblivious (nameBranch context).
Proof. unfold nameBranch. oblivious. Qed.

Lemma collegeLoop_oblivious (context : jstr) (i : nat) (patterns : list RegExp.RegExpObj) :
  oblivious (collegeLoop context i patterns).
Proof.
  revert i. induction patterns as [|pattern patterns IH]; intros i; simpl; oblivious.
Qed.

Lemma collegeBranch_oblivious (context : jstr) : oblivious (collegeBranch context).
Proof. unfold collegeBranch. pose proof collegeLoop_oblivious. oblivious. Qed.

Lemma firstGroup_oblivious (context : jstr) (patterns : list RegExp.RegExpObj) :
  oblivious (firstGroup context patterns).
Proof. induction patterns as [|pattern patterns IH]; simpl; oblivious. Qed.

Lemma projectDescription_oblivious (context lowerQuery : jstr) :
  oblivious (projectDescription context lowerQuery).
Proof. unfold projectDescription. oblivious. Qed.

Lemma genericFallback_oblivious (context lowerQuery : jstr) :
  oblivious (genericFallback context lowerQuery).
Proof. unfold genericFallback. oblivious. Qed.

Lemma orFallThrough_oblivious (guard : bool) (branch : M (option jstr)) (next : M jstr) :
  oblivious branch -> oblivious next -> oblivious (orFallThrough guard branch next).
Proof. intros Hb Hn. unfold orFallThrough. oblivious. Qed.

(** C6.  The answer of [extractInformationFromContext] is fixed by the
    context and the query alone: whatever the store and the console hold
    when it is called, it gives the same result and the same log lines,
    leaves the store untouched and only appends to the console. *)
Theorem extract_is_pure (context query : jstr) :
  exists (r : result jstr) (lines : list jstr),
    forall w : World,
      extractInformationFromContext context query w
      = (r, mkWorld (storage w) (console w ++ lines)).
Proof.
  change (oblivious (extractInformationFromContext context query)).
  unfold extractInformationFromContext.
  repeat (apply oblivious_bind; [apply oblivious_log|intros _]).
  apply oblivious_bind; [apply extractSubject_oblivious|intros subject].
  destruct (truthy subject); [apply definitionBranch_oblivious|].
  destruct (includes _ _); [apply projectListing_oblivious|].
  destruct (_ && _); [apply nameBranch_oblivious|].
  destruct (_ || _); [apply collegeBranch_oblivious|].
  repeat apply orFallThrough_oblivious.
  - apply firstGroup_oblivious.
  - apply oblivious_ret.
  - apply projectDescription_oblivious.
  - apply firstGroup_oblivious.
  - apply genericFallback_oblivious.
Qed.

(** The function from the point where [subject] is known. *)
Lemma extract_after_subject (context query : jstr) (subject : value) (w : World) :
  answer (extractSubject context query (toLowerCase query)) w = Ok subject ->
  truthy subject = true \/ includes (toLowerCase query) "project" = true ->
  answer (extractInformationFromContext context query) w
  = answer
      (if truthy subject
       then definitionBranch context (toLowerCase query) subject
       else projectListing context) w.
Proof.
  intros Hs Hor.
  destruct (truthy subject) eqn:Ht; [|destruct Hor as [Hor|Hp]; [discriminate|]].
  - unfold extractInformationFromContext.
    set (lq := toLowerCase query) in *.
    unfold answer. cbv beta delta [bind log].
    destruct (oblivious_run (extractSubject context query lq) w
                (mkWorld (storage w)
                   (((console w ++ [newline ++ "=== PRECISE EXTRACTION ==="])
                     ++ ["Query: " ++ quoted query])
                    ++ ["Context length: " ++ ofNat (length context)]))
                (extractSubject_oblivious context query lq)) as [lines Hrun].
    cbn [storage console]. rewrite Hrun. fold (answer (extractSubject context query lq) w).
    rewrite Hs, Ht.
    apply (oblivious_answer _ _ w (definitionBranch_oblivious context lq subject)).
  - unfold extractInformationFromContext.
    set (lq := toLowerCase query) in *.
    unfold answer. cbv beta delta [bind log].
    destruct (oblivious_run (extractSubject context query lq) w
                (mkWorld (storage w)
                   (((console w ++ [newline ++ "=== PRECISE EXTRACTION ==="])
                     ++ ["Query: " ++ quoted query])
                    ++ ["Context length: " ++ ofNat (length context)]))
                (extractSubject_oblivious context query lq)) as [lines Hrun].
    cbn [storage console]. rewrite Hrun. fold (answer (extractSubject context query lq) w).
    rewrite Hs, Ht, Hp.
    apply (oblivious_answer _ _ w (projectListing_oblivious context)).
Qed.

(** When the subject extracted is a text [X], not empty, and [X] does not
    occur, case aside, in the context, the function returns the not-found
    message for [X]: no later rule has a say. *)
Lemma definition_subject_not_found (context query X : jstr) (w : World) :
  answer (extractSubject context query (toLowerCase query)) w = Ok (VStr X) ->
  X <> [] ->
  includes (toLowerCase context) (toLowerCase X) = false ->
  answer (extractInformationFromContext context query) w = Ok (notFoundMessage X).
Proof.
  intros Hs Hne Hinc.
  assert (Ht : truthy (VStr X) = true) by (destruct X; [contradiction|reflexivity]).
  rewrite (extract_after_subject context query (VStr X) w Hs (or_introl Ht)).
  rewrite Ht. unfold definitionBranch, answer.
  cbv beta delta [bind log]. cbn [show]. rewrite Hinc. reflexivity.
Qed.

(** The specification's scenario: no occurrence of Python in the context. *)
Lemma definition_subject_not_found_witness :
  answer (extractInformationFromContext "Java is a language." "What is Python?")
         Samples.emptyWorld
  = Ok ("Information about " ++ quoted "Python" ++ " not found in the document.").
Proof.
  apply (definition_subject_not_found "Java is a language." "What is Python?" "Python"
           Samples.emptyWorld).
  - vm_compute. reflexivity.
  - discriminate.
  - vm_compute. reflexivity.
Defined.

(** C1 fails on the code.  After [explain], the subject is looked up in
    the object [techTerms] (line 174), which finds the members every object
    inherits: for [Explain constructor] the subject becomes the function
    [Object], for [Explain __proto__] the prototype object.  Neither occurs
    in the context, yet the function does not return the not-found message:
    [subject.toLowerCase()] (line 187) throws a type error.  For a subject
    that is a text the function does return the message, as the last part
    states. *)
Theorem definition_subject_inherited_member :
  answer (extractSubject "Java is a language." "Explain constructor"
                         (toLowerCase "Explain constructor"))
         Samples.emptyWorld
  = Ok (VObj "function Object() { [native code] }")
  /\ includes (toLowerCase "Java is a language.") "constructor" = false
  /\ answer (extractInformationFromContext "Java is a language." "Explain constructor")
            Samples.emptyWorld
     = Throw TypeError
  /\ answer (extractInformationFromContext "Java is a language." "Explain __proto__")
            Samples.emptyWorld
     = Throw TypeError
  /\ (forall (context query X : jstr) (w : World),
        answer (extractSubject context query (toLowerCase query)) w = Ok (VStr X) ->
        X <> [] ->
        includes (toLowerCase context) (toLowerCase X) = false ->
        answer (extractInformationFromContext context query) w = Ok (notFoundMessage X)).
Proof.
  split; [vm_compute; reflexivity|].
  split; [vm_compute; reflexivity|].
  split; [vm_compute; reflexivity|].
  split; [vm_compute; reflexivity|].
  exact definition_subject_not_found.
Qed.

(** A query without one of the three definition phrases has no subject. *)
Lemma plain_query_no_subject (context query : jstr) (w : World) :
  includes (toLowerCase query) "what is" = false ->
  includes (toLowerCase query) "define" = false ->
  includes (toLowerCase query) "explain" = false ->
  answer (extractSubject context query (toLowerCase query)) w = Ok (VStr []).
Proof.
  intros H1 H2 H3. unfold extractSubject. rewrite H1, H2, H3. reflexivity.
Qed.

(** The candidate names are the trimmed matches, longer than 3, of the two
    patterns. *)
Lemma projects_candidates (context name : jstr) :
  In name (projects context) <->
  exists pattern texts text,
    In pattern projectPatterns
    /\ RegExp.matchAll pattern context = Some texts
    /\ In text texts /\ name = trim text /\ 3 < length name.
Proof.
  unfold projects. rewrite in_flat_map. split.
  - intros [pattern [Hp Hn]]. unfold projectsOf in Hn.
    destruct (RegExp.matchAll pattern context) as [texts|] eqn:Hm; [|contradiction].
    apply filter_In in Hn. destruct Hn as [Hn Hlen].
    apply in_map_iff in Hn. destruct Hn as [text [<- Hin]].
    apply Nat.ltb_lt in Hlen. exists pattern, texts, text. tauto.
  - intros (pattern & texts & text & Hp & Hm & Hin & -> & Hlen).
    exists pattern. split; [exact Hp|]. unfold projectsOf. rewrite Hm.
    apply filter_In. split; [apply in_map; exact Hin|].
    apply Nat.ltb_lt. exact Hlen.
Qed.




End ExtractorFacts.

(** ** EmbeddingService.generateEmbedding, fallback path *)

Module EmbeddingFacts.
Import JS EmbeddingService.
Local Open Scope R_scope.

Lemma addAt_length (i : nat) (x : R) (v : list R) : length (addAt i x v) = length v.
Proof.
  revert i. induction v as [|a v IH]; intros [|i]; simpl; try reflexivity.
  rewrite IH. reflexivity.
Qed.

Lemma addAt_nonneg (i : nat) (x : R) (v : list R) :
  0 <= x -> Forall (Rle 0) v -> Forall (Rle 0) (addAt i x v).
Proof.
  intros Hx Hv. revert i. induction Hv as [|a v Ha Hv IH]; intros [|i]; simpl;
    constructor; try assumption; try lra. apply IH.
Qed.

Lemma addAt_total_ge (i : nat) (x : R) (v : list R) :
  0 <= x -> total v <= total (addAt i x v).
Proof.
  intros Hx. revert i. induction v as [|a v IH]; intros [|i]; simpl; try lra.
  specialize (IH i). lra.
Qed.

Lemma addAt_total_in (i : nat) (x : R) (v : list R) :
  (i < length v)%nat -> total (addAt i x v) = total v + x.
Proof.
  revert i. induction v as [|a v IH]; intros [|i] Hi; simpl in *; try lia; try lra.
  rewrite IH by lia. lra.
Qed.

Lemma wordFeature_length (v : list R) (h : jstr) :
  length (wordFeature v h) = length v.
Proof. unfold wordFeature. destruct (parseInt h); [apply addAt_length|reflexivity]. Qed.

Lemma wordFeature_nonneg (v : list R) (h : jstr) :
  Forall (Rle 0) v -> Forall (Rle 0) (wordFeature v h).
Proof.
  unfold wordFeature. destruct (parseInt h); [|tauto]. apply addAt_nonneg. lra.
Qed.

Lemma wordFeatures_invariant (hs : list jstr) (v : list R) :
  Forall (Rle 0) v ->
  length (fold_left wordFeature hs v) = length v
  /\ Forall (Rle 0) (fold_left wordFeature hs v).
Proof.
  revert v. induction hs as [|h hs IH]; intros v Hv; simpl; [tauto|].
  destruct (IH (wordFeature v h) (wordFeature_nonneg v h Hv)) as [Hl Hn].
  rewrite Hl, wordFeature_length. tauto.
Qed.

Lemma weight_pos (c : ascii) : 0 < INR (code c mod 31 + 1) / 32.
Proof.
  apply Rdiv_lt_0_compat; [|lra]. apply lt_0_INR. lia.
Qed.

Lemma charFeatures_invariant (s : jstr) (i : nat) (v : list R) :
  Forall (Rle 0) v ->
  length (charFeatures s i v) = length v
  /\ Forall (Rle 0) (charFeatures s i v)
  /\ total v <= total (charFeatures s i v).
Proof.
  revert i v. induction s as [|c s IH]; intros i v Hv; cbn [charFeatures].
  - repeat split; [exact Hv|lra].
  - pose proof (weight_pos c) as Hw.
    destruct (IH (S i) (addAt ((code c + i) mod dimension)
                              (INR (code c mod 31 + 1) / 32) v)) as (Hl & Hn & Ht).
    { apply addAt_nonneg; [lra|exact Hv]. }
    rewrite addAt_length in Hl. repeat split; try assumption.
    eapply Rle_trans; [|exact Ht]. apply addAt_total_ge. lra.
Qed.

(** A character of the text leaves a positive weight in some bucket. *)
Lemma charFeatures_positive (c : ascii) (s : jstr) (v : list R) :
  Forall (Rle 0) v -> length v = dimension ->
  0 <= total v -> 0 < total (charFeatures (c :: s) 0 v).
Proof.
  intros Hv Hlen Ht. cbn [charFeatures].
  pose proof (weight_pos c) as Hw.
  destruct (charFeatures_invariant s 1
              (addAt ((code c + 0) mod dimension) (INR (code c mod 31 + 1) / 32) v))
    as (_ & _ & Hge).
  { apply addAt_nonneg; [lra|exact Hv]. }
  rewrite addAt_total_in in Hge.
  - lra.
  - rewrite Hlen. apply Nat.mod_upper_bound. discriminate.
Qed.

Lemma total_nonneg (v : list R) : Forall (Rle 0) v -> 0 <= total v.
Proof. induction 1; simpl; lra. Qed.

Lemma sumSquares_spec (v : list R) : sumSquares v = Spec.squaredNorm v.
Proof.
  unfold sumSquares.
  assert (H : forall acc, fold_left (fun s x => s + x * x) v acc
                          = acc + Spec.squaredNorm v).
  { induction v as [|x v IH]; intros acc; simpl; [lra|]. rewrite IH. lra. }
  rewrite H. lra.
Qed.

Lemma squaredNorm_positive (v : list R) :
  Forall (Rle 0) v -> 0 < total v -> 0 < Spec.squaredNorm v.
Proof.
  induction 1 as [|x v Hx Hv IH]; simpl; intros Ht; [lra|].
  pose proof (CosineFacts.squaredNorm_nonneg v) as Hs.
  destruct (Rle_lt_or_eq_dec 0 x Hx) as [Hpos|<-].
  - pose proof (Rmult_lt_0_compat x x Hpos Hpos). lra.
  - rewrite Rmult_0_l, Rplus_0_l in *. apply IH. lra.
Qed.

Lemma squaredNorm_scaled (v : list R) (n : R) :
  n <> 0 ->
  Spec.squaredNorm (map (fun x => x / n) v) = Spec.squaredNorm v / (n * n).
Proof.
  intros Hn. induction v as [|x v IH]; simpl; [field; exact Hn|].
  rewrite IH. field. exact Hn.
Qed.

Lemma squaredNorm_zeros (n : nat) : Spec.squaredNorm (repeat 0 n) = 0.
Proof. induction n as [|n IH]; simpl; [reflexivity|]. rewrite IH. lra. Qed.

Lemma fallbackEmbedding_accumulated (text : jstr) :
  fallbackEmbedding text
  = map (fun v => v / orOne (sqrt (sumSquares (accumulated text)))) (accumulated text).
Proof. reflexivity. Qed.

Lemma zeros_nonneg (n : nat) : Forall (Rle 0) (repeat 0 n).
Proof. induction n; simpl; constructor; [lra|assumption]. Qed.

Lemma accumulated_invariant (text : jstr) :
  length (accumulated text) = dimension /\ Forall (Rle 0) (accumulated text).
Proof.
  unfold accumulated.
  match goal with
  | |- context [fold_left wordFeature ?hs ?v] =>
      destruct (wordFeatures_invariant hs v (zeros_nonneg dimension)) as [Hl Hn];
      destruct (charFeatures_invariant (substring (toLowerCase text) 0 5000) 0
                  (fold_left wordFeature hs v) Hn) as (Hl' & Hn' & _)
  end.
  rewrite Hl', Hl, repeat_length. tauto.
Qed.

Lemma accumulated_positive (c : ascii) (text : jstr) :
  0 < total (accumulated (c :: text)).
Proof.
  unfold accumulated.
  assert (Hlim : substring (toLowerCase (c :: text)) 0 5000
                 = lowerChar c :: firstn 4999 (toLowerCase text)).
  { unfold substring, toLowerCase. change (5000 - 0)%nat with (S 4999).
    reflexivity. }
  rewrite Hlim.
  match goal with
  | |- context [fold_left wordFeature ?hs ?v] =>
      destruct (wordFeatures_invariant hs v (zeros_nonneg dimension)) as [Hl Hn];
      apply charFeatures_positive;
      [exact Hn|rewrite Hl; apply repeat_length|apply total_nonneg; exact Hn]
  end.
Qed.

(** C2 as the code has it.  The fallback embedding has 256 components and
    is the same function of the text on both fallback paths (no client
    configured, or the call to the provider failed); its Euclidean norm is 1
    for every text but the empty one, whose embedding is the zero vector. *)
Theorem fallback_embedding (text : jstr) :
  length (generateEmbedding NotConfigured text) = 256%nat
  /\ generateEmbedding Fails text = generateEmbedding NotConfigured text
  /\ Spec.euclideanNorm (generateEmbedding NotConfigured text)
     = (if isEmpty text then 0 else 1)
  /\ (if isEmpty text
      then generateEmbedding NotConfigured text = repeat 0 256
      else True).
Proof.
  cbn [generateEmbedding]. rewrite fallbackEmbedding_accumulated.
  destruct (accumulated_invariant text) as [Hlen Hnn].
  split; [rewrite length_map; exact Hlen|]. split; [reflexivity|].
  destruct text as [|c text]; cbn [isEmpty].
  - assert (Hacc : accumulated [] = repeat 0 256) by reflexivity.
    rewrite Hacc, sumSquares_spec, squaredNorm_zeros, sqrt_0.
    unfold orOne. destruct (Req_EM_T 0 0) as [_|Hn]; [|contradiction].
    assert (Hz : map (fun v => v / 1) (repeat 0 256) = repeat 0 256).
    { rewrite map_repeat. f_equal. lra. }
    rewrite Hz. unfold Spec.euclideanNorm. rewrite squaredNorm_zeros, sqrt_0. tauto.
  - split; [|exact I].
    pose proof (squaredNorm_positive _ Hnn (accumulated_positive c text)) as Hpos.
    rewrite sumSquares_spec.
    set (S := Spec.squaredNorm (accumulated (c :: text))) in *.
    assert (Hsq : 0 < sqrt S) by (apply sqrt_lt_R0; exact Hpos).
    unfold orOne. destruct (Req_EM_T (sqrt S) 0) as [E|_]; [lra|].
    unfold Spec.euclideanNorm. rewrite squaredNorm_scaled by lra.
    fold S. rewrite sqrt_sqrt by lra.
    replace (S / S) with 1 by (field; lra). apply sqrt_1.
Qed.

(** C2 as stated fails at the empty text: 256 components, all zero, so the
    norm is 0 and not within 1e-6 of 1. *)
Lemma fallback_embedding_empty :
  generateEmbedding NotConfigured [] = repeat 0 256
  /\ Spec.euclideanNorm (generateEmbedding NotConfigured []) = 0
  /\ 1 / 1000000 < Rabs (Spec.euclideanNorm (generateEmbedding NotConfigured []) - 1).
Proof.
  assert (H : generateEmbedding NotConfigured [] = repeat 0 256).
  { cbn [generateEmbedding]. rewrite fallbackEmbedding_accumulated.
    assert (Hacc : accumulated [] = repeat 0 256) by reflexivity.
    rewrite Hacc, sumSquares_spec, squaredNorm_zeros, sqrt_0.
    unfold orOne. destruct (Req_EM_T 0 0) as [_|Hn]; [|contradiction].
    rewrite map_repeat. f_equal. lra. }
  assert (Hn : Spec.euclideanNorm (generateEmbedding NotConfigured []) = 0).
  { rewrite H. unfold Spec.euclideanNorm. rewrite squaredNorm_zeros. apply sqrt_0. }
  split; [exact H|]. split; [exact Hn|].
  rewrite Hn. replace (0 - 1) with (- (1)) by lra.
  rewrite Rabs_Ropp, Rabs_R1. lra.
Qed.

End EmbeddingFacts.

(** ** MemStorage: the maps and the other methods *)

Module StoreFacts.
Import JS JSFacts Storage Store StorageFacts.

Lemma mapGet_set_same {V} (m : Map V) (k : jstr) (v : V) :
  mapGet (mapSet m k v) k = Some v.
Proof.
  unfold mapGet. induction m as [|[k' v'] m IH]; simpl.
  - rewrite streq_refl. reflexivity.
  - destruct (streq k' k) eqn:E; simpl.
    + rewrite streq_refl. reflexivity.
    + rewrite E. exact IH.
Qed.

Lemma mapGet_set_other {V} (m : Map V) (k k' : jstr) (v : V) :
  k' <> k -> mapGet (mapSet m k v) k' = mapGet m k'.
Proof.
  intros Hne. unfold mapGet. induction m as [|[k0 v0] m IH]; simpl.
  - assert (E : streq k k' = false) by (apply streq_neq; congruence).
    rewrite E. reflexivity.
  - destruct (streq k0 k) eqn:E; simpl.
    + apply streq_eq in E. subst k0.
      assert (E : streq k k' = false) by (apply streq_neq; congruence).
      rewrite E. reflexivity.
    + destruct (streq k0 k'); [reflexivity|exact IH].
Qed.

Lemma mapGet_None {V} (m : Map V) (k : jstr) :
  mapGet m k = None <-> ~ In k (map fst m).
Proof.
  unfold mapGet. induction m as [|[k' v'] m IH]; simpl; [tauto|].
  destruct (streq k' k) eqn:E; simpl.
  - apply streq_eq in E. split; [discriminate|]. intros H. exfalso. apply H. tauto.
  - apply streq_neq in E. rewrite IH. tauto.
Qed.

(** A new key goes last. *)
Lemma mapSet_fresh {V} (m : Map V) (k : jstr) (v : V) :
  mapGet m k = None -> mapSet m k v = m ++ [(k, v)].
Proof.
  unfold mapGet. induction m as [|[k' v'] m IH]; simpl; [reflexivity|].
  destruct (streq k' k); simpl; [discriminate|]. intros H. rewrite (IH H). reflexivity.
Qed.

Lemma mapSet_keys {V} (m : Map V) (k : jstr) (v : V) :
  map fst (mapSet m k v)
  = if existsb (fun kv => streq (fst kv) k) m then map fst m else map fst m ++ [k].
Proof.
  induction m as [|[k' v'] m IH]; simpl; [reflexivity|].
  destruct (streq k' k) eqn:E; simpl.
  - apply streq_eq in E. subst k'. reflexivity.
  - rewrite IH. destruct (existsb _ m); reflexivity.
Qed.

Lemma uniqueKeys_set {V} (m : Map V) (k : jstr) (v : V) :
  uniqueKeys m -> uniqueKeys (mapSet m k v).
Proof.
  unfold uniqueKeys. intros H. rewrite mapSet_keys.
  destruct (existsb (fun kv => streq (fst kv) k) m) eqn:E; [exact H|].
  apply NoDup_app; [exact H|repeat constructor; simpl; tauto|].
  intros x Hx [Hk|[]]. subst x.
  apply in_map_iff in Hx. destruct Hx as [kv [Hkv Hin]].
  assert (Ht : existsb (fun kv => streq (fst kv) k) m = true).
  { apply existsb_exists. exists kv. split; [exact Hin|]. apply streq_eq. exact Hkv. }
  congruence.
Qed.

(** A sort by a comparator that is total and transitive leaves a sorted
    list. *)
Lemma insertBy_sorted {A} (precedes : A -> A -> bool) (x : A) (l : list A) :
  (forall a b, precedes a b = false -> precedes b a = true) ->
  (forall a b c, precedes a b = true -> precedes b c = true -> precedes a c = true) ->
  StronglySorted (fun a b => precedes a b = true) l ->
  StronglySorted (fun a b => precedes a b = true) (Sort.insertBy precedes x l).
Proof.
  intros Htot Htrans. induction 1 as [|y l Hl IH Hy]; simpl.
  - repeat constructor.
  - destruct (precedes x y) eqn:E.
    + constructor; [constructor; assumption|].
      constructor; [exact E|].
      eapply Forall_impl; [|exact Hy]. intros z Hz. exact (Htrans _ _ _ E Hz).
    + constructor; [exact IH|].
      apply Forall_forall. intros z Hz.
      apply (Permutation_in _ (SortFacts.insertBy_perm precedes x l)) in Hz.
      destruct Hz as [<-|Hz]; [apply Htot; exact E|].
      rewrite Forall_forall in Hy. apply Hy. exact Hz.
Qed.

Lemma sortBy_sorted {A} (precedes : A -> A -> bool) (l : list A) :
  (forall a b, precedes a b = false -> precedes b a = true) ->
  (forall a b c, precedes a b = true -> precedes b c = true -> precedes a c = true) ->
  StronglySorted (fun a b => precedes a b = true) (Sort.sortBy precedes l).
Proof.
  intros Htot Htrans. induction l as [|x l IH]; simpl; [constructor|].
  apply insertBy_sorted; assumption.
Qed.

(** Sorting a list that is in order changes nothing. *)
Lemma sortBy_of_sorted {A} (precedes : A -> A -> bool) (l : list A) :
  StronglySorted (fun a b => precedes a b = true) l -> Sort.sortBy precedes l = l.
Proof.
  induction 1 as [|x l Hl IH Hx]; [reflexivity|].
  change (Sort.sortBy precedes (x :: l))
    with (Sort.insertBy precedes x (Sort.sortBy precedes l)).
  rewrite IH.
  destruct l as [|y l]; simpl; [reflexivity|].
  inversion Hx as [|? ? Hxy _]; subst. rewrite Hxy. reflexivity.
Qed.

Lemma sorted_asc {A} (key : A -> nat) (l : list A) :
  StronglySorted (fun a b => key a <= key b) (Sort.sortBy (ascNat key) l).
Proof.
  assert (H : StronglySorted (fun a b => ascNat key a b = true)
                (Sort.sortBy (ascNat key) l)).
  { apply sortBy_sorted; unfold ascNat; intros.
    - apply Nat.leb_le. apply Nat.leb_gt in H. lia.
    - apply Nat.leb_le. apply Nat.leb_le in H, H0. lia. }
  induction H as [|x s Hs IH Hx]; constructor; [exact IH|].
  eapply Forall_impl; [|exact Hx]. intros y Hy. apply Nat.leb_le. exact Hy.
Qed.

Lemma sorted_desc {A} (key : A -> nat) (l : list A) :
  StronglySorted (fun a b => key b <= key a) (Sort.sortBy (Sort.descNat key) l).
Proof.
  assert (H : StronglySorted (fun a b => Sort.descNat key a b = true)
                (Sort.sortBy (Sort.descNat key) l)).
  { apply sortBy_sorted; unfold Sort.descNat; intros.
    - apply Nat.leb_le. apply Nat.leb_gt in H. lia.
    - apply Nat.leb_le. apply Nat.leb_le in H, H0. lia. }
  induction H as [|x s Hs IH Hx]; constructor; [exact IH|].
  eapply Forall_impl; [|exact Hx]. intros y Hy. apply Nat.leb_le. exact Hy.
Qed.

Lemma firstn_strongly_sorted {A} (R : A -> A -> Prop) (n : nat) (l : list A) :
  StronglySorted R l -> StronglySorted R (firstn n l).
Proof.
  intros H. revert n. induction H as [|x l Hl IH Hx]; intros [|n]; simpl;
    try constructor.
  - apply IH.
  - apply Forall_forall. intros y Hy. apply SortFacts.firstn_In in Hy.
    rewrite Forall_forall in Hx. apply Hx. exact Hy.
Qed.

(** X1.  A created document is found under its id, with the fields given,
    the chunk count 0 when none is given and the time of the call; every
    other id, the chunks and the queries are as before. *)
Theorem createDocument_lookup (st : MemStorage) (id : jstr) (now : nat)
  (insertDocument : InsertDocument) :
  let document := fst (createDocument st id now insertDocument) in
  let st' := snd (createDocument st id now insertDocument) in
  getDocument st' id = Some document
  /\ document
     = mkDocument id (ins_filename insertDocument) (ins_originalName insertDocument)
         (match ins_chunksCount insertDocument with Some n => n | None => 0 end) now
  /\ (forall k, k <> id -> getDocument st' k = getDocument st k)
  /\ documentChunks st' = documentChunks st
  /\ queries st' = queries st.
Proof.
  cbv zeta. unfold createDocument, getDocument. simpl.
  split; [apply mapGet_set_same|]. split; [reflexivity|].
  split; [|split; reflexivity].
  intros k Hk. apply mapGet_set_other. exact Hk.
Qed.

(** X2.  [getDocumentChunks] gives the stored chunks of the document, all
    of them and no other, in ascending order of chunk index. *)
Theorem getDocumentChunks_sorted (st : MemStorage) (docId : jstr) :
  Permutation (getDocumentChunks st docId)
              (filter (fun c => streq (documentId c) docId) (getAllChunks st))
  /\ StronglySorted (fun a b => chunkIndex a <= chunkIndex b)
                    (getDocumentChunks st docId)
  /\ (forall c, In c (getDocumentChunks st docId)
                <-> In c (getAllChunks st) /\ documentId c = docId).
Proof.
  unfold getDocumentChunks, getAllChunks.
  split; [apply SortFacts.sortBy_perm|]. split; [apply sorted_asc|].
  intros c. rewrite SortFacts.sortBy_In, filter_In, streq_eq. tauto.
Qed.

(** X3.  [getRecentQueries] gives stored queries, newest first: the ten
    newest, or all of them when fewer are stored. *)
Theorem getRecentQueries_newest (st : MemStorage) :
  length (getRecentQueries st) = Nat.min 10 (length (queries st))
  /\ StronglySorted (fun a b => createdAt b <= createdAt a) (getRecentQueries st)
  /\ (forall q, In q (getRecentQueries st) -> In q (mapValues (queries st)))
  /\ (forall q q', In q (getRecentQueries st) -> In q' (mapValues (queries st)) ->
                   ~ In q' (getRecentQueries st) -> createdAt q' <= createdAt q)
  /\ (length (queries st) <= 10 ->
      Permutation (getRecentQueries st) (mapValues (queries st))).
Proof.
  unfold getRecentQueries.
  set (sorted := Sort.sortBy (Sort.descNat createdAt) (mapValues (queries st))).
  assert (Hs : StronglySorted (fun a b => createdAt b <= createdAt a) sorted)
    by apply sorted_desc.
  assert (Hp : Permutation sorted (mapValues (queries st)))
    by apply SortFacts.sortBy_perm.
  assert (Hlen : length sorted = length (queries st)).
  { unfold sorted. rewrite SortFacts.sortBy_length. apply length_map. }
  split; [rewrite length_firstn, Hlen; reflexivity|].
  split; [apply firstn_strongly_sorted; exact Hs|].
  split; [intros q Hq; apply SortFacts.firstn_In in Hq;
          exact (Permutation_in _ Hp Hq)|].
  split.
  - intros q q' Hq Hq' Hnot.
    apply (Permutation_in _ (Permutation_sym Hp)) in Hq'.
    rewrite <- (firstn_skipn 10 sorted) in Hq', Hs.
    apply in_app_or in Hq'. destruct Hq' as [Hq'|Hq']; [contradiction|].
    clear Hnot Hp Hlen.
    induction (firstn 10 sorted) as [|x l IH]; simpl in *; [contradiction|].
    inversion Hs as [|? ? Hl Hx]; subst.
    destruct Hq as [<-|Hq]; [|exact (IH Hl Hq)].
    rewrite Forall_forall in Hx. apply Hx. apply in_or_app. right. exact Hq'.
  - intros Hle. rewrite firstn_all2 by lia. exact Hp.
Qed.

(** X4.  [getAllDocuments] gives every stored document once, newest
    first. *)
Theorem getAllDocuments_newest (st : MemStorage) :
  Permutation (getAllDocuments st) (mapValues (documents st))
  /\ StronglySorted (fun a b => uploadedAt b <= uploadedAt a) (getAllDocuments st)
  /\ (forall id d, getDocument st id = Some d -> In d (getAllDocuments st)).
Proof.
  unfold getAllDocuments.
  split; [apply SortFacts.sortBy_perm|]. split; [apply sorted_desc|].
  intros id d H. apply SortFacts.sortBy_In.
  unfold getDocument, mapGet in H.
  destruct (find (fun kv => streq (fst kv) id) (documents st)) as [kv|] eqn:E;
    [|discriminate].
  inversion H; subst. apply find_some in E. destruct E as [Hin _].
  unfold mapValues. apply in_map. exact Hin.
Qed.

Lemma deleteDocumentChunks_again (st : MemStorage) (id : jstr) :
  documentChunks (deleteDocumentChunks (deleteDocumentChunks st id) id)
  = documentChunks (deleteDocumentChunks st id).
Proof.
  unfold deleteDocumentChunks, mapEntries. cbn [documentChunks].
  rewrite !deleteLoop_filter.
  set (m := documentChunks st).
  set (keep := fun entries (kv : jstr * DocumentChunk) =>
                 negb (existsb (fun e => streq (fst kv) (fst e)
                                         && streq (documentId (snd e)) id) entries)).
  change (filter (keep (filter (keep m) m)) (filter (keep m) m) = filter (keep m) m).
  apply forallb_filter_id. apply forallb_forall. intros kv Hkv.
  apply filter_In in Hkv. destruct Hkv as [Hin Hkeep].
  unfold keep at 1. apply negb_true_iff. apply not_true_is_false. intros Hex.
  apply existsb_exists in Hex. destruct Hex as [e [He Hmatch]].
  apply filter_In in He. destruct He as [Hein Hekeep].
  unfold keep in Hekeep. apply negb_true_iff in Hekeep.
  apply andb_true_iff in Hmatch. destruct Hmatch as [_ Hdoc].
  assert (Ht : existsb (fun e0 => streq (fst e) (fst e0)
                                  && streq (documentId (snd e0)) id) m = true).
  { apply existsb_exists. exists e. split; [exact Hein|].
    rewrite streq_refl, Hdoc. reflexivity. }
  congruence.
Qed.

(** X5.  Deleting a document a second time changes nothing more, and the
    delete route answers the second request with 404 and leaves the store
    as the first left it. *)
Theorem delete_twice (st : MemStorage) (id : jstr) :
  deleteDocument (deleteDocument st id) id = deleteDocument st id
  /\ Routes.deleteRoute (snd (Routes.deleteRoute st id)) id
     = (Routes.DocumentNotFound, snd (Routes.deleteRoute st id)).
Proof.
  assert (Hidem : deleteDocument (deleteDocument st id) id = deleteDocument st id).
  { unfold deleteDocument.
    set (st1 := mkStorage (mapDelete (documents st) id) (documentChunks st) (queries st)).
    pose proof (deleteDocumentChunks_again st1 id) as H.
    unfold deleteDocumentChunks in *. cbn [documents documentChunks queries] in *.
    f_equal.
    - unfold mapDelete. apply forallb_filter_id. apply forallb_forall.
      intros kv Hkv. apply filter_In in Hkv. tauto.
    - exact H. }
  split; [exact Hidem|].
  unfold Routes.deleteRoute.
  destruct (getDocument st id) as [d|] eqn:E; cbn [snd].
  - assert (Hgone : getDocument (deleteDocument st id) id = None).
    { unfold getDocument, deleteDocument, deleteDocumentChunks. cbn [documents].
      apply mapGet_delete_same. }
    rewrite Hgone. reflexivity.
  - rewrite E. reflexivity.
Qed.

(** X6.  The maps keep one entry per key: the store starts so, and every
    method that writes leaves it so. *)
Theorem wellKeyed_kept (st : MemStorage) (id : jstr) (now : nat)
  (d : InsertDocument) (c : InsertDocumentChunk) (q : InsertQuery) :
  wellKeyed st ->
  wellKeyed (snd (createDocument st id now d))
  /\ wellKeyed (snd (createDocumentChunk st id c))
  /\ wellKeyed (snd (createQuery st id now q))
  /\ wellKeyed (deleteDocumentChunks st id)
  /\ wellKeyed (deleteDocument st id).
Proof.
  intros (Hd & Hc & Hq). unfold wellKeyed.
  assert (Hdel : forall m : Map DocumentChunk, uniqueKeys m ->
            uniqueKeys
              (fold_left
                 (fun m0 (e : jstr * DocumentChunk) =>
                    if streq (documentId (snd e)) id then mapDelete m0 (fst e) else m0)
                 (mapEntries m) m)).
  { intros m Hm. rewrite deleteLoop_filter. apply uniqueKeys_filter. exact Hm. }
  split; [|split; [|split; [|split]]]; simpl.
  - split; [apply uniqueKeys_set; exact Hd|tauto].
  - split; [exact Hd|]. split; [apply uniqueKeys_set; exact Hc|exact Hq].
  - split; [exact Hd|]. split; [exact Hc|apply uniqueKeys_set; exact Hq].
  - split; [exact Hd|]. split; [apply Hdel; exact Hc|exact Hq].
  - split; [apply uniqueKeys_filter; exact Hd|]. split; [apply Hdel; exact Hc|exact Hq].
Qed.

Lemma wellKeyed_kept_witness :
  wellKeyed Samples.sampleStore
  /\ wellKeyed (snd (createDocumentChunk Samples.sampleStore "c2"
                       (mkInsertChunk "d1" 1 "again" None)))
  /\ wellKeyed (deleteDocument Samples.sampleStore "d2").
Proof.
  assert (H : wellKeyed Samples.sampleStore).
  { unfold wellKeyed, uniqueKeys. simpl.
    repeat split; repeat constructor; simpl; intuition discriminate. }
  split; [exact H|].
  destruct (wellKeyed_kept Samples.sampleStore "c2" 0
              (mkInsertDocument "f" "n" None) (mkInsertChunk "d1" 1 "again" None)
              (mkInsertQuery "q" "r" None) H) as (_ & Hc & _ & _ & _).
  split; [exact Hc|].
  destruct (wellKeyed_kept Samples.sampleStore "d2" 0
              (mkInsertDocument "f" "n" None) (mkInsertChunk "d1" 1 "again" None)
              (mkInsertQuery "q" "r" None) H) as (_ & _ & _ & _ & Hd).
  exact Hd.
Defined.

(** X7.  The statistics count every stored document, and at most ten
    queries: the count of queries is taken from the list of the ten most
    recent ones. *)
Theorem stats_counts (st : MemStorage) :
  Routes.stats st = (length (documents st), Nat.min 10 (length (queries st)))
  /\ snd (Routes.stats st) <= 10.
Proof.
  unfold Routes.stats, getAllDocuments, getRecentQueries, mapValues.
  rewrite length_firstn, !SortFacts.sortBy_length, !length_map.
  split; [reflexivity|]. cbn [snd]. apply Nat.le_min_l.
Qed.

End StoreFacts.

(** ** The chunker: sizes, sections, cleaning *)

Module ChunkSizeFacts.
Import JS JSFacts RegExp Layout LayoutFacts SectionLoopFacts ChunkerFacts PDFService.

Lemma trim_length (s : jstr) : length (trim s) <= length s.
Proof.
  destruct (trim_margins s) as (l & r & Hs & _).
  rewrite Hs at 2. rewrite !length_app. lia.
Qed.

Lemma substring_length (s : jstr) (a b : nat) : length (substring s a b) <= b - a.
Proof. unfold substring. rewrite length_firstn. lia. Qed.

Lemma lastIndexOfFrom_bound (s : jstr) (c : ascii) :
  forall i acc,
    lastIndexOfFrom s c i acc = acc
    \/ (Z.of_nat i <= lastIndexOfFrom s c i acc < Z.of_nat (i + length s))%Z.
Proof.
  induction s as [|a s IH]; intros i acc; simpl; [left; reflexivity|].
  destruct (IH (S i) (if eqc a c then Z.of_nat i else acc)) as [H|H].
  - rewrite H. destruct (eqc a c); [right; lia|left; reflexivity].
  - right. lia.
Qed.

Lemma lastIndexOf_bound (s : jstr) (c : ascii) :
  (-1 <= lastIndexOf s c < Z.of_nat (length s))%Z.
Proof.
  unfold lastIndexOf. destruct (lastIndexOfFrom_bound s c 0 (-1)%Z) as [H|H].
  - rewrite H. lia.
  - simpl in H. lia.
Qed.

Section ChunkBounds.

Variables chunkSize overlap : nat.
Hypothesis overlap_small : 5 * overlap <= 3 * chunkSize.
Hypothesis overlap_less : overlap < chunkSize.

(** No chunk of the loop is longer than the chunk size. *)
Lemma sectionLoop_sizes (X : jstr) :
  forall fuel start chunks,
    (0 <= start)%Z ->
    sectionLoop fuel X chunkSize overlap start = Some chunks ->
    Forall (fun c => length c <= chunkSize) chunks.
Proof.
  induction fuel as [|fuel IH]; intros start chunks H0 H; cbn [sectionLoop] in H.
  - destruct (start <? Z.of_nat (length X))%Z; [discriminate|].
    inversion H. constructor.
  - destruct (start <? Z.of_nat (length X))%Z eqn:E;
      [|inversion H; constructor].
    apply Z.ltb_lt in E. cbv zeta in H.
    set (len := Z.of_nat (length X)) in *.
    set (end_ := Z.min (start + Z.of_nat chunkSize) len) in *.
    set (chunk := slice X start end_) in *.
    set (breakPoint :=
           Z.max (Z.max (lastIndexOf chunk ".") (lastIndexOf chunk (ascii_of_nat 10)))
                 (lastIndexOf chunk ",")) in *.
    set (broken := (3 * Z.of_nat chunkSize <? 5 * (breakPoint - start))%Z) in *.
    set (chunk' := if (end_ <? len)%Z && broken
                   then slice X start (breakPoint + 1) else chunk) in *.
    set (start' := if (end_ <? len)%Z
                   then if broken then (breakPoint + 1 - Z.of_nat overlap)%Z
                        else (end_ - Z.of_nat overlap)%Z
                   else end_) in *.
    assert (Hchunk : length chunk <= chunkSize).
    { unfold chunk. rewrite slice_nonneg by (unfold end_, len; lia).
      pose proof (substring_length X (Nat.min (Z.to_nat start) (length X))
                    (Nat.min (Z.to_nat end_) (length X))).
      unfold end_, len in *. lia. }
    assert (Hbp : (-1 <= breakPoint < Z.of_nat chunkSize)%Z).
    { pose proof (lastIndexOf_bound chunk ".").
      pose proof (lastIndexOf_bound chunk (ascii_of_nat 10)).
      pose proof (lastIndexOf_bound chunk ",").
      unfold breakPoint. lia. }
    assert (Hchunk' : length chunk' <= chunkSize).
    { unfold chunk'. destruct ((end_ <? len)%Z && broken); [|exact Hchunk].
      rewrite slice_nonneg by lia.
      pose proof (substring_length X (Nat.min (Z.to_nat start) (length X))
                    (Nat.min (Z.to_nat (breakPoint + 1)) (length X))).
      lia. }
    destruct (sectionLoop fuel X chunkSize overlap start') as [rest|] eqn:Er;
      [|discriminate].
    assert (Hrest : Forall (fun c => length c <= chunkSize) rest).
    { apply (IH start' rest); [|exact Er].
      unfold start'. destruct (end_ <? len)%Z eqn:El; [|unfold end_, len; lia].
      apply Z.ltb_lt in El. destruct broken eqn:Eb.
      - unfold broken in Eb. apply Z.ltb_lt in Eb. lia.
      - unfold end_ in *. lia. }
    inversion H; subst chunks.
    destruct (nonBlank chunk'); [|exact Hrest].
    constructor; [|exact Hrest]. pose proof (trim_length chunk'). lia.
Qed.

Lemma splitSection_sizes (X : jstr) (chunks : list jstr) :
  splitSectionIntoChunks X chunkSize overlap = Some chunks ->
  Forall (fun c => length c <= chunkSize) chunks.
Proof. apply sectionLoop_sizes. lia. Qed.

Lemma sectionChunks_sizes (l : list jstr) :
  forall chunks,
    sectionChunks l chunkSize overlap = Some chunks ->
    Forall (fun c => length c <= chunkSize) chunks.
Proof.
  induction l as [|X l IH]; intros chunks H; cbn [sectionChunks] in H.
  - inversion H. constructor.
  - destruct (length X <=? chunkSize) eqn:E.
    + destruct (sectionChunks l chunkSize overlap) as [rest|]; [|discriminate].
      inversion H; subst chunks. simpl. constructor; [|apply IH; reflexivity].
      apply Nat.leb_le in E. pose proof (trim_length X). lia.
    + destruct (splitSectionIntoChunks X chunkSize overlap) as [here|] eqn:Eh;
        [|discriminate].
      destruct (sectionChunks l chunkSize overlap) as [rest|]; [|discriminate].
      inversion H; subst chunks. apply Forall_app. split.
      * apply (splitSection_sizes X). exact Eh.
      * apply IH. reflexivity.
Qed.

Lemma qaChunks_sizes :
  forall n (pieces : list (option jstr)) chunks,
    length pieces <= n ->
    qaChunks pieces chunkSize overlap = Some chunks ->
    Forall (fun c => length c <= chunkSize) chunks.
Proof.
  induction n as [|n IH]; intros pieces chunks Hn H.
  - destruct pieces; [|simpl in Hn; lia]. inversion H. constructor.
  - destruct pieces as [|q [|a pieces]]; try (inversion H; constructor).
    cbn [qaChunks] in H. cbv zeta in H.
    destruct (qaChunks pieces chunkSize overlap) as [rest|] eqn:Er; [|discriminate].
    assert (Hrest : Forall (fun c => length c <= chunkSize) rest)
      by (apply (IH pieces); [simpl in Hn; lia|exact Er]).
    destruct (negb (isEmpty (trimOpt q)) && negb (isEmpty (trimOpt a)));
      [|inversion H; subst; exact Hrest].
    destruct (length (trimOpt q ++ newline ++ trimOpt a) <=? chunkSize) eqn:E.
    + inversion H; subst chunks. constructor; [|exact Hrest].
      apply Nat.leb_le. exact E.
    + destruct (splitSectionIntoChunks (trimOpt q ++ newline ++ trimOpt a)
                  chunkSize overlap) as [qa|] eqn:Eq; [|discriminate].
      inversion H; subst chunks. apply Forall_app. split; [|exact Hrest].
      apply (splitSection_sizes _ _ Eq).
Qed.

Lemma qaLoop_sizes (text : jstr) (patterns : list RegExpObj) :
  forall chunks,
    qaLoop text chunkSize overlap patterns = Some chunks ->
    Forall (fun c => length c <= chunkSize) chunks.
Proof.
  induction patterns as [|pattern patterns IH]; intros chunks H; cbn [qaLoop] in H.
  - inversion H. constructor.
  - destruct (qaChunks (split pattern text) chunkSize overlap) as [[|c cs]|] eqn:E;
      [apply IH; exact H| |discriminate].
    inversion H; subst chunks.
    apply (qaChunks_sizes (length (split pattern text)) _ _ (le_n _) E).
Qed.

Lemma Forall_filter {A} (P : A -> Prop) (f : A -> bool) (l : list A) :
  Forall P l -> Forall P (filter f l).
Proof.
  intros H. apply Forall_forall. intros x Hx. apply filter_In in Hx.
  rewrite Forall_forall in H. apply H. tauto.
Qed.

Lemma splitTextIntoChunks_sizes (text : jstr) (chunks : list jstr) :
  splitTextIntoChunks text chunkSize overlap = Some chunks ->
  Forall (fun c => length c <= chunkSize) chunks.
Proof.
  unfold splitTextIntoChunks. cbv zeta.
  destruct (isEducationalDocument (cleanText text)).
  - unfold splitEducationalContent.
    destruct (qaLoop (cleanText text) chunkSize overlap qaPatterns) as [[|c cs]|] eqn:E;
      [apply splitSection_sizes| |discriminate].
    intros H. injection H as <-.
    apply (Forall_filter _ nonBlank (c :: cs)).
    apply (qaLoop_sizes _ _ _ E).
  - destruct (sectionChunks (splitIntoSections (cleanText text)) chunkSize overlap)
      as [cs|] eqn:E; [|discriminate].
    intros H. injection H as <-. apply Forall_filter.
    apply (sectionChunks_sizes _ _ E).
Qed.

End ChunkBounds.

(** The chunker returns, whatever the text. *)
Lemma chunk_returns (text : jstr) : exists chunks, chunk text = Some chunks.
Proof.
  unfold chunk, splitTextIntoChunks. cbv zeta.
  destruct (visible text) as [|v0 vs] eqn:Ev.
  - rewrite (cleanText_blank text Ev). exists []. vm_compute. reflexivity.
  - assert (Hd : cleanText text <> []).
    { intros E. pose proof (cleanText_visible text) as H.
      rewrite E, Ev in H. discriminate. }
    destruct (isEducationalDocument (cleanText text)).
    + destruct (educational_chunks 1000 200) with (d := cleanText text)
        as (chunks & H & _); [lia|lia|exact Hd|].
      exists chunks. exact H.
    + destruct (sections_chunks 1000 200) with (d := cleanText text)
        as (chunks & H & _); [lia|lia|].
      exists chunks. exact H.
Qed.

(** X8.  No chunk is longer than the chunk size: 1000 code units. *)
Theorem chunk_sizes (text : jstr) :
  exists chunks,
    chunk text = Some chunks /\ Forall (fun c => length c <= 1000) chunks.
Proof.
  destruct (chunk_returns text) as [chunks H]. exists chunks.
  split; [exact H|]. apply (splitTextIntoChunks_sizes 1000 200) with text; [lia|lia|].
  exact H.
Qed.

(** X9.  A section that fits the chunk size is one chunk, the section
    trimmed, and no chunk when it is blank. *)
Theorem short_section (X : jstr) (chunkSize overlap : nat) :
  length X <= chunkSize ->
  splitSectionIntoChunks X chunkSize overlap
  = Some (if nonBlank X then [trim X] else []).
Proof.
  intros Hle. unfold splitSectionIntoChunks. cbn [sectionLoop].
  destruct (0 <? Z.of_nat (length X))%Z eqn:E.
  - apply Z.ltb_lt in E. cbv zeta.
    assert (Hend : Z.min (0 + Z.of_nat chunkSize) (Z.of_nat (length X))
                   = Z.of_nat (length X)) by lia.
    rewrite Hend, Z.ltb_irrefl. cbn [andb].
    assert (Hslice : slice X 0 (Z.of_nat (length X)) = X).
    { rewrite slice_nonneg by lia. simpl Z.to_nat. rewrite Nat2Z.id.
      rewrite Nat.min_0_l, Nat.min_id, ChunkerFacts.substring_to_end. reflexivity. }
    rewrite Hslice.
    assert (Hstop : sectionLoop (length X) X chunkSize overlap (Z.of_nat (length X))
                    = Some []).
    { destruct (length X) eqn:El; cbn [sectionLoop]; rewrite <- ?El;
        rewrite Z.ltb_irrefl; reflexivity. }
    rewrite Hstop. reflexivity.
  - apply Z.ltb_ge in E. destruct X; [reflexivity|simpl in E; lia].
Qed.

Lemma short_section_witness :
  splitSectionIntoChunks (lit "  Skills: Rocq, OCaml.  ") 1000 200
  = Some [lit "Skills: Rocq, OCaml."].
Proof.
  rewrite (short_section (lit "  Skills: Rocq, OCaml.  ") 1000 200).
  - reflexivity.
  - vm_compute. lia.
Defined.

Lemma pushNonBlank_nonBlank (l : list jstr) (s : jstr) :
  Forall (fun X => nonBlank X = true) l ->
  Forall (fun X => nonBlank X = true) (pushNonBlank l s).
Proof.
  intros H. unfold pushNonBlank. destruct (nonBlank s) eqn:E; [|exact H].
  apply Forall_app. split; [exact H|]. constructor; [|constructor].
  rewrite nonBlank_trim. exact E.
Qed.

Lemma headers_nonBlank (d : jstr) (headers : list jstr) :
  forall st, Forall (fun X => nonBlank X = true) (sections st) ->
             Forall (fun X => nonBlank X = true)
                    (sections (fold_left (headerStep d) headers st)).
Proof.
  induction headers as [|h headers IH]; intros st H; simpl; [exact H|].
  apply IH. unfold headerStep.
  destruct (matchAll _ d) as [[|first rest]|]; try exact H.
  cbv zeta. destruct (_ <? _)%Z; [|exact H].
  simpl. apply pushNonBlank_nonBlank. exact H.
Qed.

(** X10.  The sections of a text hold its visible code units, each once
    and in order, and no section is blank. *)
Theorem sections_partition (d : jstr) :
  concat (map visible (splitIntoSections d)) = visible d
  /\ Forall (fun X => nonBlank X = true) (splitIntoSections d)
  /\ (visible d = [] -> splitIntoSections d = []).
Proof.
  destruct (splitIntoSections_spec d) as [_ Hv].
  assert (Hnb : Forall (fun X => nonBlank X = true) (splitIntoSections d)).
  { unfold splitIntoSections. cbv zeta.
    match goal with
    | |- context [length ?l =? 1] =>
        assert (Hl : Forall (fun X => nonBlank X = true) l)
    end.
    { apply pushNonBlank_nonBlank. apply headers_nonBlank. constructor. }
    destruct (_ =? 1); [apply filter_nonBlank_all|exact Hl]. }
  split; [exact Hv|]. split; [exact Hnb|].
  intros Hblank. destruct (splitIntoSections d) as [|X l]; [reflexivity|].
  exfalso. inversion Hnb as [|? ? HX _]; subst.
  apply nonBlank_visible in HX. apply HX.
  rewrite Hblank in Hv. simpl in Hv. apply app_eq_nil in Hv. tauto.
Qed.

Lemma trim_last (s t : jstr) (c : ascii) : trim s = t ++ [c] -> isSpace c = false.
Proof.
  unfold trim, trimEnd. intros H.
  apply (f_equal (@rev ascii)) in H. rewrite rev_involutive, rev_app_distr in H.
  simpl in H.
  destruct (trimStart_head (rev (trimStart s))) as [E|(c' & t' & E & Hc)].
  - rewrite E in H. discriminate.
  - rewrite E in H. inversion H; subst. exact Hc.
Qed.

(** X11.  Cleaning a text keeps its visible code units as they are and
    leaves no blank at either end; a blank text is cleaned to the empty
    text. *)
Theorem cleanText_keeps_visible (text : jstr) :
  visible (cleanText text) = visible text
  /\ (forall c s, cleanText text = c :: s -> isSpace c = false)
  /\ (forall c s, cleanText text = s ++ [c] -> isSpace c = false)
  /\ (cleanText text = [] <-> visible text = []).
Proof.
  split; [apply cleanText_visible|]. split; [|split].
  - intros c s H. unfold cleanText in H.
    match type of H with trim ?x = _ => destruct (trim_head x) as [E|(c' & t & E & Hc)] end.
    + rewrite E in H. discriminate.
    + rewrite E in H. inversion H; subst. exact Hc.
  - intros c s H. unfold cleanText in H. exact (trim_last _ _ _ H).
  - split; [|apply cleanText_blank].
    intros E. rewrite <- cleanText_visible, E. reflexivity.
Qed.

End ChunkSizeFacts.

(** ** The upload route *)

Module UploadFacts.
Import JS JSFacts Storage Store StorageFacts StoreFacts EmbeddingService Routes RoutesSpec.

Lemma skipn_head {A} (l : list A) (i : nat) (x : A) (rest : list A) :
  skipn i l = x :: rest -> nth_error l i = Some x /\ skipn (S i) l = rest.
Proof.
  revert i. induction l as [|y l IH]; intros [|i] H; simpl in *; try discriminate.
  - inversion H. tauto.
  - apply IH. exact H.
Qed.

Lemma filter_all {A} (f : A -> bool) (l : list A) :
  (forall x, In x l -> f x = true) -> filter f l = l.
Proof.
  intros H. apply forallb_filter_id. apply forallb_forall. exact H.
Qed.

Lemma filter_none {A} (f : A -> bool) (l : list A) :
  (forall x, In x l -> f x = false) -> filter f l = [].
Proof.
  induction l as [|x l IH]; intros H; simpl; [reflexivity|].
  rewrite (H x) by (left; reflexivity). apply IH. intros y Hy. apply H. right. exact Hy.
Qed.

Section Upload.

Variable JSON_stringify : list R -> jstr.
Variable openai : jstr -> provider.
Variable uuid : nat -> jstr.
Hypothesis uuid_distinct : forall a b, uuid a = uuid b -> a = b.

Lemma chunkRecords_fields (docId : jstr) (texts : list jstr) :
  forall i,
    map text (chunkRecords JSON_stringify openai uuid docId i texts) = texts
    /\ map chunkIndex (chunkRecords JSON_stringify openai uuid docId i texts)
       = seq i (length texts)
    /\ map chunk_id (chunkRecords JSON_stringify openai uuid docId i texts)
       = map (fun j => uuid (S j)) (seq i (length texts))
    /\ Forall (fun c => documentId c = docId)
              (chunkRecords JSON_stringify openai uuid docId i texts).
Proof.
  induction texts as [|t texts IH]; intros i; simpl.
  - repeat split; constructor.
  - destruct (IH (S i)) as (H1 & H2 & H3 & H4).
    rewrite H1, H2, H3. repeat split. constructor; [reflexivity|exact H4].
Qed.

Lemma chunkRecords_sorted (docId : jstr) (texts : list jstr) :
  forall i,
    StronglySorted (fun a b => ascNat chunkIndex a b = true)
                   (chunkRecords JSON_stringify openai uuid docId i texts).
Proof.
  induction texts as [|t texts IH]; intros i; simpl; constructor; [apply IH|].
  apply Forall_forall. intros c Hc.
  destruct (chunkRecords_fields docId texts (S i)) as (_ & Hidx & _).
  apply (in_map chunkIndex) in Hc. rewrite Hidx in Hc. apply in_seq in Hc.
  unfold ascNat. apply Nat.leb_le. simpl. lia.
Qed.

(** The loop that stores the chunks puts their records after the entries
    the map has, in order. *)
Lemma storeChunks_appends (docId : jstr) (all : list jstr) :
  forall texts st i,
    skipn i all = texts ->
    (forall j, i <= j -> mapGet (documentChunks st) (uuid (S j)) = None) ->
    storeChunks JSON_stringify st uuid docId (generateEmbeddings openai all) i texts
    = mkStorage (documents st)
        (documentChunks st
         ++ map (fun c => (chunk_id c, c))
                (chunkRecords JSON_stringify openai uuid docId i texts))
        (queries st).
Proof.
  induction texts as [|t texts IH]; intros st i Hskip Hfresh; cbn [storeChunks].
  - simpl. rewrite app_nil_r. destruct st; reflexivity.
  - cbv zeta. destruct (skipn_head _ _ _ _ Hskip) as [Hnth Hrest].
    unfold createDocumentChunk. cbn [snd ins_documentId ins_chunkIndex ins_text
                                     ins_embedding].
    unfold generateEmbeddings at 1. rewrite nth_error_map, Hnth. cbn [option_map].
    rewrite mapSet_fresh by (apply Hfresh; lia).
    rewrite IH; cbn [documents documentChunks queries].
    + cbn [chunkRecords map]. rewrite <- app_assoc. reflexivity.
    + exact Hrest.
    + intros j Hj. apply mapGet_None. rewrite map_app, in_app_iff. simpl.
      intros [Hin|[Heq|[]]].
      * revert Hin. apply mapGet_None. apply Hfresh. lia.
      * apply uuid_distinct in Heq. lia.
Qed.

(** X12.  An upload whose identifiers are new stores the chunks of the
    text as the chunks of one new document: the records are found under
    the document in the order of the chunker, numbered from 0, each with
    its text and the embedding of that text; the document carries the
    number of chunks; the other documents and their chunks are as
    before. *)
Theorem upload_stores (st : MemStorage) (now : nat) (f : UploadedFile) (text : jstr) :
  file_text f = Some text ->
  (forall i, mapGet (documentChunks st) (uuid (S i)) = None) ->
  (forall c, In c (getAllChunks st) -> documentId c <> uuid 0) ->
  exists chunks st',
    PDFService.chunk text = Some chunks
    /\ upload JSON_stringify openai st uuid now (Some f)
       = Some (UploadOk (uuid 0) (file_originalname f) (length chunks), st')
    /\ getDocument st' (uuid 0)
       = Some (mkDocument (uuid 0) (file_filename f) (file_originalname f)
                          (length chunks) now)
    /\ getDocumentChunks st' (uuid 0)
       = chunkRecords JSON_stringify openai uuid (uuid 0) 0 chunks
    /\ map Storage.text (getDocumentChunks st' (uuid 0)) = chunks
    /\ map chunkIndex (getDocumentChunks st' (uuid 0)) = seq 0 (length chunks)
    /\ (forall d, d <> uuid 0 -> getDocumentChunks st' d = getDocumentChunks st d)
    /\ (forall k, k <> uuid 0 -> getDocument st' k = getDocument st k)
    /\ queries st' = queries st.
Proof.
  intros Htext Hfresh Horphan.
  destruct (ChunkSizeFacts.chunk_returns text) as [chunks Hchunks].
  set (records := chunkRecords JSON_stringify openai uuid (uuid 0) 0 chunks).
  set (document := mkDocument (uuid 0) (file_filename f) (file_originalname f)
                              (length chunks) now).
  set (st' := mkStorage (mapSet (documents st) (uuid 0) document)
                (documentChunks st ++ map (fun c => (chunk_id c, c)) records)
                (queries st)).
  exists chunks, st'.
  assert (Hvalues : mapValues (documentChunks st') = getAllChunks st ++ records).
  { unfold st', mapValues, getAllChunks, mapValues. cbn [documentChunks].
    rewrite map_app, map_map. simpl. rewrite map_id. reflexivity. }
  destruct (chunkRecords_fields (uuid 0) chunks 0) as (Ht & Hi & _ & Hd).
  fold records in Ht, Hi, Hd.
  assert (Hmine : getDocumentChunks st' (uuid 0) = records).
  { unfold getDocumentChunks. rewrite Hvalues, filter_app.
    rewrite (filter_none _ (getAllChunks st)).
    - simpl. rewrite filter_all.
      + apply sortBy_of_sorted. apply chunkRecords_sorted.
      + intros c Hc. rewrite Forall_forall in Hd. apply streq_eq. exact (Hd c Hc).
    - intros c Hc. apply streq_neq. exact (Horphan c Hc). }
  split; [exact Hchunks|]. split.
  - unfold upload. rewrite Htext, Hchunks. unfold createDocument. cbn [orZero
      ins_filename ins_originalName ins_chunksCount doc_id originalName chunksCount].
    rewrite (storeChunks_appends (uuid 0) chunks chunks _ 0 eq_refl).
    + reflexivity.
    + intros j _. apply Hfresh.
  - split; [apply mapGet_set_same|]. split; [exact Hmine|].
    split; [rewrite Hmine; exact Ht|]. split; [rewrite Hmine; exact Hi|].
    split; [|split; [|reflexivity]].
    + intros d Hne. unfold getDocumentChunks. rewrite Hvalues, filter_app.
      rewrite (filter_none _ records); [rewrite app_nil_r; reflexivity|].
      intros c Hc. rewrite Forall_forall in Hd. apply streq_neq.
      rewrite (Hd c Hc). congruence.
    + intros k Hk. apply mapGet_set_other. exact Hk.
Qed.

(** X13.  Uploading a file and then deleting its document leaves the store
    as it was before the upload. *)
Theorem upload_then_delete (st : MemStorage) (now : nat) (f : UploadedFile)
  (text : jstr) :
  file_text f = Some text ->
  mapGet (documents st) (uuid 0) = None ->
  (forall i, mapGet (documentChunks st) (uuid (S i)) = None) ->
  (forall c, In c (getAllChunks st) -> documentId c <> uuid 0) ->
  exists response st',
    upload JSON_stringify openai st uuid now (Some f) = Some (response, st')
    /\ deleteRoute st' (uuid 0) = (Deleted, st).
Proof.
  intros Htext Hdoc Hfresh Horphan.
  destruct (ChunkSizeFacts.chunk_returns text) as [chunks Hchunks].
  set (records := chunkRecords JSON_stringify openai uuid (uuid 0) 0 chunks).
  eexists. eexists. split.
  - unfold upload. rewrite Htext, Hchunks. unfold createDocument. cbn [orZero
      ins_filename ins_originalName ins_chunksCount doc_id originalName chunksCount].
    rewrite (storeChunks_appends (uuid 0) chunks chunks _ 0 eq_refl);
      [reflexivity|intros j _; apply Hfresh].
  - fold records. cbn [documents documentChunks queries].
    unfold deleteRoute, getDocument. cbn [documents].
    rewrite mapGet_set_same. f_equal.
    unfold deleteDocument, deleteDocumentChunks, mapEntries.
    cbn [documents documentChunks queries].
    rewrite deleteLoop_filter.
    destruct st as [docs chunkMap qs]. cbn [documents documentChunks queries] in *.
    f_equal.
    + rewrite (mapSet_fresh _ _ _ Hdoc). unfold mapDelete. rewrite filter_app.
      simpl. rewrite streq_refl. simpl. rewrite app_nil_r.
      apply filter_all. intros kv Hkv. apply negb_true_iff, streq_neq.
      intros E. apply mapGet_None in Hdoc. apply Hdoc. rewrite <- E.
      apply in_map. exact Hkv.
    + set (fresh := map (fun c => (chunk_id c, c)) records).
      destruct (chunkRecords_fields (uuid 0) chunks 0) as (_ & _ & Hids & Hd).
      fold records in Hids, Hd.
      assert (Hnew : forall e, In e fresh ->
                exists j, fst e = uuid (S j) /\ documentId (snd e) = uuid 0).
      { intros e He. unfold fresh in He. apply in_map_iff in He.
        destruct He as [c [<- Hc]]. simpl.
        assert (Hin : In (chunk_id c) (map chunk_id records)) by (apply in_map; exact Hc).
        rewrite Hids in Hin. apply in_map_iff in Hin. destruct Hin as [j [Hj _]].
        exists j. split; [congruence|]. rewrite Forall_forall in Hd. exact (Hd c Hc). }
      rewrite filter_app. rewrite (filter_none _ fresh).
      * rewrite app_nil_r. apply filter_all. intros kv Hkv.
        apply negb_true_iff, not_true_is_false. intros Hex.
        apply existsb_exists in Hex. destruct Hex as [e [He Hm]].
        apply andb_true_iff in Hm. destruct Hm as [Hk Hdid].
        apply streq_eq in Hk, Hdid. apply in_app_or in He. destruct He as [He|He].
        -- apply (Horphan (snd e)); [|exact Hdid].
           unfold getAllChunks, mapValues. cbn [documentChunks]. apply in_map. exact He.
        -- destruct (Hnew e He) as (j & Hj & _).
           specialize (Hfresh j). apply mapGet_None in Hfresh. apply Hfresh.
           rewrite <- Hj, <- Hk. apply in_map. exact Hkv.
      * intros kv Hkv. apply negb_false_iff. apply existsb_exists.
        exists kv. split; [apply in_or_app; right; exact Hkv|].
        destruct (Hnew kv Hkv) as (j & _ & Hdid).
        rewrite streq_refl. apply streq_eq. exact Hdid.
Qed.

End Upload.

Lemma upload_then_delete_witness :
  exists response st',
    upload (fun _ => lit "[]") (fun _ => NotConfigured) Samples.sampleStore
           (fun n => lit "id" ++ repeat "a"%char n) 7
           (Some (mkFile "f1" "cv.pdf" (Some (lit "Skills: Rocq"))))
    = Some (response, st')
    /\ deleteRoute st' (lit "id") = (Deleted, Samples.sampleStore).
Proof.
  apply (upload_then_delete (fun _ => lit "[]") (fun _ => NotConfigured)
           (fun n => lit "id" ++ repeat "a"%char n)) with (text := lit "Skills: Rocq").
  - intros a b H. apply (f_equal (@length ascii)) in H.
    rewrite !length_app, !repeat_length in H. lia.
  - reflexivity.
  - reflexivity.
  - intros i. unfold mapGet. simpl. destruct i; reflexivity.
  - intros c Hc. simpl in Hc.
    destruct Hc as [<-|[<-|[<-|[]]]]; simpl; discriminate.
Defined.

Lemma upload_stores_witness :
  exists chunks st',
    PDFService.chunk (lit "Skills: Rocq") = Some chunks
    /\ upload (fun _ => lit "[]") (fun _ => NotConfigured) emptyStorage
              (fun n => lit "id" ++ repeat "a"%char n) 7
              (Some (mkFile "f1" "cv.pdf" (Some (lit "Skills: Rocq"))))
       = Some (UploadOk "id" "cv.pdf" (length chunks), st').
Proof.
  destruct (upload_stores (fun _ => lit "[]") (fun _ => NotConfigured)
              (fun n => lit "id" ++ repeat "a"%char n)) with
    (st := emptyStorage) (now := 7)
    (f := mkFile "f1" "cv.pdf" (Some (lit "Skills: Rocq")))
    (text := lit "Skills: Rocq") as (chunks & st' & H1 & H2 & _).
  - intros a b H. apply (f_equal (@length ascii)) in H.
    rewrite !length_app, !repeat_length in H. lia.
  - reflexivity.
  - intros i. reflexivity.
  - intros c [].
  - exists chunks, st'. split; [exact H1|exact H2].
Defined.

End UploadFacts.

(** ** The query route *)

Module QueryFacts.
Import JS JSFacts Storage Store EmbeddingService VectorService QueryRoute Routes.
Local Open Scope R_scope.

Lemma Int_part_mono (x y : R) : x <= y -> (Int_part x <= Int_part y)%Z.
Proof.
  intros H. destruct (base_Int_part x) as [Hx _]. destruct (base_Int_part y) as [_ Hy].
  assert (Hlt : IZR (Int_part x) < IZR (Int_part y + 1)) by (rewrite plus_IZR; lra).
  apply lt_IZR in Hlt. lia.
Qed.

Lemma rounded_mono (x y : R) :
  x <= y -> IZR (Math_round (x * 100)) / 100 <= IZR (Math_round (y * 100)) / 100.
Proof.
  intros H. unfold Math_round.
  assert (Hz : (Int_part (x * 100 + / 2) <= Int_part (y * 100 + / 2))%Z)
    by (apply Int_part_mono; lra).
  apply IZR_le in Hz. lra.
Qed.

Lemma flat_map_nil {A B} (f : A -> list B) (l : list A) :
  (forall x, In x l -> f x = []) -> flat_map f l = [].
Proof.
  induction l as [|x l IH]; intros H; simpl; [reflexivity|].
  rewrite (H x) by (left; reflexivity). apply IH. intros y Hy. apply H. right. exact Hy.
Qed.

Lemma sourcesOf_length (similarChunks : list SimilarityResult) :
  length (sourcesOf similarChunks) = length similarChunks.
Proof.
  unfold sourcesOf, sortedChunks. rewrite length_map. apply SortFacts.sortBy_length.
Qed.

(** X14.  The sources of a response are the chunks found, each once, in
    descending order of similarity, also after the similarities are rounded
    to hundredths. *)
Theorem sources_ranked (similarChunks : list SimilarityResult) :
  length (sourcesOf similarChunks) = length similarChunks
  /\ StronglySorted (fun a b => (src_similarity b <= src_similarity a)%R)
                    (sourcesOf similarChunks)
  /\ exists ranked,
       Permutation ranked similarChunks
       /\ StronglySorted (Sort.notBelow similarity) ranked
       /\ sourcesOf similarChunks = map formatSource ranked.
Proof.
  unfold sourcesOf, sortedChunks.
  set (ranked := Sort.sortBy (Sort.descR similarity) similarChunks).
  assert (Hs : StronglySorted (Sort.notBelow similarity) ranked)
    by apply SortFacts.sortBy_descending.
  split; [rewrite length_map; apply SortFacts.sortBy_length|]. split.
  - induction Hs as [|r l Hl IH Hr]; simpl; constructor; [exact IH|].
    apply Forall_forall. intros s Hs'. apply in_map_iff in Hs'.
    destruct Hs' as [r' [<- Hr']]. rewrite Forall_forall in Hr.
    specialize (Hr r' Hr'). unfold Sort.notBelow in Hr. simpl.
    apply rounded_mono. exact Hr.
  - exists ranked. split; [apply SortFacts.sortBy_perm|]. split; [exact Hs|reflexivity].
Qed.

Lemma textSearchStep_score (st : MemStorage) (query : jstr) (c : DocumentChunk)
  (e : TextSearchResult) :
  In e (textSearchStep st query c) -> ts_chunk e = c /\ (1 <= score e)%nat.
Proof.
  unfold textSearchStep. cbv zeta.
  destruct (isDefinitionQuery (toLowerCase query)).
  - destruct ((0 <? matchScore _ _)%nat && _) eqn:E; [|intros []].
    intros [<-|[]]. simpl. split; [reflexivity|lia].
  - destruct (0 <? matchScore _ _)%nat eqn:E; [|intros []].
    intros [<-|[]]. simpl. apply Nat.ltb_lt in E. split; [reflexivity|lia].
Qed.

(** X26.  Stage 1 keeps at most ten candidates, the best-scoring ones and
    all of them when there are no more than ten, best first; the
    similarity of each is a tenth of its score, so at least 0.1. *)
Theorem textSearch_ranked (st : MemStorage) (query : jstr) :
  length (textSearch st query)
  = Nat.min 10 (length (textSearchResults st query))
  /\ StronglySorted (Sort.notBelow similarity) (textSearch st query)
  /\ (forall r, In r (textSearch st query) ->
        exists e, In e (textSearchResults st query)
                  /\ r = mkResult (ts_chunk e) (INR (score e) / 10) (ts_documentName e)
                  /\ In (chunk r) (getAllChunks st)
                  /\ 1 / 10 <= similarity r)
  /\ exists ranked,
       Permutation ranked (textSearchResults st query)
       /\ StronglySorted (fun a b => (score b <= score a)%nat) ranked
       /\ textSearch st query
          = map (fun e => mkResult (ts_chunk e) (INR (score e) / 10) (ts_documentName e))
                (firstn 10 ranked).
Proof.
  unfold textSearch.
  set (ranked := Sort.sortBy (Sort.descNat score) (textSearchResults st query)).
  assert (Hs : StronglySorted (fun a b => (score b <= score a)%nat) ranked)
    by apply StoreFacts.sorted_desc.
  assert (Hp : Permutation ranked (textSearchResults st query))
    by apply SortFacts.sortBy_perm.
  split; [rewrite length_map, length_firstn; unfold ranked;
          rewrite SortFacts.sortBy_length; reflexivity|].
  split; [|split].
  - apply (StoreFacts.firstn_strongly_sorted _ 10) in Hs.
    induction Hs as [|e l Hl IH He]; simpl; constructor; [exact IH|].
    apply Forall_forall. intros r Hr. apply in_map_iff in Hr.
    destruct Hr as [e' [<- He']]. rewrite Forall_forall in He. specialize (He e' He').
    unfold Sort.notBelow. simpl. apply le_INR in He. lra.
  - intros r Hr. apply in_map_iff in Hr. destruct Hr as [e [<- He]].
    apply SortFacts.firstn_In in He. apply (Permutation_in _ Hp) in He.
    exists e. split; [exact He|]. split; [reflexivity|].
    unfold textSearchResults in He. apply in_flat_map in He.
    destruct He as [c [Hc He]]. apply textSearchStep_score in He.
    destruct He as [Hchunk Hscore]. simpl. split; [rewrite Hchunk; exact Hc|].
    apply le_INR in Hscore. simpl in Hscore. lra.
  - exists ranked. split; [exact Hp|]. split; [exact Hs|reflexivity].
Qed.

Section Query.

Variable JSON_parse : jstr -> option (list R).
Variable JSON_stringify : list SourceResult -> jstr.

(** X15.  A query changes no document and no chunk.  It saves one record,
    with the question, the answer and the sources, exactly when it answers
    with sources; a request that is refused (no query, or a blank one),
    that finds nothing or that fails leaves the store as it is. *)
Theorem handleQuery_frame (st : MemStorage) (uuid : jstr) (now : nat)
  (openai : provider) (query : jstr) :
  let r := handleQuery JSON_parse JSON_stringify st uuid now openai (Some query) in
  handleQuery JSON_parse JSON_stringify st uuid now openai None = (QueryRequired, st)
  /\ (blank query = true -> r = (QueryRequired, st))
  /\ documents (snd r) = documents st
  /\ documentChunks (snd r) = documentChunks st
  /\ match fst r with
     | Answered answer (source :: sources) =>
         snd r = snd (createQuery st uuid now
                        (mkInsertQuery query answer
                           (Some (JSON_stringify (source :: sources)))))
         /\ mapGet (queries (snd r)) uuid
            = Some (mkQuery uuid query answer
                      (orNull (Some (JSON_stringify (source :: sources)))) now)
     | _ => snd r = st
     end.
Proof.
  cbv zeta. split; [reflexivity|].
  unfold handleQuery. destruct (blank query); [simpl; tauto|].
  split; [discriminate|].
  set (found := fst (retrieve JSON_parse st query (generateEmbedding openai query))).
  destruct (length found =? 0)%nat eqn:El; [simpl; tauto|].
  destruct (Run.answer _ _) as [answer|e]; [|simpl; tauto].
  destruct (blank answer); [simpl; tauto|].
  cbn [fst snd]. split; [reflexivity|]. split; [reflexivity|].
  destruct (sourcesOf found) as [|source sources] eqn:Es.
  - apply Nat.eqb_neq in El. exfalso. apply El.
    pose proof (sourcesOf_length found) as Hlen. rewrite Es in Hlen. simpl in Hlen.
    symmetry. exact Hlen.
  - split; [reflexivity|]. unfold createQuery. cbn [snd queries ins_query
      ins_response ins_sources].
    apply StoreFacts.mapGet_set_same.
Qed.

(** X16.  While no chunk is stored, a query that is not blank gets the
    answer that nothing was found, with no source, and nothing is
    saved. *)
Theorem handleQuery_no_chunks (st : MemStorage) (uuid : jstr) (now : nat)
  (openai : provider) (query : jstr) :
  documentChunks st = [] -> blank query = false ->
  handleQuery JSON_parse JSON_stringify st uuid now openai (Some query)
  = (Answered (nothingFound query) [], st).
Proof.
  intros Hempty Hq. unfold handleQuery. rewrite Hq.
  assert (Hfound : fst (retrieve JSON_parse st query (generateEmbedding openai query))
                   = []).
  { unfold retrieve, textSearch, textSearchResults, searchSimilarChunks, getAllChunks,
      mapValues. rewrite Hempty. reflexivity. }
  rewrite Hfound. reflexivity.
Qed.

End Query.

Lemma handleQuery_no_chunks_witness :
  handleQuery (fun _ => None) (fun _ => lit "[]") emptyStorage "q1" 5 NotConfigured
              (Some (lit "What is HTML?"))
  = (Answered (nothingFound "What is HTML?") [], emptyStorage).
Proof.
  apply handleQuery_no_chunks.
  - reflexivity.
  - vm_compute. reflexivity.
Defined.

End QueryFacts.

(** ** Similarities and the vector search *)

Module SimilarityFacts.
Import JS JSFacts Storage EmbeddingService VectorService CosineFacts EmbeddingFacts.
Local Open Scope R_scope.

Lemma dotProduct_comm (a b : list R) : Spec.dotProduct a b = Spec.dotProduct b a.
Proof.
  revert b. induction a as [|x a IH]; intros [|y b]; simpl; try reflexivity.
  rewrite IH. ring.
Qed.

(** [cosineSimilarity] through the dot product and the norms, for vectors
    of one length. *)
Lemma cosineSimilarity_equal_lengths (a b : list R) :
  length a = length b ->
  cosineSimilarity a b
  = Similarity (divide (Spec.dotProduct a b)
                       (sqrt (Spec.squaredNorm a) * sqrt (Spec.squaredNorm b))).
Proof.
  intros H. unfold cosineSimilarity. rewrite H, Nat.eqb_refl. simpl.
  rewrite (cosineLoop_spec a b H). reflexivity.
Qed.

Lemma cosineSimilarity_unequal_lengths (a b : list R) :
  length a <> length b -> cosineSimilarity a b = DimensionError.
Proof.
  intros H. unfold cosineSimilarity. apply Nat.eqb_neq in H. rewrite H. reflexivity.
Qed.

(** A vector of zeros has no similarity to any vector. *)
Lemma cosineSimilarity_zero_vector (a b : list R) :
  Forall (fun x => x = 0) a ->
  cosineSimilarity a b = Similarity NaN \/ cosineSimilarity a b = DimensionError.
Proof.
  intros Hz. destruct (Nat.eq_dec (length a) (length b)) as [E|E].
  - left. rewrite (cosineSimilarity_equal_lengths a b E).
    assert (Hn : Spec.squaredNorm a = 0).
    { clear E. induction Hz as [|x a Hx _ IH]; simpl; [reflexivity|].
      rewrite Hx, IH. ring. }
    rewrite Hn, sqrt_0, Rmult_0_l. unfold divide.
    destruct (Req_EM_T 0 0); [reflexivity|contradiction].
  - right. apply cosineSimilarity_unequal_lengths. exact E.
Qed.




End SimilarityFacts.

(** ** The fallback embedding *)

Module FallbackFacts.
Import JS JSFacts Storage EmbeddingService VectorService CosineFacts EmbeddingFacts
       SimilarityFacts.
Local Open Scope R_scope.

Lemma fallbackEmbedding_empty : fallbackEmbedding [] = repeat 0 256.
Proof.
  rewrite fallbackEmbedding_accumulated.
  assert (Hacc : accumulated [] = repeat 0 256) by reflexivity.
  rewrite Hacc, sumSquares_spec, squaredNorm_zeros, sqrt_0.
  unfold orOne. destruct (Req_EM_T 0 0) as [_|Hn]; [|contradiction].
  rewrite map_repeat. f_equal. lra.
Qed.








Lemma lowerChar_idem (c : ascii) : lowerChar (lowerChar c) = lowerChar c.
Proof. destruct c as [[] [] [] [] [] [] [] []]; reflexivity. Qed.

Lemma toLowerCase_idem (s : jstr) : toLowerCase (toLowerCase s) = toLowerCase s.
Proof.
  unfold toLowerCase. rewrite map_map. apply map_ext. apply lowerChar_idem.
Qed.

Lemma substring_from_start (s : jstr) (n : nat) : substring s 0 n = firstn n s.
Proof. unfold substring. rewrite Nat.sub_0_r. reflexivity. Qed.

(** X20.  For a text of Latin-1 code units (all a [jstr] holds), whose
    lower-cased form has the same length and is made code unit by code unit,
    the fallback embedding reads the text without regard to case, and reads
    no further than its first 5000 code units. *)
Theorem fallback_reads (text : jstr) :
  generateEmbedding NotConfigured (toLowerCase text)
  = generateEmbedding NotConfigured text
  /\ generateEmbedding NotConfigured (substring text 0 5000)
     = generateEmbedding NotConfigured text
  /\ (forall rest, (5000 <= length text)%nat ->
        generateEmbedding NotConfigured (text ++ rest)
        = generateEmbedding NotConfigured text).
Proof.
  cbn [generateEmbedding].
  assert (Hlimited : forall t t',
            substring (toLowerCase t) 0 5000 = substring (toLowerCase t') 0 5000 ->
            fallbackEmbedding t = fallbackEmbedding t').
  { intros t t' H. unfold fallbackEmbedding, accumulated. rewrite H. reflexivity. }
  split; [|split].
  - apply Hlimited. rewrite toLowerCase_idem. reflexivity.
  - apply Hlimited. rewrite !substring_from_start. unfold toLowerCase.
    rewrite <- firstn_map, firstn_firstn. reflexivity.
  - intros rest Hlen. apply Hlimited. rewrite !substring_from_start.
    unfold toLowerCase. rewrite !firstn_map, firstn_app.
    replace (5000 - length text)%nat with 0%nat by lia.
    simpl. rewrite app_nil_r. reflexivity.
Qed.

Lemma toInt32_range (z : Z) : (- 2 ^ 31 <= toInt32 z < 2 ^ 31)%Z.
Proof.
  unfold toInt32.
  pose proof (Z.mod_pos_bound (z + 2 ^ 31) (2 ^ 32) ltac:(lia)). lia.
Qed.

Lemma wordHash_range (word : jstr) : (- 2 ^ 31 <= wordHash word < 2 ^ 31)%Z.
Proof.
  unfold wordHash.
  assert (H : forall h, (- 2 ^ 31 <= h < 2 ^ 31)%Z ->
                        (- 2 ^ 31 <= fold_left hashStep word h < 2 ^ 31)%Z).
  { induction word as [|c word IH]; intros h Hh; simpl; [exact Hh|].
    apply IH. unfold hashStep. apply toInt32_range. }
  apply H. lia.
Qed.

Lemma parseInt_absToString (hash : Z) :
  parseInt (absToString hash) = Some (Z.to_N (Z.abs hash)).
Proof.
  unfold parseInt, absToString, lit.
  rewrite string_of_list_ascii_of_string, NilEmpty.usu. simpl.
  rewrite Unsigned.of_to. reflexivity.
Qed.

(** X21.  The hash of a word is a 32-bit integer; the decimal text of its
    absolute value reads back as that value; and the word adds exactly 1 to
    the vector, in the bucket of that value modulo 256. *)
Theorem word_bucket (word : jstr) (vector : list R) :
  length vector = 256%nat ->
  (- 2 ^ 31 <= wordHash word < 2 ^ 31)%Z
  /\ parseInt (absToString (wordHash word)) = Some (Z.to_N (Z.abs (wordHash word)))
  /\ wordFeature vector (absToString (wordHash word))
     = addAt (Z.to_nat (Z.abs (wordHash word) mod 256)) 1 vector
  /\ total (wordFeature vector (absToString (wordHash word))) = total vector + 1.
Proof.
  intros Hlen. split; [apply wordHash_range|]. split; [apply parseInt_absToString|].
  assert (Hidx : N.to_nat (Z.to_N (Z.abs (wordHash word)) mod 256)
                 = Z.to_nat (Z.abs (wordHash word) mod 256)).
  { rewrite <- Z_N_nat. f_equal. rewrite Z2N.inj_mod by lia. reflexivity. }
  assert (Hw : wordFeature vector (absToString (wordHash word))
               = addAt (Z.to_nat (Z.abs (wordHash word) mod 256)) 1 vector).
  { unfold wordFeature. rewrite parseInt_absToString, Hidx. reflexivity. }
  split; [exact Hw|]. rewrite Hw. apply addAt_total_in. rewrite Hlen.
  pose proof (Z.mod_pos_bound (Z.abs (wordHash word)) 256 ltac:(lia)). lia.
Qed.

Lemma word_bucket_witness :
  parseInt (absToString (wordHash "cat")) = Some (Z.to_N (Z.abs (wordHash "cat")))
  /\ total (wordFeature (repeat 0 256) (absToString (wordHash "cat")))
     = total (repeat 0 256) + 1.
Proof.
  destruct (word_bucket "cat" (repeat 0 256)) as (_ & H1 & _ & H2).
  - apply repeat_length.
  - split; [exact H1|exact H2].
Defined.

Section Search.

Variable JSON_parse : jstr -> option (list R).

Lemma similarityOf_zero (st : MemStorage) (q : list R) (threshold : R)
  (c : DocumentChunk) :
  Forall (fun x => x = 0) q -> similarityOf JSON_parse st q threshold c = [].
Proof.
  intros Hz. unfold similarityOf.
  destruct (embedding c) as [e|]; [|reflexivity].
  destruct (isEmpty e); [reflexivity|].
  destruct (JSON_parse e) as [v|]; [|reflexivity].
  destruct (cosineSimilarity_zero_vector q v Hz) as [E|E]; rewrite E; reflexivity.
Qed.

(** X22.  A query vector of zeros finds nothing, whatever is stored and
    whatever the threshold; the fallback embedding of the empty text is
    such a vector. *)
Theorem search_zero_query (st : MemStorage) (topK : nat) (threshold : R) :
  (forall q, Forall (fun x => x = 0) q ->
             searchSimilarChunks JSON_parse st q topK threshold = [])
  /\ searchSimilarChunks JSON_parse st (generateEmbedding NotConfigured [])
                         topK threshold = [].
Proof.
  assert (H : forall q, Forall (fun x => x = 0) q ->
                        searchSimilarChunks JSON_parse st q topK threshold = []).
  { intros q Hz. unfold searchSimilarChunks.
    rewrite QueryFacts.flat_map_nil; [destruct topK; reflexivity|].
    intros c _. apply similarityOf_zero. exact Hz. }
  split; [exact H|]. apply H. cbn [generateEmbedding].
  rewrite fallbackEmbedding_empty. apply Forall_forall.
  intros x Hx. apply repeat_spec in Hx. exact Hx.
Qed.

End Search.

End FallbackFacts.

(** ** extractInformationFromContext: errors, and what an answer holds *)

Module AnswerFacts.
Import JS JSFacts Run RunSpec RunFacts Extractor ExtractorFacts.
Local Open Scope js_scope.

Lemma yields_ret {A} (P : A -> Prop) (a : A) : P a -> yields P (ret a).
Proof. intros H w a' w' E. inversion E; subst. exact H. Qed.

Lemma yields_throw {A} (P : A -> Prop) (e : jserror) : yields P (@throw A e).
Proof. intros w a w' E. discriminate. Qed.

Lemma yields_bind {A B} (Q : A -> Prop) (P : B -> Prop) (m : M A) (f : A -> M B) :
  yields Q m -> (forall a, Q a -> yields P (f a)) -> yields P (bind m f).
Proof.
  intros Hm Hf w b w' E. unfold bind in E.
  destruct (m w) as [[a|e] w1] eqn:Em; [|discriminate].
  exact (Hf a (Hm w a w1 Em) w1 b w' E).
Qed.

Lemma yields_after_log {B} (P : B -> Prop) (msg : jstr) (k : M B) :
  yields P k -> yields P (log msg ;;; k).
Proof.
  intros H. apply yields_bind with (Q := fun _ => True); [|intros _ _; exact H].
  intros w a w' _. exact I.
Qed.

Lemma yields_answer {A} (P : A -> Prop) (m : M A) (w : World) (a : A) :
  yields P m -> answer m w = Ok a -> P a.
Proof.
  intros H E. unfold answer in E. destruct (m w) as [r w'] eqn:Em.
  simpl in E. subst r. exact (H w a w' Em).
Qed.

Lemma indexOfFrom_unfold (t s : jstr) (i : nat) :
  indexOfFrom t s i
  = if startsWith t s then Some i
    else match t with [] => None | _ :: t' => indexOfFrom t' s (S i) end.
Proof. destruct t; reflexivity. Qed.

Lemma includes_middle (pre s post : jstr) : includes (pre ++ s ++ post) s = true.
Proof.
  unfold includes.
  assert (H : forall i, exists j, indexOfFrom (pre ++ s ++ post) s i = Some j).
  { induction pre as [|c pre IH]; intros i; rewrite indexOfFrom_unfold.
    - simpl app. rewrite startsWith_app. exists i. reflexivity.
    - destruct (startsWith ((c :: pre) ++ s ++ post) s); [exists i; reflexivity|].
      simpl app. apply IH. }
  destruct (H 0) as [j Hj]. rewrite Hj. reflexivity.
Qed.

Lemma message_mentions (pre post X : jstr) :
  includes (toLowerCase (pre ++ quoted X ++ post)) (toLowerCase X) = true.
Proof.
  unfold quoted, toLowerCase. rewrite !map_app, <- !app_assoc.
  rewrite (app_assoc (map lowerChar pre)). apply includes_middle.
Qed.

Section Mentions.

Variables context lowerQuery subject : jstr.

(** An answer that mentions the subject, case aside. *)
Local Abbreviation mentions :=
  (fun r : jstr => includes (toLowerCase r) (toLowerCase subject) = true).

Lemma tryDefinitionPattern_mentions (i : nat) (pattern : RegExp.RegExpObj) :
  yields (fun r => forall result, r = Some result -> mentions result)
         (tryDefinitionPattern context lowerQuery (toLowerCase subject) i pattern).
Proof.
  unfold tryDefinitionPattern. cbv zeta. apply yields_after_log.
  destruct (RegExp.matchFirst pattern context) as [m|];
    [|apply yields_ret; discriminate].
  destruct (RegExp.group m 1) as [g|]; [|apply yields_throw].
  destruct (20 <? length (trim g)); [|apply yields_ret; discriminate].
  apply yields_after_log. apply yields_after_log.
  destruct (_ && (includes (toLowerCase (trim g)) (toLowerCase subject) && _)) eqn:E1.
  - apply yields_after_log. apply yields_ret. intros result H. inversion H; subst.
    apply andb_true_iff in E1. destruct E1 as [_ E1].
    apply andb_true_iff in E1. exact (proj1 E1).
  - destruct (_ && _ && includes (toLowerCase (trim g)) (toLowerCase subject) && _)
      eqn:E2.
    + apply yields_after_log. apply yields_ret. intros result H. inversion H; subst.
      apply andb_true_iff in E2. destruct E2 as [E2 _].
      apply andb_true_iff in E2. exact (proj2 E2).
    + apply yields_after_log. apply yields_ret. discriminate.
Qed.

Lemma definitionLoop_mentions (patterns : list RegExp.RegExpObj) :
  forall i,
    yields (fun r => forall result, r = Some result -> mentions result)
           (definitionLoop context lowerQuery (toLowerCase subject) i patterns).
Proof.
  induction patterns as [|pattern patterns IH]; intros i; cbn [definitionLoop].
  - apply yields_ret. discriminate.
  - eapply yields_bind; [apply tryDefinitionPattern_mentions|].
    intros [result|] H; [apply yields_ret; exact H|apply IH].
Qed.

Lemma sentenceSearch_mentions :
  yields mentions (sentenceSearch context lowerQuery subject (toLowerCase subject)).
Proof.
  unfold sentenceSearch. cbv zeta. apply yields_after_log.
  assert (HgiveUp : yields mentions
            (log ("No valid content found for subject " ++ quoted subject) ;;;
             ret (noDefinitionMessage subject))).
  { apply yields_after_log. apply yields_ret. apply message_mentions. }
  destruct (filter _ _) as [|first rest]; [exact HgiveUp|].
  apply yields_after_log.
  assert (Hsingle : yields mentions
            (if includes (toLowerCase (trim first)) (toLowerCase subject)
             then ret (trim first)
             else log ("No valid content found for subject " ++ quoted subject) ;;;
                  ret (noDefinitionMessage subject))).
  { destruct (includes (toLowerCase (trim first)) (toLowerCase subject)) eqn:E;
      [apply yields_ret; exact E|exact HgiveUp]. }
  destruct (_ || _); [|exact Hsingle].
  destruct (includes (toLowerCase (trim (join " " (firstn 3 (first :: rest)))))
                     (toLowerCase subject)) eqn:E;
    [apply yields_ret; exact E|exact Hsingle].
Qed.

Lemma definitionBranch_mentions :
  yields mentions (definitionBranch context lowerQuery (VStr subject)).
Proof.
  unfold definitionBranch. cbv zeta. apply yields_after_log. apply yields_after_log.
  destruct (negb _).
  - apply yields_after_log. apply yields_ret. apply message_mentions.
  - apply yields_after_log.
    apply yields_bind with (Q := fun _ => True); [intros ? ? ? _; exact I|].
    intros patterns _.
    eapply yields_bind; [apply definitionLoop_mentions|].
    intros [result|] H; [apply yields_ret; apply H; reflexivity|].
    apply sentenceSearch_mentions.
Qed.

End Mentions.

Lemma raises_ret {A} (Q : jserror -> Prop) (a : A) : raises Q (ret a).
Proof. intros w e w' E. discriminate. Qed.

Lemma raises_throw {A} (Q : jserror -> Prop) (e : jserror) : Q e -> raises Q (@throw A e).
Proof. intros H w e' w' E. inversion E; subst. exact H. Qed.

Lemma raises_bind {A B} (Q : jserror -> Prop) (m : M A) (f : A -> M B) :
  raises Q m -> (forall a, raises Q (f a)) -> raises Q (bind m f).
Proof.
  intros Hm Hf w e w' E. unfold bind in E.
  destruct (m w) as [[a|e0] w1] eqn:Em.
  - exact (Hf a w1 e w' E).
  - inversion E; subst. exact (Hm w e w' Em).
Qed.

Lemma raises_after_log {B} (Q : jserror -> Prop) (msg : jstr) (k : M B) :
  raises Q k -> raises Q (log msg ;;; k).
Proof.
  intros H. apply raises_bind; [|intros _; exact H].
  intros w e w' E. discriminate.
Qed.

Lemma raises_answer {A} (Q : jserror -> Prop) (m : M A) (w : World) (e : jserror) :
  raises Q m -> answer m w = Throw e -> Q e.
Proof.
  intros H E. unfold answer in E. destruct (m w) as [r w'] eqn:Em.
  simpl in E. subst r. exact (H w e w' Em).
Qed.

Lemma tryDefinitionPattern_raises (context lowerQuery subjectLower : jstr) (i : nat)
  (pattern : RegExp.RegExpObj) :
  raises (fun e => e = TypeError)
         (tryDefinitionPattern context lowerQuery subjectLower i pattern).
Proof.
  unfold tryDefinitionPattern. cbv zeta. apply raises_after_log.
  destruct (RegExp.matchFirst pattern context) as [m|]; [|apply raises_ret].
  destruct (RegExp.group m 1) as [g|]; [|apply raises_throw; reflexivity].
  destruct (20 <? length (trim g)); [|apply raises_ret].
  apply raises_after_log. apply raises_after_log.
  destruct (_ && _); [apply raises_after_log; apply raises_ret|].
  destruct (_ && _); apply raises_after_log; apply raises_ret.
Qed.

Lemma definitionLoop_raises (context lowerQuery subjectLower : jstr)
  (patterns : list RegExp.RegExpObj) :
  forall i,
    raises (fun e => e = TypeError)
           (definitionLoop context lowerQuery subjectLower i patterns).
Proof.
  induction patterns as [|pattern patterns IH]; intros i; cbn [definitionLoop].
  - apply raises_ret.
  - apply raises_bind; [apply tryDefinitionPattern_raises|].
    intros [result|]; [apply raises_ret|apply IH].
Qed.

Lemma sentenceSearch_raises (context lowerQuery subject subjectLower : jstr) :
  raises (fun _ => False) (sentenceSearch context lowerQuery subject subjectLower).
Proof.
  unfold sentenceSearch. cbv zeta. apply raises_after_log.
  destruct (filter _ _) as [|first rest];
    [apply raises_after_log; apply raises_ret|].
  apply raises_after_log.
  assert (Hsingle : raises (fun _ => False)
            (if includes (toLowerCase (trim first)) subjectLower
             then ret (trim first)
             else log ("No valid content found for subject " ++ quoted subject) ;;;
                  ret (noDefinitionMessage subject))).
  { destruct (includes (toLowerCase (trim first)) subjectLower);
      [apply raises_ret|apply raises_after_log; apply raises_ret]. }
  destruct (_ || _); [|exact Hsingle].
  destruct (includes (toLowerCase (trim (join " " (firstn 3 (first :: rest)))))
                     subjectLower);
    [apply raises_ret|exact Hsingle].
Qed.

Lemma compileAll_raises (srcs : list jstr) :
  raises (fun e => exists src pe, In src srcs /\ RegExp.newRegExp src "i" = inl pe
                                  /\ e = RegExpError pe)
         (compileAll srcs).
Proof.
  induction srcs as [|src srcs IH]; cbn [compileAll]; [apply raises_ret|].
  destruct (RegExp.newRegExp src "i") as [pe|re] eqn:E.
  - apply raises_throw. exists src, pe. split; [left; reflexivity|]. split; [exact E|reflexivity].
  - apply raises_bind; [|intros res; apply raises_ret].
    intros w e w' H. destruct (IH w e w' H) as (src' & pe & Hin & Hn & He).
    exists src', pe. split; [right; exact Hin|]. split; assumption.
Qed.

Lemma raises_weaken {A} (Q Q' : jserror -> Prop) (m : M A) :
  (forall e, Q e -> Q' e) -> raises Q m -> raises Q' m.
Proof. intros H Hm w e w' E. exact (H e (Hm w e w' E)). Qed.

Lemma definitionBranch_raises (context lowerQuery subject : jstr) :
  Forall (fun src => RegExp.newRegExp src "i" <> inl RegExp.Unsupported)
         (definitionPatternSources subject (toLowerCase subject)) ->
  raises (fun e => e = TypeError \/ e = RegExpError RegExp.SyntaxError)
         (definitionBranch context lowerQuery (VStr subject)).
Proof.
  intros Hsup. unfold definitionBranch. cbv zeta.
  apply raises_after_log. apply raises_after_log.
  destruct (negb _); [apply raises_after_log; apply raises_ret|].
  apply raises_after_log. apply raises_bind.
  - eapply raises_weaken; [|apply compileAll_raises].
    intros e (src & pe & Hin & Hn & ->). right.
    rewrite Forall_forall in Hsup. specialize (Hsup src Hin).
    destruct pe; [reflexivity|contradiction].
  - intros patterns. apply raises_bind.
    + eapply raises_weaken; [|apply definitionLoop_raises].
      intros e ->. left. reflexivity.
    + intros [result|]; [apply raises_ret|].
      eapply raises_weaken; [|apply sentenceSearch_raises]. intros e [].
Qed.

(** X23.  A definition query whose subject is a text, not empty, and
    whose seven patterns lie within the syntax modelled (none is
    [Unsupported]) ends in one of three ways: an answer that mentions the
    subject, case aside (a definition found, a sentence of the context, or
    one of the two messages that name the subject); the syntax error of a
    subject that is no regular expression; or the type error of a match
    without its first group. *)
Theorem definition_answer_mentions_subject (context query X : jstr) (w : World) :
  answer (extractSubject context query (toLowerCase query)) w = Ok (VStr X) ->
  X <> [] ->
  Forall (fun src => RegExp.newRegExp src "i" <> inl RegExp.Unsupported)
         (definitionPatternSources X (toLowerCase X)) ->
  match answer (extractInformationFromContext context query) w with
  | Ok r => includes (toLowerCase r) (toLowerCase X) = true
  | Throw e => e = TypeError \/ e = RegExpError RegExp.SyntaxError
  end.
Proof.
  intros Hs Hne Hsup.
  assert (Ht : truthy (VStr X) = true) by (destruct X; [contradiction|reflexivity]).
  rewrite (extract_after_subject context query (VStr X) w Hs (or_introl Ht)).
  rewrite Ht.
  destruct (answer (definitionBranch context (toLowerCase query) (VStr X)) w) as [r|e] eqn:E.
  - exact (yields_answer _ _ w r (definitionBranch_mentions context (toLowerCase query) X) E).
  - exact (raises_answer _ _ w e (definitionBranch_raises context (toLowerCase query) X Hsup) E).
Qed.

Lemma definition_answer_mentions_subject_witness :
  match answer (extractInformationFromContext
                  "HTML is a markup language used for structuring pages on the web. CSS styles them."
                  "What is HTML?")
               Samples.emptyWorld with
  | Ok r => includes (toLowerCase r) (toLowerCase "HTML") = true
  | Throw e => e = TypeError \/ e = RegExpError RegExp.SyntaxError
  end.
Proof.
  apply (definition_answer_mentions_subject
           "HTML is a markup language used for structuring pages on the web. CSS styles them."
           "What is HTML?" "HTML" Samples.emptyWorld).
  - vm_compute. reflexivity.
  - discriminate.
  - repeat constructor; vm_compute; discriminate.
Defined.

(** X24.  A subject that names a member every object inherits is no text:
    the definition branch fails on it with a type error. *)
Theorem inherited_member_throws (context query shown : jstr) (w : World) :
  answer (extractSubject context query (toLowerCase query)) w = Ok (VObj shown) ->
  answer (extractInformationFromContext context query) w = Throw TypeError.
Proof.
  intros Hs.
  rewrite (extract_after_subject context query (VObj shown) w Hs (or_introl eq_refl)).
  reflexivity.
Qed.

Lemma inherited_member_throws_witness :
  answer (extractInformationFromContext "A constructor builds an object."
                                        "Explain constructor")
         Samples.emptyWorld
  = Throw TypeError.
Proof.
  apply (inherited_member_throws "A constructor builds an object." "Explain constructor"
           "function Object() { [native code] }").
  vm_compute. reflexivity.
Defined.

(** X25.  The subject is put into the patterns as it is written: when it
    occurs in the context and the first pattern built from it is no regular
    expression, the function fails with the syntax error. *)
Theorem unescaped_subject_throws (context query X : jstr) (w : World) :
  answer (extractSubject context query (toLowerCase query)) w = Ok (VStr X) ->
  X <> [] ->
  includes (toLowerCase context) (toLowerCase X) = true ->
  RegExp.newRegExp
    ("what is " ++ toLowerCase X ++ "\?[^:]*answer[^:]*([^.]{30,800})") "i"
  = inl RegExp.SyntaxError ->
  answer (extractInformationFromContext context query) w
  = Throw (RegExpError RegExp.SyntaxError).
Proof.
  intros Hs Hne Hinc Hre.
  assert (Ht : truthy (VStr X) = true) by (destruct X; [contradiction|reflexivity]).
  rewrite (extract_after_subject context query (VStr X) w Hs (or_introl Ht)).
  rewrite Ht. unfold definitionBranch, answer.
  cbv beta delta [bind log]. cbn [show]. rewrite Hinc. cbn [negb].
  unfold definitionPatternSources. cbn [compileAll]. rewrite Hre. reflexivity.
Qed.

Lemma unescaped_subject_throws_witness :
  answer (extractInformationFromContext "C++ is a language." "What is C++?")
         Samples.emptyWorld
  = Throw (RegExpError RegExp.SyntaxError).
Proof.
  apply (unescaped_subject_throws "C++ is a language." "What is C++?" "C++").
  - vm_compute. reflexivity.
  - discriminate.
  - vm_compute. reflexivity.
  - vm_compute. reflexivity.
Defined.

End AnswerFacts.

(** ** The vector search, whatever its parameters *)

Module VectorFacts.
Import JS JSFacts Storage EmbeddingService VectorService SortFacts Stage2Facts.
Local Open Scope R_scope.

(** In a sorted list, what the first [n] leave out comes after them. *)
Lemma firstn_best {A} (R : A -> A -> Prop) (n : nat) (l : list A) (x y : A) :
  StronglySorted R l ->
  In x (firstn n l) -> In y l -> ~ In y (firstn n l) -> R x y.
Proof.
  intros Hs Hx Hy Hnot.
  rewrite <- (firstn_skipn n l) in Hy, Hs.
  apply in_app_or in Hy. destruct Hy as [Hy|Hy]; [contradiction|].
  clear Hnot. induction (firstn n l) as [|z f IH]; simpl in *; [contradiction|].
  inversion Hs as [|? ? Hl Hz]; subst.
  destruct Hx as [<-|Hx]; [|exact (IH Hl Hx)].
  rewrite Forall_forall in Hz. apply Hz. apply in_or_app. right. exact Hy.
Qed.

Section Search.

Variable JSON_parse : jstr -> option (list R).

(** X28.  Whatever [topK] and the threshold are, the vector search returns
    at most [topK] results, best first; each is a stored chunk whose
    embedding is stored, parses and has a similarity to the query that is a
    number at or above the threshold; and a chunk that qualifies so and is
    left out is no more similar than any chunk returned. *)
Theorem searchSimilarChunks_top (st : MemStorage) (queryEmbedding : list R)
  (topK : nat) (threshold : R) :
  let found := searchSimilarChunks JSON_parse st queryEmbedding topK threshold in
  (length found <= topK)%nat
  /\ StronglySorted (Sort.notBelow similarity) found
  /\ (forall r, In r found -> qualifies JSON_parse st queryEmbedding threshold r)
  /\ (forall r r',
        In r found -> qualifies JSON_parse st queryEmbedding threshold r' ->
        ~ In r' found -> similarity r' <= similarity r)
  /\ (forall r, In r found -> embedding (chunk r) <> None).
Proof.
  cbv zeta. unfold searchSimilarChunks.
  set (candidates := flat_map (similarityOf JSON_parse st queryEmbedding threshold)
                              (getAllChunks st)).
  set (ranked := Sort.sortBy (Sort.descR similarity) candidates).
  assert (Hs : StronglySorted (Sort.notBelow similarity) ranked)
    by apply sortBy_descending.
  assert (Hq : forall r, In r ranked
                         <-> qualifies JSON_parse st queryEmbedding threshold r).
  { intros r. unfold ranked. rewrite sortBy_In. apply similarityOf_qualifies. }
  split; [rewrite length_firstn; lia|].
  split; [apply firstn_sorted; exact Hs|].
  split; [intros r Hr; apply Hq; exact (firstn_In _ _ _ Hr)|].
  split.
  - intros r r' Hr Hr' Hnot. apply Hq in Hr'.
    exact (firstn_best (Sort.notBelow similarity) topK ranked r r' Hs Hr Hr' Hnot).
  - intros r Hr. apply firstn_In, Hq in Hr.
    destruct Hr as (_ & _ & e & v & He & _). rewrite He. discriminate.
Qed.

End Search.

End VectorFacts.

(** ** The context of a query *)

Module ContextFacts.
Import JS JSFacts Storage VectorService QueryRoute SortFacts AnswerFacts.

Lemma join_holds (sep x : jstr) (l : list jstr) :
  In x l -> exists pre post, join sep l = pre ++ x ++ post.
Proof.
  induction l as [|y l IH]; intros H; [contradiction|].
  destruct l as [|z l].
  - destruct H as [<-|[]]. exists [], []. simpl. rewrite app_nil_r. reflexivity.
  - change (join sep (y :: z :: l)) with (y ++ sep ++ join sep (z :: l)).
    destruct H as [<-|H].
    + exists [], (sep ++ join sep (z :: l)). reflexivity.
    + destruct (IH H) as (pre & post & E). rewrite E.
      exists (y ++ sep ++ pre), post. rewrite <- !app_assoc. reflexivity.
Qed.

Lemma sourceLines_holds (results : list SimilarityResult) (r : SimilarityResult) :
  forall index,
    In r results ->
    exists n, In ("[Source " ++ ofNat (n + 1) ++ "]: " ++ text (chunk r))
                 (sourceLines results index).
Proof.
  induction results as [|r' results IH]; intros index H; [contradiction|].
  destruct H as [<-|H].
  - exists index. left. reflexivity.
  - destruct (IH (S index) H) as [n Hn]. exists n. right. exact Hn.
Qed.

Lemma sourceLines_length (results : list SimilarityResult) :
  forall index, length (sourceLines results index) = length results.
Proof.
  induction results as [|r results IH]; intros index; simpl; [reflexivity|].
  rewrite IH. reflexivity.
Qed.

(** X29.  The context handed to the extraction is made of at most eight
    source lines, those of the most similar chunks found, and holds the
    text of each of these chunks; it is empty when no chunk was found. *)
Theorem context_holds_best (similarChunks : list SimilarityResult) :
  (forall r, In r (firstn 8 (sortedChunks similarChunks)) ->
             includes (buildContext similarChunks) (text (chunk r)) = true)
  /\ length (sourceLines (firstn 8 (sortedChunks similarChunks)) 0)
     = Nat.min 8 (length similarChunks)
  /\ (forall r r', In r (firstn 8 (sortedChunks similarChunks)) ->
                   In r' similarChunks ->
                   ~ In r' (firstn 8 (sortedChunks similarChunks)) ->
                   (similarity r' <= similarity r)%R)
  /\ buildContext [] = [].
Proof.
  split; [|split; [|split; [|reflexivity]]].
  - intros r Hr. unfold buildContext.
    destruct (sourceLines_holds _ r 0 Hr) as [n Hn].
    destruct (join_holds (newline ++ newline) _ _ Hn) as (pre & post & E).
    rewrite E.
    replace (pre ++ (("[Source " : jstr) ++ ofNat (n + 1) ++ ("]: " : jstr)
                     ++ text (chunk r)) ++ post)
      with ((pre ++ ("[Source " : jstr) ++ ofNat (n + 1) ++ ("]: " : jstr))
            ++ text (chunk r) ++ post)
      by (rewrite <- !app_assoc; reflexivity).
    apply includes_middle.
  - rewrite sourceLines_length, length_firstn. unfold sortedChunks.
    rewrite sortBy_length. reflexivity.
  - intros r r' Hr Hr' Hnot. unfold sortedChunks in *.
    apply (VectorFacts.firstn_best (Sort.notBelow similarity) 8
             (Sort.sortBy (Sort.descR similarity) similarChunks) r r');
      [apply sortBy_descending|exact Hr| |exact Hnot].
    apply sortBy_In. exact Hr'.
Qed.

End ContextFacts.

(** ** Deleting, then reading *)

Module DeleteFacts.
Import JS JSFacts Storage Store StorageFacts StoreFacts.

Lemma filter_map_swap {A B} (f : A -> B) (p : B -> bool) (l : list A) :
  filter p (map f l) = map f (filter (fun x => p (f x)) l).
Proof.
  induction l as [|x l IH]; simpl; [reflexivity|].
  destruct (p (f x)); simpl; rewrite IH; reflexivity.
Qed.

(** X30.  After [deleteDocument id] the document has no chunk left to
    read and is not found; the chunks read for any other document are the
    ones read before, in the same order. *)
Theorem delete_then_read (st : MemStorage) (id : jstr) :
  uniqueKeys (documentChunks st) ->
  getDocumentChunks (deleteDocument st id) id = []
  /\ getDocument (deleteDocument st id) id = None
  /\ (forall d, d <> id ->
        getDocumentChunks (deleteDocument st id) d = getDocumentChunks st d).
Proof.
  intros Hu.
  assert (Hchunks : documentChunks (deleteDocument st id)
                    = filter (fun kv => negb (streq (documentId (snd kv)) id))
                             (documentChunks st)).
  { unfold deleteDocument.
    rewrite deleteDocumentChunks_filter by exact Hu. reflexivity. }
  assert (Hvalues : mapValues (documentChunks (deleteDocument st id))
                    = filter (fun c => negb (streq (documentId c) id))
                             (mapValues (documentChunks st))).
  { rewrite Hchunks. unfold mapValues. rewrite filter_map_swap. reflexivity. }
  split; [|split].
  - unfold getDocumentChunks. rewrite Hvalues.
    rewrite (UploadFacts.filter_none _ (filter _ _)); [reflexivity|].
    intros c Hc. apply filter_In in Hc. destruct Hc as [_ Hc].
    apply negb_true_iff in Hc. exact Hc.
  - unfold getDocument, deleteDocument, deleteDocumentChunks. cbn [documents].
    apply mapGet_delete_same.
  - intros d Hd. unfold getDocumentChunks. rewrite Hvalues. f_equal.
    clear Hvalues. induction (mapValues (documentChunks st)) as [|c l IH]; simpl; [reflexivity|].
    destruct (streq (documentId c) id) eqn:E; simpl.
    + apply streq_eq in E.
      assert (E' : streq (documentId c) d = false) by (apply streq_neq; congruence).
      rewrite E'. exact IH.
    + destruct (streq (documentId c) d); [f_equal|]; exact IH.
Qed.

Lemma delete_then_read_witness :
  getDocumentChunks (deleteDocument Samples.sampleStore "d2") "d2" = []
  /\ getDocument (deleteDocument Samples.sampleStore "d2") "d2" = None.
Proof.
  destruct (delete_then_read Samples.sampleStore "d2") as (H1 & H2 & _).
  - unfold uniqueKeys. simpl. repeat constructor; simpl; intuition discriminate.
  - split; [exact H1|exact H2].
Defined.

End DeleteFacts.
